(** * Synology Album Linker: folder cache and album link tree

    A shallow embedding of [synology_album_linker/cache.py] and
    [synology_album_linker/main.py], with the properties stated in the
    design notes of the tool proved (or refuted) on it.

    Conventions of the embedding:
    - a Python [int] is a [Z]; [str(n)] on an [int] is stdpp's [pretty];
    - a Python [str] is the Rocq [string] of its bytes in UTF-8, the
      encoding under which the file system sees it; the operations that go
      by character ([\d] of a regular expression, [s[1:]]) decode it;
    - a Python [dict] with [str] keys is a [gmap string _], a [dict] with
      [int] keys a [gmap Z _];
    - the remote photo service is a record of functions (one snapshot of the
      service), a failed call being an [inl] carrying [str(error)];
    - the operating system is a map from canonical absolute paths to nodes,
      with POSIX path resolution through symbolic links;
    - statements that touch the file system or print live in a state and
      exception monad [M]. *)

From Stdlib Require Import ZArith String Ascii List Lia.
From stdpp Require Import base tactics option list gmap fin_maps strings pretty sorting.
Import ListNotations.

Set Default Proof Using "Type".
Local Open Scope string_scope.
Local Open Scope list_scope.
Local Open Scope Z_scope.

(** ** Python values that reach the folder cache *)

#[warnings="-register-all"]
Inductive pyval : Type :=
  | PyInt (z : Z)
  | PyStr (s : string)
  | PyTuple (items : list pyval)
  | PyList (items : list pyval).

(** [str(n)] for an [int]. *)
Definition str_int (n : Z) : string := pretty n.

(** ** The remote folder client ([photos.py], and the vendor class it extends) *)

(** One element of [response["data"]["list"]] of a folder listing. *)
Record folder := Folder {
  f_id : Z;
  f_name : string;
  f_owner_user_id : Z;
}.

(** One element of the album listing. *)
Record album := Album {
  a_id : Z;
  a_name : string;
  a_owner_user_id : Z;
  a_create_time : Z;
}.

(** One element of the item listing of an album. *)
Record image := Image {
  i_filename : string;
  i_folder_id : Z;
  i_owner_user_id : Z;
}.

(** A listing call either raises ([inl (str error)]) or returns the list
    found under ["data"]["list"]. *)
Definition listing : Type := string + list folder.

Record CustomPhotos := {
  list_folders : Z → listing;
  list_teams_folders : Z → listing;
  list_albums : list album;
  list_item_in_albums : Z → list image;
  get_userinfo_name : string;
}.

(** ** cache.py: the folder collector *)

(** [folders[str(folder["id"])] = (folder["name"], folder["owner_user_id"])] *)
Definition folder_entry (f : folder) : pyval :=
  PyTuple [PyStr (f_name f); PyInt (f_owner_user_id f)].

Definition add_level (folders : gmap string pyval) (items : list folder)
  : gmap string pyval :=
  foldl (λ acc f, <[str_int (f_id f) := folder_entry f]> acc) folders items.

(** [folders.update(result)]: the entries of [result] win. *)
Definition dict_update {V} (folders result : gmap string V) : gmap string V :=
  result ∪ folders.

Definition combine_results (folders : gmap string pyval)
    (results : list (gmap string pyval)) : gmap string pyval :=
  foldl dict_update folders results.

Definition list_fn_of (photos : CustomPhotos) (is_shared : bool) : Z → listing :=
  if is_shared then list_teams_folders photos else list_folders photos.

Definition fetch_error_line (is_shared : bool) (folder_id : Z) (error : string)
  : string :=
  let folder_type := if is_shared then "shared" else "personal" in
  "Error fetching " +:+ folder_type +:+ " folders for ID "
    +:+ str_int folder_id +:+ ": " +:+ error.

(** The collector, with the order in which the children of one level are
    visited and merged made a parameter [sched]: the source visits them
    through [executor.map], whose results come back in the order of
    [folder_ids], that is [sched = id] below.  [fuel] bounds the depth of
    the Python recursion; [None] is a recursion that did not end within it.
    The result is the returned dict and the lines handed to [tqdm.write].
    The progress bar only counts and is left out. *)
Fixpoint collect_folders_sched (sched : list Z → list Z) (fuel : nat)
    (photos : CustomPhotos) (folder_id : Z) (is_shared : bool)
  : option (gmap string pyval * list string) :=
  match fuel with
  | O => None
  | S fuel' =>
    match list_fn_of photos is_shared folder_id with
    | inl error => Some (∅, [fetch_error_line is_shared folder_id error])
    | inr [] => Some (∅, [])
    | inr items =>
      let folders := add_level ∅ items in
      let folder_ids := sched (map f_id items) in
      results ← mapM (λ fid, collect_folders_sched sched fuel' photos fid is_shared)
                     folder_ids;
      Some (combine_results folders (fst <$> results), concat (snd <$> results))
    end
  end.

Definition collect_folders_recursive :=
  collect_folders_sched (λ folder_ids, folder_ids).

(** Folders found by repeated one-level listing from [root]: the children
    of [root], and the children of every folder found, as far as the listing
    calls succeed. *)
Inductive reachable (list_fn : Z → listing) (root : Z) : folder → Prop :=
  | reach_child items f :
      list_fn root = inr items → f ∈ items → reachable list_fn root f
  | reach_below g items f :
      reachable list_fn root g → list_fn (f_id g) = inr items → f ∈ items →
      reachable list_fn root f.

(** The listing describes a tree of finite depth: some measure decreases
    from every folder to each folder listed under it. *)
Definition finite_depth (list_fn : Z → listing) (rank : Z → nat) : Prop :=
  ∀ p items f, list_fn p = inr items → f ∈ items → (rank (f_id f) < rank p)%nat.

(** Folder ids are unique below [root]: two records with one id are one
    record. *)
Definition unique_ids (list_fn : Z → listing) (root : Z) : Prop :=
  ∀ f g, reachable list_fn root f → reachable list_fn root g →
         f_id f = f_id g → f = g.

(** ** Python string operations used by the tool *)

(** An ASCII digit. *)
Definition is_digit (c : ascii) : bool :=
  let n := nat_of_ascii c in (48 <=? n)%nat && (n <=? 57)%nat.

(** The payload of a continuation byte [10xxxxxx] of UTF-8. *)
Definition continuation (c : ascii) : option N :=
  let b := N_of_ascii c in
  if (128 <=? b)%N && (b <? 192)%N then Some (b - 128)%N else None.

(** The first character of a [str]: its code point, the bytes that encode
    it, and the rest of the string.  [None] for the empty string and for
    bytes that are not the UTF-8 of a code point (no [str] has them). *)
Definition decode_char (s : string) : option (N * string * string) :=
  match s with
  | "" => None
  | String c0 r0 =>
    let b0 := N_of_ascii c0 in
    if (b0 <? 128)%N then Some (b0, String c0 "", r0)
    else if (b0 <? 192)%N then None
    else if (b0 <? 224)%N then
      match r0 with
      | String c1 r1 =>
        match continuation c1 with
        | Some x1 =>
          let cp := ((b0 - 192) * 64 + x1)%N in
          if (128 <=? cp)%N then Some (cp, String c0 (String c1 ""), r1) else None
        | None => None
        end
      | _ => None
      end
    else if (b0 <? 240)%N then
      match r0 with
      | String c1 (String c2 r2) =>
        match continuation c1, continuation c2 with
        | Some x1, Some x2 =>
          let cp := ((b0 - 224) * 4096 + x1 * 64 + x2)%N in
          if (2048 <=? cp)%N
          then Some (cp, String c0 (String c1 (String c2 "")), r2) else None
        | _, _ => None
        end
      | _ => None
      end
    else if (b0 <? 248)%N then
      match r0 with
      | String c1 (String c2 (String c3 r3)) =>
        match continuation c1, continuation c2, continuation c3 with
        | Some x1, Some x2, Some x3 =>
          let cp := ((b0 - 240) * 262144 + x1 * 4096 + x2 * 64 + x3)%N in
          if (65536 <=? cp)%N && (cp <=? 1114111)%N
          then Some (cp, String c0 (String c1 (String c2 (String c3 ""))), r3)
          else None
        | _, _, _ => None
        end
      | _ => None
      end
    else None
  end.

(** [s[1:]]: the string without its first character. *)
Definition str_drop1 (s : string) : string :=
  match decode_char s with
  | Some (_, _, rest) => rest
  | None => match s with "" => "" | String _ r => r end
  end.

(** The decimal digits of Unicode (general category Nd), as ranges of code
    points: the table of version 14.0 of the character database, the one
    of CPython 3.11.  On a [str], [\d] matches exactly these. *)
Definition decimal_digit_ranges : list (N * N) :=
  [(48, 57); (1632, 1641); (1776, 1785); (1984, 1993); (2406, 2415);
   (2534, 2543); (2662, 2671); (2790, 2799); (2918, 2927); (3046, 3055);
   (3174, 3183); (3302, 3311); (3430, 3439); (3558, 3567); (3664, 3673);
   (3792, 3801); (3872, 3881); (4160, 4169); (4240, 4249); (6112, 6121);
   (6160, 6169); (6470, 6479); (6608, 6617); (6784, 6793); (6800, 6809);
   (6992, 7001); (7088, 7097); (7232, 7241); (7248, 7257); (42528, 42537);
   (43216, 43225); (43264, 43273); (43472, 43481); (43504, 43513);
   (43600, 43609); (44016, 44025); (65296, 65305); (66720, 66729);
   (68912, 68921); (69734, 69743); (69872, 69881); (69942, 69951);
   (70096, 70105); (70384, 70393); (70736, 70745); (70864, 70873);
   (71248, 71257); (71360, 71369); (71472, 71481); (71904, 71913);
   (72016, 72025); (72784, 72793); (73040, 73049); (73120, 73129);
   (92768, 92777); (92864, 92873); (93008, 93017); (120782, 120831);
   (123200, 123209); (123632, 123641); (125264, 125273); (130032, 130041)]%N.

Definition is_decimal (cp : N) : bool :=
  existsb (λ '(lo, hi), (lo <=? cp)%N && (cp <=? hi)%N) decimal_digit_ranges.

Fixpoint str_forallb (p : ascii → bool) (s : string) : bool :=
  match s with
  | "" => true
  | String c r => p c && str_forallb p r
  end.

(** [s.replace(old, new)] for one-character [old] and [new]. *)
Fixpoint str_replace (old new : ascii) (s : string) : string :=
  match s with
  | "" => ""
  | String c r => String (if Ascii.eqb c old then new else c) (str_replace old new r)
  end.

(** [s.split(sep)] for a one-character [sep]. *)
Fixpoint str_split (sep : ascii) (s : string) : list string :=
  match s with
  | "" => [""]
  | String c r =>
    if Ascii.eqb c sep then "" :: str_split sep r
    else match str_split sep r with
         | [] => [String c ""]
         | w :: ws => String c w :: ws
         end
  end.

(** [sep.join(parts)] *)
Fixpoint str_join (sep : string) (parts : list string) : string :=
  match parts with
  | [] => ""
  | [x] => x
  | x :: rest => x +:+ sep +:+ str_join sep rest
  end.

(** [s] starts with [n] decimal digits: the digits, and what follows. *)
Fixpoint leading_decimals (n : nat) (s : string) : option (string * string) :=
  match n with
  | O => Some ("", s)
  | S n' =>
    match decode_char s with
    | Some (cp, c, rest) =>
      if is_decimal cp then
        match leading_decimals n' rest with
        | Some (digits, rest') => Some (c +:+ digits, rest')
        | None => None
        end
      else None
    | None => None
    end
  end.

(** [re.match(r"^(\d{4})", s)]: the group, when the match succeeds. *)
Definition re_match_4_digits (s : string) : option string :=
  match leading_decimals 4 s with
  | Some (digits, _) => Some digits
  | None => None
  end.

(** [re.match(r"^(2\d)", s)]: the group, when the match succeeds. *)
Definition re_match_2_digit (s : string) : option string :=
  match s with
  | String "2" r =>
    match leading_decimals 1 r with
    | Some (digit, _) => Some ("2" +:+ digit)
    | None => None
    end
  | _ => None
  end.

(** ** Exceptions *)

Inductive errno := ENOENT | ENOTDIR | EEXIST | EISDIR | ELOOP.

Inductive exn :=
  | AssertionError (msg : string)
  | KeyError (key : string)
  (** [FileNotFoundError], [NotADirectoryError], [FileExistsError],
      [IsADirectoryError] and the plain [OSError] of [ELOOP] *)
  | OSError (e : errno)
  | SystemExit (code : Z)
  (** [OverflowError] or [ValueError] of [datetime.fromtimestamp] *)
  | DateRangeError
  (** a cache record that is not a pair of a [str] and an [int]:
      [ValueError], [TypeError] or [AssertionError], by its shape *)
  | RecordError
  (** an exception raised by the service client *)
  | RemoteError (msg : string)
  | JSONDecodeError.

#[global] Instance errno_eq_dec : EqDecision errno.
Proof. solve_decision. Defined.

(** ** [pathlib.PurePosixPath] *)

Record Path := MkPath {
  p_root : string;          (* [""], ["/"] or ["//"] *)
  p_parts : list string;    (* the components after the root *)
}.

(** [posixpath.splitroot], without the drive that POSIX does not have. *)
Definition splitroot (p : string) : string * string :=
  match p with
  | String "/" (String "/" (String "/" r)) => ("/", String "/" (String "/" r))
  | String "/" (String "/" r) => ("//", r)
  | String "/" r => ("/", r)
  | _ => ("", p)
  end.

Definition keep_part (x : string) : bool :=
  negb (String.eqb x "") && negb (String.eqb x ".").

(** [Path(s)] *)
Definition path_of (s : string) : Path :=
  let '(root, rel) := splitroot s in
  MkPath root (List.filter keep_part (str_split "/" rel)).

(** [p / key] *)
Definition truediv (p : Path) (key : string) : Path :=
  let q := path_of key in
  if String.eqb (p_root q) "" then MkPath (p_root p) (p_parts p ++ p_parts q)
  else q.

Infix "/:" := truediv (at level 40, left associativity).

(** [str(p)], which is also [os.fspath(p)] *)
Definition path_str (p : Path) : string :=
  match p_root p, p_parts p with
  | "", [] => "."
  | root, parts => root +:+ str_join "/" parts
  end.

(** [p.parent] *)
Definition path_parent (p : Path) : Path :=
  MkPath (p_root p) (removelast (p_parts p)).

(** ** [datetime] *)

Record datetime := { year : Z; month : Z; day : Z }.

(** The civil date of a day number counted from 1970-01-01, in the
    proleptic Gregorian calendar. *)
Definition days_to_civil (days : Z) : datetime :=
  let z := days + 719468 in
  let era := z / 146097 in
  let doe := z - era * 146097 in
  let yoe := (doe - doe / 1460 + doe / 36524 - doe / 146096) / 365 in
  let y := yoe + era * 400 in
  let doy := doe - (365 * yoe + yoe / 4 - yoe / 100) in
  let mp := (5 * doy + 2) / 153 in
  let d := doy - (153 * mp + 2) / 5 + 1 in
  let m := if mp <? 10 then mp + 3 else mp - 9 in
  {| year := if m <=? 2 then y + 1 else y; month := m; day := d |}.

(** The local date of the instant [t]; [utcoffset t] is the number of
    seconds local time is ahead of UTC at that instant. *)
Definition local_date (utcoffset : Z → Z) (t : Z) : datetime :=
  days_to_civil ((t + utcoffset t) / 86400).

(** [MINYEAR <= year <= MAXYEAR] *)
Definition year_in_range (d : datetime) : bool :=
  (1 <=? year d) && (year d <=? 9999).

Definition max_fold_seconds : Z := 24 * 3600.

(** [datetime.datetime.fromtimestamp(t)], without a time zone argument:
    the local date of the instant [t].  A year outside 1..9999 raises; so
    does one at the instant a day before, which the library converts as
    well to find out whether the local time is in a fold, and one at the
    instant it then probes when the offset went down within that day. *)
Definition fromtimestamp (utcoffset : Z → Z) (timestamp : Z) : exn + datetime :=
  let d := local_date utcoffset timestamp in
  if negb (year_in_range d) then inl DateRangeError
  else
    let probe := timestamp - max_fold_seconds in
    if negb (year_in_range (local_date utcoffset probe)) then inl DateRangeError
    else
      let transition :=
        (timestamp + utcoffset timestamp) - (probe + utcoffset probe)
        - max_fold_seconds in
      if (transition <? 0)
         && negb (year_in_range (local_date utcoffset (timestamp + transition)))
      then inl DateRangeError
      else inr d.

(** ** main.py: the year of an album *)

Definition get_album_year (utcoffset : Z → Z) (album_timestamp : Z)
    (album_name : string) : exn + string :=
  match fromtimestamp utcoffset album_timestamp with
  | inl e => inl e
  | inr album_date =>
    match re_match_4_digits album_name with
    | Some group1 => inr group1
    | None =>
      match re_match_2_digit album_name with
      | Some group1 => inr ("20" +:+ group1)
      | None => inr (str_int (year album_date))
      end
    end
  end.

(** The year resolution policy as the design notes word it: four leading
    digits, else any two leading digits prefixed with 20, else the local
    year of the creation time. *)
Definition year_policy_of_notes (utcoffset : Z → Z) (album_timestamp : Z)
    (album_name : string) : string :=
  match leading_decimals 4 album_name with
  | Some (digits, _) => digits
  | None =>
    match leading_decimals 2 album_name with
    | Some (digits, _) => "20" +:+ digits
    | None => str_int (year (local_date utcoffset album_timestamp))
    end
  end.

(** ** JSON documents of the shape the cache file has *)

#[warnings="-register-all"]
Inductive json : Type :=
  | JNum (z : Z)
  | JStr (s : string)
  | JArr (items : list json).

(** What [json.dump] writes for a value: tuples and lists both become
    arrays. *)
Fixpoint json_of_py (v : pyval) : json :=
  match v with
  | PyInt z => JNum z
  | PyStr s => JStr s
  | PyTuple items => JArr (map json_of_py items)
  | PyList items => JArr (map json_of_py items)
  end.

(** What [json.load] builds for a value: arrays become lists. *)
Fixpoint py_of_json (j : json) : pyval :=
  match j with
  | JNum z => PyInt z
  | JStr s => PyStr s
  | JArr items => PyList (map py_of_json items)
  end.

(** ** The file system *)

(** A regular file holds the JSON object its text denotes, of the shape
    the cache has, or ([None]) text that is not JSON at all, which
    [json.load] refuses: a photo is such a file.  A file whose text is JSON
    of another shape is not among the files of the model. *)
Inductive node :=
  | Dir
  | File (content : option (gmap string json))
  | Symlink (target : string).

(** Nodes by canonical absolute path, the list of components below the
    root directory; the root directory itself is not stored. *)
Abbreviation filesystem := (gmap (list string) node).

Inductive lookup_result :=
  | Found (where_ : list string) (n : node)
  (** no entry of that name in an existing directory *)
  | Missing (where_ : list string).

(** The path string a system call receives: whether it is absolute, and
    its components. *)
Definition os_path (s : string) : bool * list string :=
  (match s with String "/" _ => true | _ => false end, str_split "/" s).

(** Path resolution from the directory [cur], which exists.  [follow]
    says what to do with a symbolic link in the last component;
    [enter_link] continues the walk through the target of a link. *)
Fixpoint walk_components
    (enter_link : list string → string → list string → errno + lookup_result)
    (fs : filesystem) (follow : bool) (cur : list string) (comps : list string)
  : errno + lookup_result :=
  match comps with
  | [] => inr (Found cur Dir)
  | c :: rest =>
    if String.eqb c "" || String.eqb c "." then
      walk_components enter_link fs follow cur rest
    else if String.eqb c ".." then
      walk_components enter_link fs follow (removelast cur) rest
    else
      match fs !! (cur ++ [c]) with
      | None =>
        match rest with [] => inr (Missing (cur ++ [c])) | _ => inl ENOENT end
      | Some Dir => walk_components enter_link fs follow (cur ++ [c]) rest
      | Some (File content) =>
        match rest with
        | [] => inr (Found (cur ++ [c]) (File content))
        | _ => inl ENOTDIR
        end
      | Some (Symlink target) =>
        match rest, follow with
        | [], false => inr (Found (cur ++ [c]) (Symlink target))
        | _, _ => enter_link cur target rest
        end
      end
  end.

(** [links] is the number of symbolic links that may still be followed
    (the kernel gives up with [ELOOP]). *)
Fixpoint walk (links : nat) (fs : filesystem) (follow : bool)
    (cur : list string) (comps : list string) : errno + lookup_result :=
  walk_components
    (match links with
     | O => λ _ _ _, inl ELOOP
     | S links' => λ dir target rest,
       if String.eqb target "" then inl ENOENT
       else
         let '(absolute, tcomps) := os_path target in
         walk links' fs follow (if absolute then [] else dir) (tcomps ++ rest)
     end)
    fs follow cur comps.

Definition MAXSYMLINKS : nat := 40.

Definition resolve (fs : filesystem) (cwd : list string) (follow : bool)
    (path : string) : errno + lookup_result :=
  if String.eqb path "" then inl ENOENT
  else
    let '(absolute, comps) := os_path path in
    walk MAXSYMLINKS fs follow (if absolute then [] else cwd) comps.

(** ** The world a run acts on, and the monad of effects *)

Inductive out_line :=
  | Line (text : string)
  (** [f"Error creating symlink for {filename}: {e}"] *)
  | SymlinkErrorLine (filename : string) (e : errno).

Record world := World {
  w_fs : filesystem;
  w_cwd : list string;            (* the working directory, an existing directory *)
  w_utcoffset : Z → Z;            (* the local time zone *)
  w_out : list out_line;          (* what [print] and [tqdm.write] wrote *)
  w_symlinks : list (list string * string);
    (* ghost: the symbolic links created so far, place and target *)
}.

Definition M (A : Type) : Type := world → (exn + A) * world.

#[global] Instance M_ret : MRet M := λ A x w, (inr x, w).
#[global] Instance M_bind : MBind M := λ A B f m w,
  match m w with
  | (inl e, w') => (inl e, w')
  | (inr x, w') => f x w'
  end.

Definition raise {A} (e : exn) : M A := λ w, (inl e, w).

(** [try: body except ...: handler], the handler being [None] on the
    exceptions the clause does not name. *)
Definition try_except {A} (body : M A) (handler : exn → option (M A)) : M A :=
  λ w, match body w with
       | (inl e, w') =>
         match handler e with
         | Some h => h w'
         | None => (inl e, w')
         end
       | r => r
       end.

Definition except_OSError {A} (h : errno → M A) (e : exn) : option (M A) :=
  match e with OSError err => Some (h err) | _ => None end.

Definition lift {A} (r : exn + A) : M A := λ w, (r, w).

Definition py_assert (cond : bool) (msg : string) : M unit :=
  if cond then mret tt else raise (AssertionError msg).

Definition print (text : string) : M unit :=
  λ w, (inr tt, World (w_fs w) (w_cwd w) (w_utcoffset w) (w_out w ++ [Line text])
                      (w_symlinks w)).

Definition tqdm_write (l : out_line) : M unit :=
  λ w, (inr tt, World (w_fs w) (w_cwd w) (w_utcoffset w) (w_out w ++ [l])
                      (w_symlinks w)).

Definition set_fs (fs : filesystem) (w : world) : world :=
  World fs (w_cwd w) (w_utcoffset w) (w_out w) (w_symlinks w).

(** [for x in xs: body(x)] *)
Fixpoint for_each {A} (xs : list A) (body : A → M unit) : M unit :=
  match xs with
  | [] => mret tt
  | x :: rest => body x ;; for_each rest body
  end.

(** ** System calls *)

(** The calls answer by the state of the tree alone: a missing component,
    a component that is not a directory, an entry in the way, a loop of
    links.  The file system of the model sets no other limit: refusals for
    lack of permission or space, on a read-only or link-less file system,
    or of a name longer than [NAME_MAX], and the [ValueError] of a path
    with a NUL byte, are left out.  A statement that needs a call to
    succeed says so, or restricts the names. *)

Definition os_stat (path : string) : M node := λ w,
  match resolve (w_fs w) (w_cwd w) true path with
  | inl e => (inl (OSError e), w)
  | inr (Missing _) => (inl (OSError ENOENT), w)
  | inr (Found _ n) => (inr n, w)
  end.

Definition os_mkdir (path : string) : M unit := λ w,
  match resolve (w_fs w) (w_cwd w) false path with
  | inl e => (inl (OSError e), w)
  | inr (Found _ _) => (inl (OSError EEXIST), w)
  | inr (Missing place) => (inr tt, set_fs (<[place := Dir]> (w_fs w)) w)
  end.

Definition os_symlink (src dst : string) : M unit := λ w,
  if String.eqb src "" then (inl (OSError ENOENT), w)
  else
    match resolve (w_fs w) (w_cwd w) false dst with
    | inl e => (inl (OSError e), w)
    | inr (Found _ _) => (inl (OSError EEXIST), w)
    | inr (Missing place) =>
      (inr tt, World (<[place := Symlink src]> (w_fs w)) (w_cwd w) (w_utcoffset w)
                     (w_out w) (w_symlinks w ++ [(place, src)]))
    end.

Definition os_unlink (path : string) : M unit := λ w,
  match resolve (w_fs w) (w_cwd w) false path with
  | inl e => (inl (OSError e), w)
  | inr (Missing _) => (inl (OSError ENOENT), w)
  | inr (Found _ Dir) => (inl (OSError EISDIR), w)
  | inr (Found place _) => (inr tt, set_fs (delete place (w_fs w)) w)
  end.

(** [open(path, "w")] followed by writing a JSON object and closing. *)
Definition write_json_file (path : string) (doc : gmap string json) : M unit := λ w,
  match resolve (w_fs w) (w_cwd w) true path with
  | inl e => (inl (OSError e), w)
  | inr (Found _ Dir) => (inl (OSError EISDIR), w)
  | inr (Found _ (Symlink _)) => (inl (OSError ELOOP), w)
  | inr (Found place (File _)) | inr (Missing place) =>
    (inr tt, set_fs (<[place := File (Some doc)]> (w_fs w)) w)
  end.

(** [open(path, "r")] followed by [json.load]. *)
Definition read_json_file (path : string) : M (gmap string json) := λ w,
  match resolve (w_fs w) (w_cwd w) true path with
  | inl e => (inl (OSError e), w)
  | inr (Missing _) => (inl (OSError ENOENT), w)
  | inr (Found _ Dir) => (inl (OSError EISDIR), w)
  | inr (Found _ (Symlink _)) => (inl (OSError ELOOP), w)
  | inr (Found _ (File None)) => (inl JSONDecodeError, w)
  | inr (Found _ (File (Some doc))) => (inr doc, w)
  end.

(** ** [pathlib.Path] methods *)

(** [p.exists()] *)
Definition path_exists (p : Path) : M bool :=
  try_except (os_stat (path_str p) ;; mret true) (except_OSError (λ _, mret false)).

(** [p.is_dir()] *)
Definition path_is_dir (p : Path) : M bool :=
  try_except (n ← os_stat (path_str p);
              mret (match n with Dir => true | _ => false end))
             (except_OSError (λ _, mret false)).

(** [p.unlink()] *)
Definition path_unlink (p : Path) : M unit := os_unlink (path_str p).

(** [p.mkdir(parents=False, exist_ok=True)] *)
Definition path_mkdir_exist_ok (p : Path) : M unit :=
  try_except (os_mkdir (path_str p))
    (λ e, match e with
          | OSError ENOENT => None
          | OSError err =>
            Some (d ← path_is_dir p; if d : bool then mret tt else raise (OSError err))
          | _ => None
          end).

(** [p.mkdir(parents=True, exist_ok=True)], for the path with root [root]
    and the components [rev rparts]: the recursion of the library goes to
    the parent, which drops the head of [rparts]. *)
Fixpoint path_mkdir_parents (root : string) (rparts : list string) : M unit :=
  let p := MkPath root (rev rparts) in
  try_except (os_mkdir (path_str p))
    (λ e, match e with
          | OSError ENOENT =>
            match rparts with
            | [] => None
            | _ :: rparent =>
              Some (path_mkdir_parents root rparent ;; path_mkdir_exist_ok p)
            end
          | OSError err =>
            Some (d ← path_is_dir p; if d : bool then mret tt else raise (OSError err))
          | _ => None
          end).

Definition path_mkdir (p : Path) : M unit :=
  path_mkdir_parents (p_root p) (rev (p_parts p)).

(** ** The configuration module *)

Record config := {
  PHOTO_ROOTS : gmap Z string;
  CACHE_FILE : string;
}.

Definition newline : string := String (ascii_of_nat 10) "".

Definition emit (lines : list out_line) (w : world) : world :=
  World (w_fs w) (w_cwd w) (w_utcoffset w) (w_out w ++ lines) (w_symlinks w).

(** ** cache.py: writing and reading the cache *)

(** The loop of [cache_folders] over the clients.  The first listing of
    the root, which sizes the progress bar of the personal tree, is outside
    any [try]; the one for the shared tree is guarded. *)
Fixpoint collect_all (fuel : nat) (photos_clients : list CustomPhotos)
    (all_folders : gmap string pyval) (w : world)
  : option ((exn + gmap string pyval) * world) :=
  match photos_clients with
  | [] => Some (inr all_folders, w)
  | photos :: rest =>
    let w := emit [Line (newline +:+ "Collecting folders for user "
                           +:+ get_userinfo_name photos +:+ "...");
                   Line "Collecting personal folders..."] w in
    match list_folders photos 0 with
    | inl error => Some (inl (RemoteError error), w)
    | inr _ =>
      '(folders, log) ← collect_folders_recursive fuel photos 0 false;
      let w := emit (Line <$> log) w in
      let all_folders := dict_update all_folders folders in
      let w := emit [Line "Collecting shared folders..."] w in
      '(folders_shared, log_shared) ← collect_folders_recursive fuel photos 0 true;
      let w := emit (Line <$> log_shared) w in
      collect_all fuel rest (dict_update all_folders folders_shared) w
    end
  end.

(** The end of [cache_folders]: the dict goes to the cache file as one
    JSON object. *)
Definition dump_folders (cfg : config) (all_folders : gmap string pyval) : M unit :=
  print (newline +:+ "Writing cache file... ("
           +:+ pretty (size all_folders) +:+ " total folders)") ;;
  write_json_file (CACHE_FILE cfg) (json_of_py <$> all_folders) ;;
  print "âœ“ Folder information cached successfully".

Definition cache_folders (fuel : nat) (photos_clients : list CustomPhotos)
    (cfg : config) (w : world) : option ((exn + unit) * world) :=
  r ← collect_all fuel photos_clients ∅ w;
  match r with
  | (inl e, w') => Some (inl e, w')
  | (inr all_folders, w') => Some (dump_folders cfg all_folders w')
  end.

Definition load_cached_folders (cfg : config) : M (gmap string pyval) :=
  try_except
    (folders ← read_json_file (CACHE_FILE cfg); mret (py_of_json <$> folders))
    (λ e, match e with
          | OSError ENOENT =>
            Some (print "Cache file not found. Please run with --cache-folders first" ;;
                  raise (SystemExit 1))
          | _ => None
          end).

(** ** main.py: the link builder *)

(** [folder_name, owner_id = record], for a record that holds a [str] and
    an [int]; the tuple the collector built and the list [json.load]
    returns unpack alike. *)
Definition unpack_record (record : pyval) : option (string * Z) :=
  match record with
  | PyTuple [PyStr folder_name; PyInt owner_id]
  | PyList [PyStr folder_name; PyInt owner_id] => Some (folder_name, owner_id)
  | _ => None
  end.

Definition folder_missing_msg (folder_id : string) (img : image) (alb : album) : string :=
  "Folder ID " +:+ folder_id +:+ " not found for " +:+ i_filename img
    +:+ " in " +:+ a_name alb.

Definition no_root_msg (owner_id : Z) (img : image) (alb : album) : string :=
  "No photo root configured for owner ID " +:+ str_int owner_id +:+ " in "
    +:+ a_name alb +:+ " of " +:+ i_filename img.

Definition owner_mismatch_msg (image_owner_id owner_id : Z) (img : image)
    (alb : album) : string :=
  "Image owner ID " +:+ str_int image_owner_id +:+ " does not match owner ID "
    +:+ str_int owner_id +:+ " in " +:+ a_name alb +:+ " of " +:+ i_filename img.

(** Lines 111-121: the link [albums/users/<owner>] to the photo root of
    the owner of the image. *)
Definition ensure_owner_link (root : string) (img : image) : M unit :=
  let owner_path := path_of root in
  let owner_link_path := path_of "albums" /: "users" /: str_int (i_owner_user_id img) in
  path_mkdir (path_parent owner_link_path) ;;
  try_except
    (present ← path_exists owner_link_path;
     if present : bool then mret tt
     else os_symlink (path_str owner_path) (path_str owner_link_path))
    (except_OSError (λ e, tqdm_write (SymlinkErrorLine (i_filename img) e))).

(** Lines 135-139: [try: link_path.unlink() except: pass]. *)
Definition remove_existing_link (link_path : Path) : M unit :=
  try_except (path_unlink link_path) (λ _, Some (mret tt)).

(** Lines 141-145: the link of the image itself. *)
Definition create_item_link (img : image) (source_path link_path : Path) : M unit :=
  try_except
    (present ← path_exists link_path;
     if present : bool then mret tt
     else os_symlink (path_str source_path) (path_str link_path))
    (except_OSError (λ e, tqdm_write (SymlinkErrorLine (i_filename img) e))).

Definition item_source_path (folder_name : string) (img : image) : Path :=
  path_of "../../" /: "users" /: str_int (i_owner_user_id img)
    /: str_drop1 folder_name /: i_filename img.

(** The body of the loop over the images of one album.  Assertions are
    checked, as they are unless the interpreter runs with [-O]. *)
Definition link_image (cfg : config) (all_folders : gmap string pyval)
    (alb : album) (album_path : Path) (img : image) : M unit :=
  let folder_id := str_int (i_folder_id img) in
  py_assert (bool_decide (is_Some (all_folders !! folder_id)))
            (folder_missing_msg folder_id img alb) ;;
  let image_owner_id := i_owner_user_id img in
  root ← match PHOTO_ROOTS cfg !! image_owner_id with
         | Some root => mret root
         | None => raise (KeyError (str_int image_owner_id))
         end;
  ensure_owner_link root img ;;
  '(folder_name, owner_id) ←
     match all_folders !! folder_id with
     | None => raise (KeyError folder_id)
     | Some record =>
       match unpack_record record with
       | Some r => mret r
       | None => raise RecordError
       end
     end;
  py_assert (bool_decide (is_Some (PHOTO_ROOTS cfg !! owner_id)))
            (no_root_msg owner_id img alb) ;;
  let source_path := item_source_path folder_name img in
  let link_path := album_path /: i_filename img in
  py_assert (bool_decide (image_owner_id = owner_id))
            (owner_mismatch_msg image_owner_id owner_id img alb) ;;
  remove_existing_link link_path ;;
  create_item_link img source_path link_path.

Definition album_dir (year : string) (alb : album) : Path :=
  path_of "albums" /: year /: str_replace "/" "_" (a_name alb).

(** The body of the loop over the albums. *)
Definition link_album (photos : CustomPhotos) (cfg : config)
    (all_folders : gmap string pyval) (alb : album) : M unit :=
  year ← (λ w, (get_album_year (w_utcoffset w) (a_create_time alb) (a_name alb), w));
  let album_path := album_dir year alb in
  path_mkdir album_path ;;
  let images := list_item_in_albums photos (a_id alb) in
  for_each images (link_image cfg all_folders alb album_path).

(** The loop over the albums, for the cache already loaded. *)
Definition link_albums (photos : CustomPhotos) (cfg : config)
    (all_folders : gmap string pyval) : M unit :=
  for_each (list_albums photos) (link_album photos cfg all_folders).

Definition create_album_links (photos : CustomPhotos) (cfg : config) : M unit :=
  all_folders ← load_cached_folders cfg;
  print ("Processing " +:+ pretty (length (list_albums photos)) +:+ " albums...") ;;
  link_albums photos cfg all_folders ;;
  print (newline +:+ "✓ Album linking completed").

(** * Properties *)

(** ** The folder collector *)

Section collector.
Context (photos : CustomPhotos) (is_shared : bool).
Local Abbreviation list_fn := (list_fn_of photos is_shared).

Lemma reachable_inv root f :
  reachable list_fn root f →
  ∃ items, list_fn root = inr items ∧
           (f ∈ items ∨ ∃ c, c ∈ items ∧ reachable list_fn (f_id c) f).
Proof.
  induction 1 as [items f Hl Hin | g items f Hg IH Hl Hin].
  - eauto.
  - destruct IH as (items0 & Hl0 & [Hg0 | (c & Hc & Hcg)]); exists items0.
    + split; [done|]. right. exists g. split; [done|].
      by eapply reach_child.
    + split; [done|]. right. exists c. split; [done|].
      by eapply reach_below.
Qed.

Lemma reachable_via_child root items c f :
  list_fn root = inr items → c ∈ items →
  reachable list_fn (f_id c) f → reachable list_fn root f.
Proof.
  intros Hl Hc. induction 1 as [items' f Hl' Hin | g items' f Hg IH Hl' Hin].
  - eapply reach_below; [by eapply reach_child | done..].
  - by eapply reach_below.
Qed.

Lemma add_level_lookup folders items k v :
  add_level folders items !! k = Some v →
  folders !! k = Some v ∨
  ∃ f, f ∈ items ∧ k = str_int (f_id f) ∧ v = folder_entry f.
Proof.
  revert folders. induction items as [|f items IH]; intros folders; simpl.
  - auto.
  - intros [Hk | (g & Hg & -> & ->)]%IH.
    + destruct (decide (str_int (f_id f) = k)) as [<- | Hne].
      * rewrite lookup_insert_eq in Hk. injection Hk as <-.
        right. exists f. split; [left|done].
      * rewrite lookup_insert_ne in Hk by done. by left.
    + right. exists g. split; [by right|done].
Qed.

Lemma add_level_dom folders items k :
  k ∈ dom (add_level folders items) ↔
  k ∈ dom folders ∨ ∃ f, f ∈ items ∧ k = str_int (f_id f).
Proof.
  revert folders. induction items as [|f items IH]; intros folders; simpl.
  - split; [auto|]. intros [?|(f & Hf & _)]; [done|]. by apply elem_of_nil in Hf.
  - rewrite IH, dom_insert_L, elem_of_union, elem_of_singleton. split.
    + intros [[-> | ?] | (g & Hg & ->)].
      * right. exists f. split; [left|done].
      * by left.
      * right. exists g. split; [by right|done].
    + intros [? | (g & [-> | Hg]%elem_of_cons & ->)].
      * left. by right.
      * left. by left.
      * right. by exists g.
Qed.

Lemma combine_results_lookup folders results k v :
  combine_results folders results !! k = Some v →
  folders !! k = Some v ∨ ∃ r, r ∈ results ∧ r !! k = Some v.
Proof.
  revert folders. induction results as [|r results IH]; intros folders; simpl.
  - auto.
  - intros [Hk | (r' & Hr' & Hk)]%IH.
    + unfold dict_update in Hk. apply lookup_union_Some_raw in Hk as [Hk | [_ Hk]].
      * right. exists r. split; [left|done].
      * by left.
    + right. exists r'. split; [by right|done].
Qed.

Lemma combine_results_dom folders results k :
  k ∈ dom (combine_results folders results) ↔
  k ∈ dom folders ∨ ∃ r, r ∈ results ∧ k ∈ dom r.
Proof.
  revert folders. induction results as [|r results IH]; intros folders; simpl.
  - split; [auto|]. intros [?|(r & Hr & _)]; [done|]. by apply elem_of_nil in Hr.
  - rewrite IH. unfold dict_update. rewrite dom_union_L, elem_of_union. split.
    + intros [[? | ?] | (r' & Hr' & ?)].
      * right. exists r. split; [left|done].
      * by left.
      * right. exists r'. split; [by right|done].
    + intros [? | (r' & [-> | Hr']%elem_of_cons & ?)].
      * left. by right.
      * left. by left.
      * right. by exists r'.
Qed.

(** The early return on an empty listing agrees with the general path. *)
Lemma collect_unfold sched fuel root :
  (∀ l, sched l ≡ₚ l) →
  collect_folders_sched sched (S fuel) photos root is_shared =
  match list_fn root with
  | inl error => Some (∅, [fetch_error_line is_shared root error])
  | inr items =>
    results ← mapM (λ fid, collect_folders_sched sched fuel photos fid is_shared)
                   (sched (map f_id items));
    Some (combine_results (add_level ∅ items) (fst <$> results),
          concat (snd <$> results))
  end.
Proof.
  intros Hsched. simpl. destruct (list_fn root) as [error | [|f items]]; [done| |done].
  simpl. specialize (Hsched []). apply Permutation_nil_r in Hsched. by rewrite Hsched.
Qed.

(** What one call returns, for any visiting order: every entry is the
    record of a reachable folder, and every reachable folder has an
    entry. *)
Lemma collect_sound_complete sched rank :
  finite_depth list_fn rank → (∀ l, sched l ≡ₚ l) →
  ∀ fuel root, (rank root < fuel)%nat →
  ∃ m log, collect_folders_sched sched fuel photos root is_shared = Some (m, log) ∧
    (∀ k v, m !! k = Some v →
       ∃ f, reachable list_fn root f ∧ k = str_int (f_id f) ∧ v = folder_entry f) ∧
    (∀ f, reachable list_fn root f → str_int (f_id f) ∈ dom m).
Proof.
  intros Hrank Hsched fuel. induction fuel as [|fuel IH]; intros root Hlt; [lia|].
  rewrite collect_unfold by done. destruct (list_fn root) as [error | items] eqn:Hl.
  { eexists _, _. split; [done|]. split.
    - intros k v Hk. by rewrite lookup_empty in Hk.
    - intros f (items' & Hl' & _)%reachable_inv. congruence. }
  assert (Hall : ∀ fid, fid ∈ sched (map f_id items) →
            ∃ c, c ∈ items ∧ fid = f_id c).
  { intros fid Hfid. rewrite Hsched in Hfid.
    apply list_elem_of_fmap in Hfid as (c & -> & Hc). eauto. }
  assert (Hres : ∃ results,
    mapM (λ fid, collect_folders_sched sched fuel photos fid is_shared)
         (sched (map f_id items)) = Some results ∧
    Forall2 (λ fid r, collect_folders_sched sched fuel photos fid is_shared = Some r)
            (sched (map f_id items)) results).
  { induction (sched (map f_id items)) as [|fid fids IHf].
    - exists []. split; [done | constructor].
    - destruct (Hall fid) as (c & Hc & ->); [left|].
      destruct (IH (f_id c)) as (m & log & Hm & _).
      { specialize (Hrank root items c Hl Hc). lia. }
      destruct IHf as (rs & Hrs & HF).
      { intros fid' Hfid'. apply Hall. by right. }
      exists ((m, log) :: rs). split.
      + simpl. rewrite Hm. simpl. rewrite Hrs. done.
      + by constructor. }
  destruct Hres as (results & -> & HF). simpl.
  eexists _, _. split; [done|]. split.
  - intros k v [Hk | (r & Hr & Hk)]%combine_results_lookup.
    + apply add_level_lookup in Hk as [Hk | (f & Hf & -> & ->)].
      { by rewrite lookup_empty in Hk. }
      exists f. split; [by eapply reach_child | done].
    + apply list_elem_of_fmap in Hr as ([m log] & -> & Hr). simpl in Hk.
      apply list_elem_of_lookup in Hr as [i Hi].
      destruct (Forall2_lookup_r _ _ _ _ _ HF Hi) as (fid & Hfid & Hcall).
      destruct (Hall fid) as (c & Hc & ->).
      { apply list_elem_of_lookup. eauto. }
      destruct (IH (f_id c)) as (m' & log' & Hm' & Hsound & _).
      { specialize (Hrank root items c Hl Hc). lia. }
      rewrite Hcall in Hm'. injection Hm' as <- <-.
      destruct (Hsound k v Hk) as (f & Hf & -> & ->).
      exists f. split; [|done]. by eapply reachable_via_child.
  - intros f (items' & Hl' & Hf)%reachable_inv.
    assert (items' = items) as -> by congruence.
    apply combine_results_dom. destruct Hf as [Hf | (c & Hc & Hf)].
    + left. apply add_level_dom. right. eauto.
    + right. assert (Hcs : f_id c ∈ sched (map f_id items)).
      { rewrite Hsched. apply list_elem_of_fmap. eauto. }
      apply list_elem_of_lookup in Hcs as [i Hi].
      destruct (Forall2_lookup_l _ _ _ _ _ HF Hi) as ([m log] & Hr & Hcall).
      exists m. split.
      { apply list_elem_of_fmap. exists (m, log). split; [done|].
        apply list_elem_of_lookup. eauto. }
      destruct (IH (f_id c)) as (m' & log' & Hm' & _ & Hcomplete).
      { specialize (Hrank root items c Hl Hc). lia. }
      rewrite Hcall in Hm'. injection Hm' as <- <-. by apply Hcomplete.
Qed.

Lemma collect_results sched fuel root items m log :
  (∀ l, sched l ≡ₚ l) → list_fn root = inr items →
  collect_folders_sched sched (S fuel) photos root is_shared = Some (m, log) →
  ∃ results,
    Forall2 (λ fid r, collect_folders_sched sched fuel photos fid is_shared = Some r)
            (sched (map f_id items)) results ∧
    m = combine_results (add_level ∅ items) (fst <$> results) ∧
    log = concat (snd <$> results).
Proof.
  intros Hsched Hl. rewrite collect_unfold, Hl by done.
  destruct (mapM _ _) as [results|] eqn:Hres; [|done].
  simpl. intros [= <- <-]. exists results. split; [|done].
  by apply mapM_Some in Hres.
Qed.

(** With unique ids the entry stored under a reachable id is the record of
    that very folder. *)
Lemma collect_value sched rank fuel root m log f :
  finite_depth list_fn rank → (∀ l, sched l ≡ₚ l) → unique_ids list_fn root →
  (rank root < fuel)%nat →
  collect_folders_sched sched fuel photos root is_shared = Some (m, log) →
  reachable list_fn root f →
  m !! str_int (f_id f) = Some (folder_entry f).
Proof.
  intros Hrank Hsched Huniq Hlt Hm Hf.
  destruct (collect_sound_complete sched rank Hrank Hsched fuel root Hlt)
    as (m' & log' & Hm' & Hsound & Hcomplete).
  rewrite Hm in Hm'. injection Hm' as <- <-.
  destruct (proj1 (elem_of_dom _ _) (Hcomplete f Hf)) as [v Hv].
  destruct (Hsound _ _ Hv) as (g & Hg & Hkey & ->).
  unfold str_int in Hkey. apply (inj pretty) in Hkey.
  by rewrite <- (Huniq f g Hf Hg Hkey) in Hv.
Qed.
End collector.

(** The listing of the personal tree served by the test double of
    [tests/test_photos.py]. *)
Definition mock_list_folders (folder_id : Z) : listing :=
  if (folder_id =? 0)%Z then
    inr [Folder 1 "/Photos" 0; Folder 2 "/Photos/2023" 0]
  else if (folder_id =? 1)%Z then
    inr [Folder 5 "/Photos/SubFolder" 0]
  else inr [].

Definition mock_photos : CustomPhotos := {|
  list_folders := mock_list_folders;
  list_teams_folders := λ _, inl "API Error";
  list_albums := [Album 1 "2023 Summer" 0 1672531200];
  list_item_in_albums := λ _, [Image "photo1.jpg" 2 0];
  get_userinfo_name := "test_user";
|}.

Definition mock_rank (folder_id : Z) : nat :=
  if (folder_id =? 0)%Z then 2%nat else if (folder_id =? 1)%Z then 1%nat else 0%nat.

Lemma mock_finite_depth : finite_depth (list_fn_of mock_photos false) mock_rank.
Proof.
  intros p items f. unfold list_fn_of, mock_rank; simpl. unfold mock_list_folders.
  destruct (p =? 0)%Z eqn:H0; [|destruct (p =? 1)%Z eqn:H1].
  - intros [= <-] Hf.
    repeat (apply elem_of_cons in Hf as [-> | Hf]; [simpl; lia|]).
    by apply elem_of_nil in Hf.
  - intros [= <-] Hf.
    repeat (apply elem_of_cons in Hf as [-> | Hf]; [simpl; lia|]).
    by apply elem_of_nil in Hf.
  - intros [= <-] Hf. by apply elem_of_nil in Hf.
Qed.

Lemma mock_reachable f :
  reachable (list_fn_of mock_photos false) 0 f →
  f ∈ [Folder 1 "/Photos" 0; Folder 2 "/Photos/2023" 0; Folder 5 "/Photos/SubFolder" 0].
Proof.
  induction 1 as [items f Hl Hf | g items f Hg IH Hl Hf].
  - injection Hl as <-. set_solver.
  - unfold list_fn_of in Hl; simpl in Hl.
    repeat (apply elem_of_cons in IH as [-> | IH];
            [injection Hl as <-; set_solver|]).
    by apply elem_of_nil in IH.
Qed.

Lemma mock_unique_ids : unique_ids (list_fn_of mock_photos false) 0.
Proof.
  intros f g Hf%mock_reachable Hg%mock_reachable.
  repeat (apply elem_of_cons in Hf as [-> | Hf]);
    repeat (apply elem_of_cons in Hg as [-> | Hg]);
    try (by apply elem_of_nil in Hf); try (by apply elem_of_nil in Hg);
    simpl; intros; done || lia.
Qed.

(** C1: for a listing that describes a tree (finite depth, unique ids), the
    collector returns, given enough fuel, a mapping whose keys are exactly
    the string forms of the ids reachable from the root by repeated
    listing, each mapped to the [(name, owner id)] tuple of its folder; and
    visiting and merging the children of every level in any other order
    gives the same mapping. *)
Theorem collect_folders_recursive_reachable
    (photos : CustomPhotos) (is_shared : bool) (root : Z)
    (rank : Z → nat) (fuel : nat) :
  finite_depth (list_fn_of photos is_shared) rank →
  unique_ids (list_fn_of photos is_shared) root →
  (rank root < fuel)%nat →
  ∃ m log,
    collect_folders_recursive fuel photos root is_shared = Some (m, log) ∧
    (∀ k, k ∈ dom m ↔
          ∃ f, reachable (list_fn_of photos is_shared) root f ∧ k = str_int (f_id f)) ∧
    (∀ f, reachable (list_fn_of photos is_shared) root f →
          m !! str_int (f_id f) = Some (PyTuple [PyStr (f_name f); PyInt (f_owner_user_id f)])) ∧
    (∀ sched, (∀ l, sched l ≡ₚ l) →
          ∃ log', collect_folders_sched sched fuel photos root is_shared = Some (m, log')).
Proof.
  intros Hrank Huniq Hlt.
  assert (Hid : ∀ l : list Z, (λ folder_ids : list Z, folder_ids) l ≡ₚ l) by done.
  destruct (collect_sound_complete photos is_shared _ rank Hrank Hid fuel root Hlt)
    as (m & log & Hm & Hsound & Hcomplete).
  exists m, log. split; [done|]. split; [|split].
  - intros k. split.
    + intros [v Hv]%elem_of_dom. destruct (Hsound _ _ Hv) as (f & ? & ? & _). eauto.
    + intros (f & Hf & ->). by apply Hcomplete.
  - intros f Hf.
    exact (collect_value photos is_shared _ rank fuel root m log f Hrank Hid Huniq Hlt Hm Hf).
  - intros sched Hsched.
    destruct (collect_sound_complete photos is_shared _ rank Hrank Hsched fuel root Hlt)
      as (m' & log' & Hm' & Hsound' & Hcomplete').
    exists log'. rewrite Hm'. do 2 f_equal. apply map_eq. intros k.
    destruct (m' !! k) as [v|] eqn:Hk.
    + destruct (Hsound' _ _ Hk) as (f & Hf & -> & ->).
      symmetry.
      exact (collect_value photos is_shared _ rank fuel root m log f Hrank Hid Huniq Hlt Hm Hf).
    + destruct (m !! k) as [v|] eqn:Hk'; [|done].
      destruct (Hsound _ _ Hk') as (f & Hf & -> & ->).
      apply Hcomplete', elem_of_dom in Hf as [? ?]. congruence.
Qed.

Lemma collect_folders_recursive_reachable_witness :
  ∃ m log,
    collect_folders_recursive 3 mock_photos 0 false = Some (m, log) ∧
    (∀ k, k ∈ dom m ↔
          ∃ f, reachable (list_fn_of mock_photos false) 0 f ∧ k = str_int (f_id f)) ∧
    (∀ f, reachable (list_fn_of mock_photos false) 0 f →
          m !! str_int (f_id f) = Some (PyTuple [PyStr (f_name f); PyInt (f_owner_user_id f)])) ∧
    (∀ sched, (∀ l, sched l ≡ₚ l) →
          ∃ log', collect_folders_sched sched 3 mock_photos 0 false = Some (m, log')).
Proof.
  apply (collect_folders_recursive_reachable mock_photos false 0 mock_rank 3).
  - exact mock_finite_depth.
  - exact mock_unique_ids.
  - unfold mock_rank. simpl. lia.
Defined.

(** The run of the repository's own test: three folders are collected. *)
Example collect_mock_tree :
  collect_folders_recursive 3 mock_photos 0 false =
  Some ({[ "1" := PyTuple [PyStr "/Photos"; PyInt 0];
           "2" := PyTuple [PyStr "/Photos/2023"; PyInt 0];
           "5" := PyTuple [PyStr "/Photos/SubFolder"; PyInt 0] ]}, []).
Proof. vm_compute. reflexivity. Qed.

(** ** The year of an album *)

(** ** Characters and decimal digits *)

Lemma str_app_assoc (a b c : string) : (a +:+ b) +:+ c = a +:+ b +:+ c.
Proof.
  induction a as [|x a IH]; [done|].
  change (String x ((a +:+ b) +:+ c) = String x (a +:+ b +:+ c)). by rewrite IH.
Qed.

(** A character that is decoded is the head of the string. *)
Lemma decode_char_app s cp c rest :
  decode_char s = Some (cp, c, rest) → s = c +:+ rest ∧ c ≠ "".
Proof.
  unfold decode_char. intros H. repeat case_match; by simplify_eq.
Qed.

(** On one byte below 128 the character is the byte. *)
Lemma decode_char_ascii c r :
  (N_of_ascii c <? 128)%N = true →
  decode_char (String c r) = Some (N_of_ascii c, String c "", r).
Proof. intros H. unfold decode_char. by rewrite H. Qed.

(** Below 128 the decimal digits are the ten ASCII digits. *)
Lemma is_decimal_ascii c :
  (N_of_ascii c <? 128)%N = true → is_decimal (N_of_ascii c) = is_digit c.
Proof. destruct c as [[] [] [] [] [] [] [] []]; vm_compute; congruence. Qed.

Lemma leading_decimals_app n s digits rest :
  leading_decimals n s = Some (digits, rest) → s = digits +:+ rest.
Proof.
  revert s digits. induction n as [|n IH]; intros s digits; simpl.
  { by intros [= <- <-]. }
  destruct (decode_char s) as [[[cp c] r]|] eqn:Hc; [|done].
  destruct (is_decimal cp); [|done].
  destruct (leading_decimals n r) as [[g r']|] eqn:Hg; [|done].
  intros [= <- <-]. apply decode_char_app in Hc as [-> _]. apply IH in Hg as ->.
  by rewrite str_app_assoc.
Qed.

(** C3, as the code has it.  The creation time is converted first, so a
    time that [fromtimestamp] refuses raises whatever the name is.  For a
    creation time that converts: when the name starts with four decimal
    digits, of any script, they are the year; else, when it starts with
    the character 2 and a decimal digit, the year is 20 and those two
    characters; else it is the local year of the creation time.  Among
    the characters of ASCII the decimal digits are 0 to 9, so the second
    rule gives the years 2020 to 2029 there.  The three examples of the
    notes come out as stated. *)
Theorem get_album_year_policy (utcoffset : Z → Z) (album_timestamp : Z)
    (album_name : string) (album_date : datetime) :
  fromtimestamp utcoffset album_timestamp = inr album_date →
  (∀ digits rest, leading_decimals 4 album_name = Some (digits, rest) →
     album_name = digits +:+ rest ∧
     get_album_year utcoffset album_timestamp album_name = inr digits) ∧
  (leading_decimals 4 album_name = None →
   ∀ name digit rest, album_name = String "2" name →
     leading_decimals 1 name = Some (digit, rest) →
     get_album_year utcoffset album_timestamp album_name
     = inr ("20" +:+ String "2" digit)) ∧
  (leading_decimals 4 album_name = None →
   (∀ name, album_name = String "2" name → leading_decimals 1 name = None) →
     get_album_year utcoffset album_timestamp album_name
     = inr (str_int (year album_date))) ∧
  album_date = local_date utcoffset album_timestamp ∧
  (∀ c r, (N_of_ascii c <? 128)%N = true →
     leading_decimals 1 (String c r)
     = if is_digit c then Some (String c "", r) else None) ∧
  get_album_year utcoffset album_timestamp "2023 Summer" = inr "2023" ∧
  get_album_year utcoffset album_timestamp "23 Trip" = inr "2023" ∧
  (year album_date = 2021 →
     get_album_year utcoffset album_timestamp "Vacation" = inr "2021") ∧
  get_album_year utcoffset album_timestamp "２０２３ Summer" = inr "２０２３" ∧
  get_album_year utcoffset album_timestamp "2٣ Trip" = inr "202٣".
Proof.
  intros Hdate. unfold get_album_year. rewrite Hdate. unfold re_match_4_digits.
  split; [|split; [|split; [|split; [|split]]]].
  - intros digits rest H4. rewrite H4. split; [|done].
    by apply (leading_decimals_app 4).
  - intros H4 name digit rest -> H1. rewrite H4. unfold re_match_2_digit.
    by rewrite H1.
  - intros H4 Hnot. rewrite H4. unfold re_match_2_digit.
    destruct album_name as [|c name]; [done|].
    destruct (Ascii.eqb_spec c "2") as [-> | Hc].
    + by rewrite (Hnot name eq_refl).
    + destruct c as [[] [] [] [] [] [] [] []]; done.
  - unfold fromtimestamp in Hdate. repeat case_match; by simplify_eq.
  - intros c r Hc. cbn [leading_decimals].
    rewrite decode_char_ascii, is_decimal_ascii by done.
    by destruct (is_digit c).
  - repeat split; try (vm_compute; reflexivity).
    intros Hy.
    change (inr (str_int (year album_date)) = (inr "2021" : exn + string)).
    by rewrite Hy.
Qed.

Lemma get_album_year_policy_witness :
  get_album_year (λ _, 0) 1622505600 "Vacation" = inr "2021".
Proof.
  apply (get_album_year_policy (λ _, 0) 1622505600 "Vacation"
           {| year := 2021; month := 6; day := 1 |}); reflexivity.
Defined.

(** C3 as worded fails: a name with two leading digits that do not start
    with 2 falls through to the creation time. *)
Lemma year_two_digit_rule_counterexample :
  get_album_year (λ _, 0) 1622505600 "19 Trip" = inr "2021" ∧
  year_policy_of_notes (λ _, 0) 1622505600 "19 Trip" = "2019".
Proof. split; reflexivity. Qed.

(** The first day of the year 1 is refused: the day before it, which the
    conversion looks at too, has no year. *)
Example fromtimestamp_first_day :
  fromtimestamp (λ _, 0) (-62135596800) = inl DateRangeError ∧
  fromtimestamp (λ _, 0) (-62135510400)
  = inr {| year := 1; month := 1; day := 2 |}.
Proof. split; reflexivity. Qed.

(** A creation time beyond the year 9999 raises even when the name carries
    the year. *)
Example get_album_year_out_of_range :
  get_album_year (λ _, 0) 1000000000000000 "2023 Summer" = inl DateRangeError.
Proof. reflexivity. Qed.

(** ** The monad of effects *)

Lemma bind_inr {A B} (m : M A) (f : A → M B) w x w' :
  m w = (inr x, w') → (m ≫= f) w = f x w'.
Proof. intros H. unfold mbind, M_bind. by rewrite H. Qed.

Lemma bind_inl {A B} (m : M A) (f : A → M B) w e w' :
  m w = (inl e, w') → (m ≫= f) w = (inl e, w').
Proof. intros H. unfold mbind, M_bind. by rewrite H. Qed.

Lemma for_each_cons {A} (x : A) xs body w :
  for_each (x :: xs) body w =
  match body x w with
  | (inl e, w') => (inl e, w')
  | (inr _, w') => for_each xs body w'
  end.
Proof. simpl. unfold mbind, M_bind. by destruct (body x w) as [[?|[]] ?]. Qed.

(** A loop one of whose iterations always raises ends with an exception. *)
Lemma for_each_raises {A} (xs : list A) (body : A → M unit) x :
  x ∈ xs → (∀ w, ∃ e w', body x w = (inl e, w')) →
  ∀ w, ∃ e w', for_each xs body w = (inl e, w').
Proof.
  intros Hx Hraise. induction xs as [|y xs IH]; intros w.
  - by apply elem_of_nil in Hx.
  - rewrite for_each_cons. apply elem_of_cons in Hx as [<- | Hx].
    + destruct (Hraise w) as (e & w' & ->). eauto.
    + destruct (body y w) as [[e|[]] w']; eauto.
Qed.

Ltac unfold_M := unfold mbind, M_bind, mret, M_ret, raise, py_assert, lift in *.

(** ** Link creation: the consistency checks *)

Lemma link_image_folder_missing cfg all_folders alb album_path img w :
  all_folders !! str_int (i_folder_id img) = None →
  link_image cfg all_folders alb album_path img w
  = (inl (AssertionError (folder_missing_msg (str_int (i_folder_id img)) img alb)), w).
Proof.
  intros Hnone. unfold link_image. rewrite Hnone.
  rewrite bool_decide_false by (by intros [? ?]). reflexivity.
Qed.

(** C4: an image whose folder id, as a string, is not a key of the loaded
    cache makes the loop body raise an [AssertionError] whose message names
    the folder id, the file name and the album, before anything is touched;
    and a run over albums that contain such an image ends with an
    exception instead of completing. *)
Theorem missing_folder_aborts (photos : CustomPhotos) (cfg : config)
    (all_folders : gmap string pyval) (alb : album) (img : image) :
  all_folders !! str_int (i_folder_id img) = None →
  (∀ album_path w,
     link_image cfg all_folders alb album_path img w
     = (inl (AssertionError
               ("Folder ID " +:+ str_int (i_folder_id img) +:+ " not found for "
                  +:+ i_filename img +:+ " in " +:+ a_name alb)), w)) ∧
  (alb ∈ list_albums photos → img ∈ list_item_in_albums photos (a_id alb) →
   ∀ w w1, load_cached_folders cfg w = (inr all_folders, w1) →
     ∃ e w', create_album_links photos cfg w = (inl e, w')).
Proof.
  intros Hnone. split.
  { intros album_path w. by apply link_image_folder_missing. }
  intros Halb Himg w w1 Hload.
  unfold create_album_links. rewrite (bind_inr _ _ _ _ _ Hload).
  assert (Halbum : ∀ w, ∃ e w', link_album photos cfg all_folders alb w = (inl e, w')).
  { intros w0. unfold link_album. unfold mbind at 1, M_bind at 1.
    destruct (get_album_year _ _ _) as [e|y]; [eauto|].
    unfold mbind at 1, M_bind at 1.
    destruct (path_mkdir _ w0) as [[e|[]] w2]; [eauto|].
    apply (for_each_raises _ _ img Himg). intros w3.
    rewrite link_image_folder_missing by done. eauto. }
  unfold mbind at 1, M_bind at 1. simpl.
  unfold link_albums. unfold mbind at 1, M_bind at 1.
  destruct (for_each_raises _ _ alb Halb Halbum
              (World (w_fs w1) (w_cwd w1) (w_utcoffset w1)
                     (w_out w1 ++ [Line ("Processing " +:+ pretty (length (list_albums photos))
                                           +:+ " albums...")])
                     (w_symlinks w1)))
    as (e & w' & ->).
  eauto.
Qed.

(** Test data: the configuration template of [dump_default_config], a
    working directory, and the photo store of the first user. *)
Definition template_config : config := {|
  PHOTO_ROOTS := {[ 0 := "/Volumes/homes/User1/Photos";
                    2 := "/Volumes/homes/User2/Photos" ]};
  CACHE_FILE := "folders_cache.json";
|}.

Definition home_fs : filesystem :=
  list_to_map [
    (["home"], Dir); (["home"; "u"], Dir);
    (["Volumes"], Dir); (["Volumes"; "homes"], Dir);
    (["Volumes"; "homes"; "User1"], Dir);
    (["Volumes"; "homes"; "User1"; "Photos"], Dir);
    (["Volumes"; "homes"; "User1"; "Photos"; "Photos"], Dir);
    (["Volumes"; "homes"; "User1"; "Photos"; "Photos"; "2023"], Dir);
    (["Volumes"; "homes"; "User1"; "Photos"; "Photos"; "2023"; "photo1.jpg"], File None)
  ].

Definition world_of (fs : filesystem) : world :=
  World fs ["home"; "u"] (λ _, 0) [] [].

Definition summer_album : album := Album 1 "2023 Summer" 0 1672531200.
Definition photo1 : image := Image "photo1.jpg" 2 0.

Lemma missing_folder_aborts_witness :
  (∀ album_path w,
     link_image template_config ∅ summer_album album_path photo1 w
     = (inl (AssertionError
               ("Folder ID " +:+ str_int 2 +:+ " not found for "
                  +:+ "photo1.jpg" +:+ " in " +:+ "2023 Summer")), w)) ∧
  (summer_album ∈ list_albums mock_photos →
   photo1 ∈ list_item_in_albums mock_photos 1 →
   ∀ w w1, load_cached_folders template_config w = (inr ∅, w1) →
     ∃ e w', create_album_links mock_photos template_config w = (inl e, w')).
Proof.
  apply (missing_folder_aborts mock_photos template_config ∅ summer_album photo1).
  reflexivity.
Defined.

(** The run of the witness: with an empty cache file the first image stops
    the run, after the album directory was made. *)
Example empty_cache_run :
  (create_album_links mock_photos template_config
     (world_of (<[ ["home"; "u"; "folders_cache.json"] := File (Some ∅) ]> home_fs))).1
  = inl (AssertionError "Folder ID 2 not found for photo1.jpg in 2023 Summer").
Proof. vm_compute. reflexivity. Qed.

(** C5, as the code has it.  An image whose owner has a photo root and
    differs from the owner in its cache record never gets its link: the
    body raises, and the world it leaves is the one of the owner-root step
    of lines 111-121.  When that step raises, its error is the one raised.
    When it completes, the error is an [AssertionError]: the one whose
    message names both owner ids, the album and the file name when the
    owner of the record has a photo root too, and the "No photo root" one
    of line 127, which names the owner of the record only, when it has
    none. *)
Theorem owner_mismatch_aborts (cfg : config) (all_folders : gmap string pyval)
    (alb : album) (album_path : Path) (img : image) (record : pyval)
    (folder_name : string) (owner_id : Z) (root : string) (w : world) :
  all_folders !! str_int (i_folder_id img) = Some record →
  unpack_record record = Some (folder_name, owner_id) →
  i_owner_user_id img ≠ owner_id →
  PHOTO_ROOTS cfg !! i_owner_user_id img = Some root →
  (∃ e, link_image cfg all_folders alb album_path img w
        = (inl e, (ensure_owner_link root img w).2)) ∧
  (∀ e w1, ensure_owner_link root img w = (inl e, w1) →
     link_image cfg all_folders alb album_path img w = (inl e, w1)) ∧
  (∀ w1, ensure_owner_link root img w = (inr tt, w1) →
     is_Some (PHOTO_ROOTS cfg !! owner_id) →
     link_image cfg all_folders alb album_path img w
     = (inl (AssertionError
               ("Image owner ID " +:+ str_int (i_owner_user_id img)
                  +:+ " does not match owner ID " +:+ str_int owner_id
                  +:+ " in " +:+ a_name alb +:+ " of " +:+ i_filename img)), w1)) ∧
  (∀ w1, ensure_owner_link root img w = (inr tt, w1) →
     PHOTO_ROOTS cfg !! owner_id = None →
     link_image cfg all_folders alb album_path img w
     = (inl (AssertionError
               ("No photo root configured for owner ID " +:+ str_int owner_id
                  +:+ " in " +:+ a_name alb +:+ " of " +:+ i_filename img)), w1)).
Proof.
  intros Hrec Hunpack Hne Hroot.
  assert (Hkey : link_image cfg all_folders alb album_path img w =
    match ensure_owner_link root img w with
    | (inl e, w1) => (inl e, w1)
    | (inr _, w1) =>
      if bool_decide (is_Some (PHOTO_ROOTS cfg !! owner_id))
      then (inl (AssertionError
                   (owner_mismatch_msg (i_owner_user_id img) owner_id img alb)), w1)
      else (inl (AssertionError (no_root_msg owner_id img alb)), w1)
    end).
  { unfold link_image. rewrite Hrec, Hunpack, Hroot.
    rewrite bool_decide_true by eauto.
    unfold_M. simpl.
    destruct (ensure_owner_link root img w) as [[e|[]] w1]; [done|].
    destruct (bool_decide (is_Some (PHOTO_ROOTS cfg !! owner_id))); [|done].
    by rewrite bool_decide_false. }
  split; [|split; [|split]].
  - rewrite Hkey. destruct (ensure_owner_link root img w) as [[e|[]] w1]; [eauto|].
    destruct (bool_decide _); eauto.
  - intros e w1 Hown. by rewrite Hkey, Hown.
  - intros w1 Hown Howner. rewrite Hkey, Hown. by rewrite bool_decide_true.
  - intros w1 Hown Howner. rewrite Hkey, Hown.
    rewrite bool_decide_false; [done|]. rewrite Howner. by intros [? ?].
Qed.

Definition list_cache : gmap string pyval :=
  {[ "2" := PyList [PyStr "/Photos/2023"; PyInt 2] ]}.

Lemma owner_mismatch_aborts_witness :
  (link_image template_config list_cache summer_album
     (album_dir "2023" summer_album) photo1 (world_of home_fs)).1
  = inl (AssertionError
           "Image owner ID 0 does not match owner ID 2 in 2023 Summer of photo1.jpg").
Proof.
  assert (Hrec : list_cache !! str_int (i_folder_id photo1)
                 = Some (PyList [PyStr "/Photos/2023"; PyInt 2])) by reflexivity.
  assert (Hunpack : unpack_record (PyList [PyStr "/Photos/2023"; PyInt 2])
                    = Some ("/Photos/2023", 2)) by reflexivity.
  assert (Hne : i_owner_user_id photo1 ≠ 2) by (simpl; lia).
  assert (Hroot : PHOTO_ROOTS template_config !! i_owner_user_id photo1
                  = Some "/Volumes/homes/User1/Photos") by reflexivity.
  destruct (owner_mismatch_aborts template_config list_cache summer_album
              (album_dir "2023" summer_album) photo1 _ _ _ _
              (world_of home_fs) Hrec Hunpack Hne Hroot) as (_ & _ & Hboth & _).
  destruct (ensure_owner_link "/Volumes/homes/User1/Photos" photo1 (world_of home_fs))
    as [r w1] eqn:Hown.
  assert (Hr : r = inr tt).
  { apply (f_equal fst) in Hown. cbn [fst] in Hown. rewrite <- Hown.
    vm_compute. reflexivity. }
  subst r.
  assert (Hroot2 : is_Some (PHOTO_ROOTS template_config !! 2)).
  { exists "/Volumes/homes/User2/Photos". reflexivity. }
  rewrite (Hboth w1 eq_refl Hroot2). reflexivity.
Defined.

(** C5 as worded fails when the owner of the record has no photo root: the
    assertion of line 127 comes first, and its message names that owner
    only. *)
Lemma owner_mismatch_message_counterexample :
  (link_image {| PHOTO_ROOTS := {[ 1 := "/photos/one" ]}; CACHE_FILE := "c.json" |}
     {[ "4" := PyList [PyStr "/Trips"; PyInt 7] ]}
     (Album 3 "Trip" 1 0) (album_dir "1970" (Album 3 "Trip" 1 0))
     (Image "a.jpg" 4 1) (world_of home_fs)).1
  = inl (AssertionError "No photo root configured for owner ID 7 in Trip of a.jpg").
Proof. vm_compute. reflexivity. Qed.

(** ** The folder collector: a listing that fails *)

Lemma reachable_trans list_fn root g f :
  reachable list_fn root g → reachable list_fn (f_id g) f → reachable list_fn root f.
Proof.
  intros Hg. induction 1 as [items f Hl Hf | h items f Hh IH Hl Hf].
  - by eapply reach_below.
  - by eapply reach_below.
Qed.

(** The lines written by the call for a folder listed under [root] are
    among the lines of the call for [root]. *)
Lemma collect_log_child photos is_shared fuel root items c m log mc lc :
  list_fn_of photos is_shared root = inr items → c ∈ items →
  collect_folders_recursive (S fuel) photos root is_shared = Some (m, log) →
  collect_folders_recursive fuel photos (f_id c) is_shared = Some (mc, lc) →
  ∀ line, line ∈ lc → line ∈ log.
Proof.
  intros Hl Hc Hm Hmc line Hline.
  assert (Hid : ∀ l : list Z, (λ folder_ids : list Z, folder_ids) l ≡ₚ l) by done.
  destruct (collect_results photos is_shared _ fuel root items m log Hid Hl Hm)
    as (results & HF & _ & ->).
  assert (Hin : f_id c ∈ map f_id items) by (apply list_elem_of_fmap; eauto).
  apply list_elem_of_lookup in Hin as [i Hi].
  destruct (Forall2_lookup_l _ _ _ _ _ HF Hi) as (r & Hr & Hcall).
  unfold collect_folders_recursive in Hmc. rewrite Hmc in Hcall. injection Hcall as <-.
  apply list_elem_of_In, in_concat. exists lc. split; [|by apply list_elem_of_In].
  apply list_elem_of_In, list_elem_of_fmap. exists (mc, lc). split; [done|].
  by eapply list_elem_of_lookup_2.
Qed.

(** The lines written by the call for a folder found from [root], at any
    depth, are among the lines of the call for [root]. *)
Lemma collect_log_reachable photos is_shared rank fuel root m log c :
  finite_depth (list_fn_of photos is_shared) rank → (rank root < fuel)%nat →
  collect_folders_recursive fuel photos root is_shared = Some (m, log) →
  reachable (list_fn_of photos is_shared) root c →
  ∃ fuel_c mc lc,
    (rank (f_id c) < fuel_c)%nat ∧
    collect_folders_recursive fuel_c photos (f_id c) is_shared = Some (mc, lc) ∧
    ∀ line, line ∈ lc → line ∈ log.
Proof.
  intros Hrank Hlt Hm.
  assert (Hid : ∀ l : list Z, (λ folder_ids : list Z, folder_ids) l ≡ₚ l) by done.
  assert (Hstep : ∀ fuel_p p items f mp lp,
    (rank p < fuel_p)%nat → list_fn_of photos is_shared p = inr items → f ∈ items →
    collect_folders_recursive fuel_p photos p is_shared = Some (mp, lp) →
    ∃ mf lf, (rank (f_id f) < pred fuel_p)%nat ∧
      collect_folders_recursive (pred fuel_p) photos (f_id f) is_shared = Some (mf, lf) ∧
      ∀ line, line ∈ lf → line ∈ lp).
  { intros fuel_p p items f mp lp Hp Hl Hf Hmp.
    pose proof (Hrank p items f Hl Hf) as Hlt'.
    destruct fuel_p as [|fuel_p]; [lia|]. simpl pred.
    destruct (collect_sound_complete photos is_shared _ rank Hrank Hid fuel_p (f_id f))
      as (mf & lf & Hmf & _); [lia|].
    exists mf, lf. split; [lia|]. split; [done|].
    by apply (collect_log_child photos is_shared fuel_p p items f mp lp mf lf). }
  induction 1 as [items f Hl Hf | g items f Hg IH Hl Hf].
  - destruct (Hstep fuel root items f m log Hlt Hl Hf Hm) as (mf & lf & ? & ? & ?).
    by exists (pred fuel), mf, lf.
  - destruct IH as (fuel_g & mg & lg & Hltg & Hmg & Hsub).
    destruct (Hstep fuel_g (f_id g) items f mg lg Hltg Hl Hf Hmg)
      as (mf & lf & ? & ? & Hsub').
    exists (pred fuel_g), mf, lf. split; [done|]. split; [done|]. auto.
Qed.

(** C7: when the listing of a folder [c] found from [root], at any depth,
    fails, the call for [c] returns the empty mapping and writes one line
    that names the kind of tree and the id; the call for [root] still
    returns, its output has that line, and its mapping has the entry of
    every folder found from [root] and every entry that the call for any
    folder found from [root] returns (key for key, and value for value
    when ids are unique): the other branches lose nothing. *)
Theorem collect_failure_isolated (photos : CustomPhotos) (is_shared : bool)
    (rank : Z → nat) (fuel : nat) (root : Z) (c : folder) (error : string) :
  finite_depth (list_fn_of photos is_shared) rank →
  (rank root < fuel)%nat →
  reachable (list_fn_of photos is_shared) root c →
  list_fn_of photos is_shared (f_id c) = inl error →
  ∃ m log,
    collect_folders_recursive fuel photos root is_shared = Some (m, log) ∧
    (∀ fuel', collect_folders_recursive (S fuel') photos (f_id c) is_shared
              = Some (∅, ["Error fetching " +:+ (if is_shared then "shared" else "personal")
                            +:+ " folders for ID " +:+ str_int (f_id c) +:+ ": " +:+ error])) ∧
    fetch_error_line is_shared (f_id c) error ∈ log ∧
    (∀ f, reachable (list_fn_of photos is_shared) root f → str_int (f_id f) ∈ dom m) ∧
    (unique_ids (list_fn_of photos is_shared) root →
     ∀ f, reachable (list_fn_of photos is_shared) root f →
          m !! str_int (f_id f) = Some (folder_entry f)) ∧
    (∀ s fuel_s, reachable (list_fn_of photos is_shared) root s →
       (rank (f_id s) < fuel_s)%nat →
       ∃ ms ls,
         collect_folders_recursive fuel_s photos (f_id s) is_shared = Some (ms, ls) ∧
         dom ms ⊆ dom m ∧
         (unique_ids (list_fn_of photos is_shared) root → ms ⊆ m)).
Proof.
  intros Hrank Hlt Hc Herr.
  assert (Hid : ∀ l : list Z, (λ folder_ids : list Z, folder_ids) l ≡ₚ l) by done.
  destruct (collect_sound_complete photos is_shared _ rank Hrank Hid fuel root Hlt)
    as (m & log & Hm & Hsound & Hcomplete).
  exists m, log. split; [done|].
  assert (Hfail : ∀ fuel', collect_folders_recursive (S fuel') photos (f_id c) is_shared
                  = Some (∅, [fetch_error_line is_shared (f_id c) error])).
  { intros fuel'. unfold collect_folders_recursive. simpl. by rewrite Herr. }
  split; [exact Hfail|]. split; [|split; [done|split]].
  - destruct (collect_log_reachable photos is_shared rank fuel root m log c
                Hrank Hlt Hm Hc) as (fuel_c & mc & lc & Hltc & Hmc & Hsub).
    destruct fuel_c as [|fuel_c]; [lia|]. rewrite Hfail in Hmc.
    injection Hmc as <- <-. apply Hsub. left.
  - intros Huniq f Hf.
    by apply (collect_value photos is_shared _ rank fuel root m log f Hrank Hid).
  - intros s fuel_s Hs Hlts.
    destruct (collect_sound_complete photos is_shared _ rank Hrank Hid fuel_s (f_id s) Hlts)
      as (ms & ls & Hms & Hsounds & _).
    exists ms, ls. split; [done|]. split.
    + intros k [v Hk]%elem_of_dom. destruct (Hsounds k v Hk) as (f & Hf & -> & _).
      apply Hcomplete. by eapply reachable_trans.
    + intros Huniq. apply map_subseteq_spec. intros k v Hk.
      destruct (Hsounds k v Hk) as (f & Hf & -> & ->).
      apply (collect_value photos is_shared _ rank fuel root m log f Hrank Hid Huniq Hlt Hm).
      by eapply reachable_trans.
Qed.

(** The personal tree of the tests with two more levels, and a listing
    that fails two levels below the root: 0 lists 1 and 2, 1 lists 3 and
    4, the listing of 3 fails, 4 lists 7, and 2 lists 6. *)
Definition flaky_list_folders (folder_id : Z) : listing :=
  if (folder_id =? 0)%Z then
    inr [Folder 1 "/Photos" 0; Folder 2 "/Photos/2023" 0]
  else if (folder_id =? 1)%Z then
    inr [Folder 3 "/Photos/A" 0; Folder 4 "/Photos/B" 0]
  else if (folder_id =? 2)%Z then inr [Folder 6 "/Photos/2023/May" 0]
  else if (folder_id =? 3)%Z then inl "API Error"
  else if (folder_id =? 4)%Z then inr [Folder 7 "/Photos/B/C" 0]
  else inr [].

Definition flaky_photos : CustomPhotos := {|
  list_folders := flaky_list_folders;
  list_teams_folders := λ _, inl "API Error";
  list_albums := [];
  list_item_in_albums := λ _, [];
  get_userinfo_name := "test_user";
|}.

Definition flaky_rank (folder_id : Z) : nat :=
  if (folder_id =? 0)%Z then 3%nat
  else if (folder_id =? 1)%Z then 2%nat
  else if (folder_id =? 2)%Z then 1%nat
  else if (folder_id =? 4)%Z then 1%nat else 0%nat.

Lemma flaky_finite_depth : finite_depth (list_fn_of flaky_photos false) flaky_rank.
Proof.
  intros p items f. unfold list_fn_of, flaky_rank; simpl. unfold flaky_list_folders.
  destruct (p =? 0)%Z eqn:H0;
    [|destruct (p =? 1)%Z eqn:H1;
      [|destruct (p =? 2)%Z eqn:H2;
        [|destruct (p =? 3)%Z eqn:H3; [done|destruct (p =? 4)%Z eqn:H4]]]];
    intros [= <-] Hf;
    repeat (apply elem_of_cons in Hf as [-> | Hf]; [simpl; lia|]);
    by apply elem_of_nil in Hf.
Qed.

Lemma flaky_reachable_3 :
  reachable (list_fn_of flaky_photos false) 0 (Folder 3 "/Photos/A" 0).
Proof.
  apply (reach_below _ _ (Folder 1 "/Photos" 0)
           [Folder 3 "/Photos/A" 0; Folder 4 "/Photos/B" 0]); [|done|left].
  apply (reach_child _ _ [Folder 1 "/Photos" 0; Folder 2 "/Photos/2023" 0]);
    [done | left].
Qed.

Lemma collect_failure_isolated_witness :
  ∃ m log,
    collect_folders_recursive 4 flaky_photos 0 false = Some (m, log) ∧
    "Error fetching personal folders for ID 3: API Error" ∈ log ∧
    (∀ f, reachable (list_fn_of flaky_photos false) 0 f → str_int (f_id f) ∈ dom m).
Proof.
  destruct (collect_failure_isolated flaky_photos false flaky_rank 4 0
              (Folder 3 "/Photos/A" 0) "API Error")
    as (m & log & Hm & _ & Hline & Hkeys & _).
  - exact flaky_finite_depth.
  - unfold flaky_rank. simpl. lia.
  - exact flaky_reachable_3.
  - reflexivity.
  - exists m, log. split; [exact Hm|]. split; [exact Hline | exact Hkeys].
Defined.

(** The run of the witness: the folders beside and below the one whose
    listing fails are kept. *)
Example collect_flaky_tree :
  collect_folders_recursive 4 flaky_photos 0 false =
  Some ({[ "1" := PyTuple [PyStr "/Photos"; PyInt 0];
           "2" := PyTuple [PyStr "/Photos/2023"; PyInt 0];
           "3" := PyTuple [PyStr "/Photos/A"; PyInt 0];
           "4" := PyTuple [PyStr "/Photos/B"; PyInt 0];
           "6" := PyTuple [PyStr "/Photos/2023/May"; PyInt 0];
           "7" := PyTuple [PyStr "/Photos/B/C"; PyInt 0] ]},
        ["Error fetching personal folders for ID 3: API Error"]).
Proof. vm_compute. reflexivity. Qed.

(** ** Path resolution *)

Definition enter_link (links : nat) (fs : filesystem) (follow : bool)
  : list string → string → list string → errno + lookup_result :=
  match links with
  | O => λ _ _ _, inl ELOOP
  | S links' => λ dir target rest,
    if String.eqb target "" then inl ENOENT
    else
      let '(absolute, tcomps) := os_path target in
      walk links' fs follow (if absolute then [] else dir) (tcomps ++ rest)
  end.

Lemma walk_unfold links fs follow cur comps :
  walk links fs follow cur comps
  = walk_components (enter_link links fs follow) fs follow cur comps.
Proof. by destruct links. Qed.

Definition is_symlink_result (r : lookup_result) : Prop :=
  match r with Found _ (Symlink _) => True | _ => False end.

(** A walk that does not end on a symbolic link is the same walk whether
    or not a last link would be followed. *)
Lemma walk_follow_irrelevant links fs cur comps r :
  walk links fs false cur comps = inr r → ¬ is_symlink_result r →
  walk links fs true cur comps = inr r.
Proof.
  revert cur comps. induction links as [|links IH]; intros cur comps.
  - rewrite !walk_unfold. simpl.
    revert cur. induction comps as [|c rest IHc]; intros cur; simpl; [done|].
    destruct (_ || _); [apply IHc|]. destruct (String.eqb c ".."); [apply IHc|].
    destruct (fs !! (cur ++ [c])) as [[| content | target]|]; try done.
    + apply IHc.
    + destruct rest; [|done]. intros [= <-] Hr. by destruct Hr.
  - rewrite !walk_unfold.
    revert cur. induction comps as [|c rest IHc]; intros cur; simpl; [done|].
    destruct (_ || _); [apply IHc|]. destruct (String.eqb c ".."); [apply IHc|].
    destruct (fs !! (cur ++ [c])) as [[| content | target]|]; try done.
    + apply IHc.
    + destruct rest as [|c' rest'].
      * intros [= <-] Hr. by destruct Hr.
      * destruct (String.eqb target ""); [done|].
        destruct (os_path target) as [absolute tcomps]. apply IH.
Qed.

Definition leaf_result (fs : filesystem) (place : list string) : lookup_result :=
  match fs !! place with
  | None => Missing place
  | Some n => Found place n
  end.

Definition ends_at_leaf (place : list string) (r : lookup_result) : Prop :=
  r = Missing place ∨ ∃ content, r = Found place (File content).

(** A walk that ends on a missing entry or a regular file never passed
    through that place, so changing what is there changes only the end of
    the walk. *)
Lemma walk_leaf_change links fs fs' follow place cur comps r :
  (∀ q, q ≠ place → fs' !! q = fs !! q) →
  (fs !! place = None ∨ ∃ content, fs !! place = Some (File content)) →
  (follow = false ∨ ∀ target, fs' !! place ≠ Some (Symlink target)) →
  walk links fs follow cur comps = inr r → ends_at_leaf place r →
  walk links fs' follow cur comps = inr (leaf_result fs' place).
Proof.
  intros Hagree Hplace Hnew. revert cur comps.
  assert (Hstep : ∀ enter enter',
    (∀ dir target rest, enter dir target rest = inr r → ends_at_leaf place r →
       enter' dir target rest = inr (leaf_result fs' place)) →
    ∀ comps cur, walk_components enter fs follow cur comps = inr r →
      ends_at_leaf place r →
      walk_components enter' fs' follow cur comps = inr (leaf_result fs' place)).
  { intros enter enter' Henter comps.
    induction comps as [|c rest IHc]; intros cur; simpl.
    { intros [= <-] [?|[? ?]]; done. }
    destruct (_ || _); [apply IHc|]. destruct (String.eqb c ".."); [apply IHc|].
    destruct (decide (cur ++ [c] = place)) as [-> | Hne].
    - unfold leaf_result.
      destruct Hplace as [-> | [content ->]]; (destruct rest; [|done]); intros _ _.
      + destruct (fs' !! place) as [[| content' | target]|]; try done.
        destruct follow; [|done]. destruct Hnew as [? | Hnew]; [done|].
        by destruct (Hnew target).
      + destruct (fs' !! place) as [[| content' | target]|]; try done.
        destruct follow; [|done]. destruct Hnew as [? | Hnew]; [done|].
        by destruct (Hnew target).
    - rewrite (Hagree _ Hne).
      destruct (fs !! (cur ++ [c])) as [[| content | target]|].
      + apply IHc.
      + destruct rest; [|done]. intros [= <-] [? | [? ?]]; congruence.
      + destruct rest as [|c' rest'], follow; try apply Henter.
        intros [= <-] [? | [? ?]]; congruence.
      + destruct rest; [|done]. intros [= <-] [? | [? ?]]; congruence. }
  induction links as [|links IH]; intros cur comps; rewrite !walk_unfold.
  - apply Hstep. done.
  - apply Hstep. intros dir target rest. simpl.
    destruct (String.eqb target ""); [done|].
    destruct (os_path target) as [absolute tcomps]. apply IH.
Qed.

Lemma walk_missing_lookup links fs follow cur comps place :
  walk links fs follow cur comps = inr (Missing place) → fs !! place = None.
Proof.
  revert cur comps.
  assert (Hstep : ∀ enter,
    (∀ dir target rest, enter dir target rest = inr (Missing place) → fs !! place = None) →
    ∀ comps cur, walk_components enter fs follow cur comps = inr (Missing place) →
      fs !! place = None).
  { intros enter Henter comps. induction comps as [|c rest IHc]; intros cur; simpl; [done|].
    destruct (_ || _); [apply IHc|]. destruct (String.eqb c ".."); [apply IHc|].
    destruct (fs !! (cur ++ [c])) as [[| content | target]|] eqn:Hq.
    - apply IHc.
    - by destruct rest.
    - destruct rest as [|c' rest'], follow; try apply Henter. done.
    - destruct rest; [|done]. by intros [= <-]. }
  induction links as [|links IH]; intros cur comps; rewrite walk_unfold.
  - by apply Hstep.
  - apply Hstep. intros dir target rest. simpl.
    destruct (String.eqb target ""); [done|].
    destruct (os_path target) as [absolute tcomps]. apply IH.
Qed.

Lemma walk_found_lookup links fs follow cur comps place n :
  walk links fs follow cur comps = inr (Found place n) → n ≠ Dir →
  fs !! place = Some n.
Proof.
  intros Hw Hn. revert cur comps Hw.
  assert (Hstep : ∀ enter,
    (∀ dir target rest, enter dir target rest = inr (Found place n) → fs !! place = Some n) →
    ∀ comps cur, walk_components enter fs follow cur comps = inr (Found place n) →
      fs !! place = Some n).
  { intros enter Henter comps. induction comps as [|c rest IHc]; intros cur; simpl.
    { intros [= <- <-]. done. }
    destruct (_ || _); [apply IHc|]. destruct (String.eqb c ".."); [apply IHc|].
    destruct (fs !! (cur ++ [c])) as [[| content | target]|] eqn:Hq.
    - apply IHc.
    - destruct rest; [|done]. by intros [= <- <-].
    - destruct rest as [|c' rest'], follow; try apply Henter. by intros [= <- <-].
    - by destruct rest. }
  induction links as [|links IH]; intros cur comps; rewrite walk_unfold.
  - by apply Hstep.
  - apply Hstep. intros dir target rest. simpl.
    destruct (String.eqb target ""); [done|].
    destruct (os_path target) as [absolute tcomps]. apply IH.
Qed.

(** ** The folder cache: saving and loading *)

(** What a value looks like after [json.dump] and [json.load]. *)
Definition listified (v : pyval) : pyval := py_of_json (json_of_py v).

Lemma json_of_py_of_json j : json_of_py (py_of_json j) = j.
Proof.
  revert j. fix IH 1. intros [z | s | items]; simpl; [done..|].
  f_equal. induction items as [|j items IHitems]; simpl; [done|].
  by rewrite IH, IHitems.
Qed.

Lemma listified_idemp v : listified (listified v) = listified v.
Proof. unfold listified. by rewrite json_of_py_of_json. Qed.

Lemma unpack_record_listified v : unpack_record (listified v) = unpack_record v.
Proof.
  destruct v as [z | s | items | items]; try done.
  - destruct items as [|[] [|[] [|]]]; done.
  - destruct items as [|[] [|[] [|]]]; done.
Qed.

Lemma resolve_leaf_change fs fs' cwd follow place path r :
  (∀ q, q ≠ place → fs' !! q = fs !! q) →
  (fs !! place = None ∨ ∃ content, fs !! place = Some (File content)) →
  (follow = false ∨ ∀ target, fs' !! place ≠ Some (Symlink target)) →
  resolve fs cwd follow path = inr r → ends_at_leaf place r →
  resolve fs' cwd follow path = inr (leaf_result fs' place).
Proof.
  intros Hagree Hplace Hnew. unfold resolve.
  destruct (String.eqb path ""); [done|].
  destruct (os_path path) as [absolute comps]. by apply walk_leaf_change.
Qed.

Lemma resolve_missing_lookup fs cwd follow path place :
  resolve fs cwd follow path = inr (Missing place) → fs !! place = None.
Proof.
  unfold resolve. destruct (String.eqb path ""); [done|].
  destruct (os_path path) as [absolute comps]. apply walk_missing_lookup.
Qed.

Lemma resolve_found_lookup fs cwd follow path place n :
  resolve fs cwd follow path = inr (Found place n) → n ≠ Dir → fs !! place = Some n.
Proof.
  unfold resolve. destruct (String.eqb path ""); [done|].
  destruct (os_path path) as [absolute comps]. apply walk_found_lookup.
Qed.

Lemma resolve_follow_irrelevant fs cwd path r :
  resolve fs cwd false path = inr r → ¬ is_symlink_result r →
  resolve fs cwd true path = inr r.
Proof.
  unfold resolve. destruct (String.eqb path ""); [done|].
  destruct (os_path path) as [absolute comps]. apply walk_follow_irrelevant.
Qed.

(** Reading back the file just written gives the document written. *)
Lemma read_after_write path doc w w1 :
  write_json_file path doc w = (inr tt, w1) →
  read_json_file path w1 = (inr doc, w1).
Proof.
  unfold write_json_file, read_json_file.
  destruct (resolve (w_fs w) (w_cwd w) true path) as [e | r] eqn:Hres; [done|].
  assert (Hgo : ∀ place, ends_at_leaf place r →
     resolve (<[place := File (Some doc)]> (w_fs w)) (w_cwd w) true path
     = inr (Found place (File (Some doc)))).
  { intros place Hleaf.
    rewrite (resolve_leaf_change (w_fs w) _ (w_cwd w) true place path r); try done.
    - unfold leaf_result. by rewrite lookup_insert_eq.
    - intros q Hq. by rewrite lookup_insert_ne.
    - destruct Hleaf as [-> | [content ->]].
      + left. by eapply resolve_missing_lookup.
      + right. exists content. by eapply resolve_found_lookup.
    - right. intros target. by rewrite lookup_insert_eq. }
  destruct r as [place [| content | target] | place]; try done.
  - intros [= <-]. simpl. rewrite Hgo; [done|]. right. by exists content.
  - intros [= <-]. simpl. rewrite Hgo; [done|]. by left.
Qed.

(** X12 (the code behind C2).  After a save that succeeded, loading returns
    the mapping with every value passed through JSON: the keys are the
    same, a [(name, owner)] tuple comes back as the list [[name, owner]],
    which unpacks to the same name and owner, and a mapping that was itself
    loaded comes back unchanged. *)
Theorem save_then_load (cfg : config) (all_folders : gmap string pyval)
    (w w1 : world) :
  dump_folders cfg all_folders w = (inr tt, w1) →
  load_cached_folders cfg w1 = (inr (listified <$> all_folders), w1) ∧
  dom (listified <$> all_folders) = dom all_folders ∧
  (∀ k name owner,
     all_folders !! k = Some (PyTuple [PyStr name; PyInt owner]) →
     (listified <$> all_folders) !! k = Some (PyList [PyStr name; PyInt owner])) ∧
  (∀ k, unpack_record <$> (listified <$> all_folders) !! k
        = unpack_record <$> all_folders !! k) ∧
  listified <$> (listified <$> all_folders) = listified <$> all_folders.
Proof.
  intros Hsave. split; [|split; [|split; [|split]]].
  - unfold dump_folders in Hsave. unfold mbind, M_bind in Hsave. simpl in Hsave.
    destruct (write_json_file _ _ _) as [[e|[]] w'] eqn:Hwrite; [done|].
    apply read_after_write in Hwrite. injection Hsave as <-.
    unfold load_cached_folders, try_except, mbind, M_bind.
    unfold read_json_file in *. simpl in *.
    destruct (resolve _ _ _ _) as [e | [place [| [doc|] | target] | place]]; try done.
    injection Hwrite as ->. simpl. unfold mret, M_ret. do 2 f_equal.
    rewrite <- map_fmap_compose. done.
  - apply dom_fmap_L.
  - intros k name owner Hk. by rewrite lookup_fmap, Hk.
  - intros k. rewrite lookup_fmap. destruct (all_folders !! k) as [v|]; [|done].
    simpl. by rewrite unpack_record_listified.
  - rewrite <- map_fmap_compose. apply map_fmap_ext. intros k v _.
    apply listified_idemp.
Qed.

Definition tuple_cache : gmap string pyval :=
  {[ "2" := PyTuple [PyStr "/Photos/2023"; PyInt 0] ]}.

Lemma save_then_load_witness :
  (load_cached_folders template_config
     (dump_folders template_config tuple_cache (world_of home_fs)).2).1
  = inr (listified <$> tuple_cache).
Proof.
  assert (Hsave : dump_folders template_config tuple_cache (world_of home_fs)
                  = (inr tt, (dump_folders template_config tuple_cache
                                (world_of home_fs)).2)).
  { apply injective_projections; [vm_compute; reflexivity | reflexivity]. }
  destruct (save_then_load template_config tuple_cache (world_of home_fs) _ Hsave)
    as [Hload _].
  rewrite Hload. reflexivity.
Defined.

(** C2 as worded fails: what is loaded holds lists where the mapping saved
    held tuples, and a list is not equal to a tuple. *)
Lemma save_then_load_counterexample :
  (load_cached_folders template_config
     (dump_folders template_config tuple_cache (world_of home_fs)).2).1
  = inr ({[ "2" := PyList [PyStr "/Photos/2023"; PyInt 0] ]} : gmap string pyval) ∧
  ({[ "2" := PyList [PyStr "/Photos/2023"; PyInt 0] ]} : gmap string pyval) ≠ tuple_cache.
Proof.
  split.
  - vm_compute. reflexivity.
  - intros H. apply (f_equal (λ m : gmap string pyval, m !! "2")) in H.
    vm_compute in H. discriminate.
Qed.

(** ** Link creation: the link of an image *)

(** What [p.exists()] answers in a world. *)
Definition exists_in (w : world) (p : Path) : bool :=
  match resolve (w_fs w) (w_cwd w) true (path_str p) with
  | inr (Found _ _) => true
  | _ => false
  end.

Lemma path_exists_eq p w : path_exists p w = (inr (exists_in w p), w).
Proof.
  unfold path_exists, exists_in, try_except, mbind, M_bind, os_stat.
  by destruct (resolve _ _ _ _) as [e | [place n | place]].
Qed.

Definition wf_path (p : Path) : Prop := Forall (λ x, x ≠ "") (p_parts p).

Lemma path_of_wf s : wf_path (path_of s).
Proof.
  unfold wf_path, path_of. destruct (splitroot s) as [root rel]. simpl.
  apply Forall_forall. intros x [_ Hx]%list_elem_of_In%filter_In.
  unfold keep_part in Hx. intros ->. done.
Qed.

Lemma truediv_wf p key : wf_path p → wf_path (p /: key).
Proof.
  intros Hp. unfold truediv. destruct (String.eqb _ _); [|apply path_of_wf].
  apply Forall_app. split; [done | apply path_of_wf].
Qed.

Lemma path_str_nonempty p : wf_path p → path_str p ≠ "".
Proof.
  unfold wf_path, path_str. destruct p as [root parts]. simpl.
  destruct root as [|c root]; [|done].
  destruct parts as [|x parts]; [done|].
  intros Hwf. apply Forall_cons in Hwf as [Hx _].
  destruct x as [|c x]; [done|]. by destruct parts.
Qed.

Lemma item_source_path_nonempty folder_name img :
  path_str (item_source_path folder_name img) ≠ "".
Proof. apply path_str_nonempty. do 4 apply truediv_wf. apply path_of_wf. Qed.

Lemma create_item_link_total img source_path link_path w :
  ∃ w', create_item_link img source_path link_path w = (inr tt, w').
Proof.
  unfold create_item_link, try_except. unfold mbind at 1, M_bind at 1.
  rewrite path_exists_eq. destruct (exists_in w link_path); [by eexists|].
  unfold os_symlink. destruct (String.eqb _ ""); [by eexists|].
  destruct (resolve _ _ _ _) as [e | [place n | place]]; by eexists.
Qed.

Lemma remove_existing_link_total link_path w :
  ∃ w', remove_existing_link link_path w = (inr tt, w').
Proof.
  unfold remove_existing_link, try_except.
  destruct (path_unlink link_path w) as [[e|[]] w']; by eexists.
Qed.

Lemma create_item_link_failure img source_path link_path w e :
  exists_in w link_path = false →
  os_symlink (path_str source_path) (path_str link_path) w = (inl (OSError e), w) →
  create_item_link img source_path link_path w
  = (inr tt, emit [SymlinkErrorLine (i_filename img) e] w).
Proof.
  intros Hex Hsym. unfold create_item_link, try_except.
  unfold mbind at 1, M_bind at 1. rewrite path_exists_eq, Hex, Hsym. done.
Qed.

Lemma replace_regular_file img source_path link_path w place content :
  resolve (w_fs w) (w_cwd w) false (path_str link_path)
  = inr (Found place (File content)) →
  path_str source_path ≠ "" →
  (remove_existing_link link_path ;; create_item_link img source_path link_path) w
  = (inr tt, World (<[place := Symlink (path_str source_path)]> (w_fs w))
                   (w_cwd w) (w_utcoffset w) (w_out w)
                   (w_symlinks w ++ [(place, path_str source_path)])).
Proof.
  intros Hres Hsrc.
  assert (Hplace : w_fs w !! place = Some (File content)).
  { by eapply resolve_found_lookup. }
  assert (Hleaf : ends_at_leaf place (Found place (File content))).
  { right. by exists content. }
  assert (Hafter : ∀ follow,
    resolve (delete place (w_fs w)) (w_cwd w) follow (path_str link_path)
    = inr (Missing place)).
  { intros follow.
    rewrite (resolve_leaf_change (w_fs w) _ (w_cwd w) follow place
               (path_str link_path) (Found place (File content))).
    - unfold leaf_result. by rewrite lookup_delete_eq.
    - intros q Hq. by rewrite lookup_delete_ne.
    - right. by exists content.
    - right. intros target. by rewrite lookup_delete_eq.
    - destruct follow; [|done]. apply resolve_follow_irrelevant; [done | by intros []].
    - done. }
  unfold mbind, M_bind, remove_existing_link, try_except, path_unlink, os_unlink.
  rewrite Hres. simpl.
  unfold create_item_link, try_except. unfold mbind at 1, M_bind at 1.
  rewrite path_exists_eq. unfold exists_in. simpl. rewrite Hafter.
  unfold os_symlink. simpl. rewrite Hafter.
  apply String.eqb_neq in Hsrc. rewrite Hsrc.
  by rewrite insert_delete_eq.
Qed.

Lemma keep_directory img source_path link_path w place :
  resolve (w_fs w) (w_cwd w) false (path_str link_path) = inr (Found place Dir) →
  (remove_existing_link link_path ;; create_item_link img source_path link_path) w
  = (inr tt, w).
Proof.
  intros Hres.
  unfold mbind, M_bind, remove_existing_link, try_except, path_unlink, os_unlink.
  rewrite Hres. simpl.
  unfold create_item_link, try_except. unfold mbind at 1, M_bind at 1.
  rewrite path_exists_eq. unfold exists_in.
  rewrite (resolve_follow_irrelevant _ _ _ _ Hres); [done|]. by intros [].
Qed.

(** An image that passes the checks runs the two guarded blocks in the
    world the owner-root step left. *)
Lemma link_image_checked cfg all_folders alb album_path img record folder_name root w :
  all_folders !! str_int (i_folder_id img) = Some record →
  unpack_record record = Some (folder_name, i_owner_user_id img) →
  PHOTO_ROOTS cfg !! i_owner_user_id img = Some root →
  link_image cfg all_folders alb album_path img w
  = match ensure_owner_link root img w with
    | (inl e, w1) => (inl e, w1)
    | (inr _, w1) =>
      (remove_existing_link (album_path /: i_filename img) ;;
       create_item_link img (item_source_path folder_name img)
                        (album_path /: i_filename img)) w1
    end.
Proof.
  intros Hrec Hunpack Hroot. unfold link_image. rewrite Hrec, Hunpack, Hroot.
  rewrite bool_decide_true by eauto. unfold_M. simpl.
  destruct (ensure_owner_link root img w) as [[e|[]] w1]; [done|].
  rewrite bool_decide_true by eauto. by rewrite bool_decide_true.
Qed.

(** A path the system calls take: no byte of it is NUL. *)
Definition nul_free (s : string) : bool :=
  str_forallb (λ c, negb (Ascii.eqb c "000")) s.

(** After the unlink of a regular file at the place of the link, the link
    is attempted at the free place. *)
Lemma unlink_regular_file img source_path link_path w place content :
  resolve (w_fs w) (w_cwd w) false (path_str link_path)
  = inr (Found place (File content)) →
  let w_gone := set_fs (delete place (w_fs w)) w in
  exists_in w_gone link_path = false ∧
  (remove_existing_link link_path ;; create_item_link img source_path link_path) w
  = create_item_link img source_path link_path w_gone.
Proof.
  intros Hres w_gone.
  assert (Hafter : resolve (delete place (w_fs w)) (w_cwd w) true (path_str link_path)
                   = inr (Missing place)).
  { rewrite (resolve_leaf_change (w_fs w) _ (w_cwd w) true place
               (path_str link_path) (Found place (File content))).
    - unfold leaf_result. by rewrite lookup_delete_eq.
    - intros q Hq. by rewrite lookup_delete_ne.
    - right. exists content. by eapply resolve_found_lookup.
    - right. intros target. by rewrite lookup_delete_eq.
    - apply resolve_follow_irrelevant; [done | by intros []].
    - right. by exists content. }
  split.
  - unfold exists_in, w_gone. cbn [w_fs w_cwd set_fs]. by rewrite Hafter.
  - unfold mbind, M_bind, remove_existing_link, try_except, path_unlink, os_unlink.
    by rewrite Hres.
Qed.

(** X14 (the code behind C10).  For an image that passed the checks, with
    no NUL byte in the path of its link or in the text of the link, in
    the world left by the owner-root step: the two blocks around the link
    of the image never raise, so the loop goes on with the next image;
    when [os.symlink] fails with an [OSError], the failure is written out
    with the file name.  A regular file at the place of the link is not a
    failure: it is unlinked, and the link is then attempted at the free
    place; it takes the place when [os.symlink] succeeds, and when
    [os.symlink] fails the failure is written out and the file stays
    removed.  A directory at that place is kept and the image is passed
    over, with nothing written. *)
Theorem item_link_failure_continues (cfg : config) (all_folders : gmap string pyval)
    (alb : album) (album_path : Path) (img : image) (record : pyval)
    (folder_name root : string) (w w1 : world) :
  all_folders !! str_int (i_folder_id img) = Some record →
  unpack_record record = Some (folder_name, i_owner_user_id img) →
  PHOTO_ROOTS cfg !! i_owner_user_id img = Some root →
  ensure_owner_link root img w = (inr tt, w1) →
  let link_path := album_path /: i_filename img in
  let source_path := item_source_path folder_name img in
  nul_free (path_str link_path) = true → nul_free (path_str source_path) = true →
  (∃ w2, link_image cfg all_folders alb album_path img w = (inr tt, w2) ∧
         ∀ rest, for_each (img :: rest) (link_image cfg all_folders alb album_path) w
                 = for_each rest (link_image cfg all_folders alb album_path) w2) ∧
  (∀ w' e, exists_in w' link_path = false →
     os_symlink (path_str source_path) (path_str link_path) w' = (inl (OSError e), w') →
     create_item_link img source_path link_path w'
     = (inr tt, emit [SymlinkErrorLine (i_filename img) e] w')) ∧
  (∀ place content,
     resolve (w_fs w1) (w_cwd w1) false (path_str link_path)
     = inr (Found place (File content)) →
     let w_gone := set_fs (delete place (w_fs w1)) w1 in
     link_image cfg all_folders alb album_path img w
     = create_item_link img source_path link_path w_gone ∧
     (∀ w3, os_symlink (path_str source_path) (path_str link_path) w_gone
            = (inr tt, w3) →
        link_image cfg all_folders alb album_path img w = (inr tt, w3)) ∧
     (∀ e, os_symlink (path_str source_path) (path_str link_path) w_gone
           = (inl (OSError e), w_gone) →
        link_image cfg all_folders alb album_path img w
        = (inr tt, emit [SymlinkErrorLine (i_filename img) e] w_gone))) ∧
  (∀ place,
     resolve (w_fs w1) (w_cwd w1) false (path_str link_path) = inr (Found place Dir) →
     link_image cfg all_folders alb album_path img w = (inr tt, w1)).
Proof.
  intros Hrec Hunpack Hroot Hown link_path source_path _ _.
  pose proof (link_image_checked cfg all_folders alb album_path img record
                folder_name root w Hrec Hunpack Hroot) as Himg.
  rewrite Hown in Himg. fold link_path source_path in Himg.
  split; [|split; [|split]].
  - destruct (remove_existing_link_total link_path w1) as [w' Hrm].
    destruct (create_item_link_total img source_path link_path w') as [w2 Hmk].
    exists w2. assert (Hres : link_image cfg all_folders alb album_path img w = (inr tt, w2)).
    { rewrite Himg. unfold mbind, M_bind. by rewrite Hrm. }
    split; [done|]. intros rest. by rewrite for_each_cons, Hres.
  - intros w' e. apply create_item_link_failure.
  - intros place content Hres w_gone.
    destruct (unlink_regular_file img source_path link_path w1 place content Hres)
      as [Hex Hgone].
    fold w_gone in Hex, Hgone. rewrite Himg, Hgone. split; [done|]. split.
    + intros w3 Hsym. unfold create_item_link, try_except.
      unfold mbind at 1, M_bind at 1. by rewrite path_exists_eq, Hex, Hsym.
    + intros e Hsym. by apply create_item_link_failure.
  - intros place Hres. rewrite Himg. by apply (keep_directory _ _ _ _ place).
Qed.

Definition good_cache : gmap string pyval :=
  {[ "2" := PyList [PyStr "/Photos/2023"; PyInt 0] ]}.

Definition summer_dir : list string := ["home"; "u"; "albums"; "2023"; "2023 Summer"].

(** The link tree with the directory of the album made, and something
    already at the place of the link of the image. *)
Definition occupied_fs (occupant : node) : filesystem :=
  <[ summer_dir ++ ["photo1.jpg"] := occupant ]>
    (<[ summer_dir := Dir ]>
       (<[ ["home"; "u"; "albums"; "2023"] := Dir ]>
          (<[ ["home"; "u"; "albums"] := Dir ]> home_fs))).

Lemma item_link_failure_continues_witness :
  ∃ w2, link_image template_config good_cache summer_album
          (album_dir "2023" summer_album) photo1 (world_of home_fs) = (inr tt, w2).
Proof.
  destruct (ensure_owner_link "/Volumes/homes/User1/Photos" photo1 (world_of home_fs))
    as [r w1] eqn:Hown.
  assert (Hr : r = inr tt).
  { apply (f_equal fst) in Hown. cbn [fst] in Hown. rewrite <- Hown.
    vm_compute. reflexivity. }
  subst r.
  assert (Hrec : good_cache !! str_int (i_folder_id photo1)
                 = Some (PyList [PyStr "/Photos/2023"; PyInt 0])) by reflexivity.
  assert (Hunpack : unpack_record (PyList [PyStr "/Photos/2023"; PyInt 0])
                    = Some ("/Photos/2023", i_owner_user_id photo1)) by reflexivity.
  assert (Hroot : PHOTO_ROOTS template_config !! i_owner_user_id photo1
                  = Some "/Volumes/homes/User1/Photos") by reflexivity.
  destruct (item_link_failure_continues template_config good_cache summer_album
              (album_dir "2023" summer_album) photo1 _ _ _ _ _
              Hrec Hunpack Hroot Hown eq_refl eq_refl) as [(w2 & Hw2 & _) _].
  exists w2. exact Hw2.
Defined.

(** The run of the witness: the directory of the album was not made, the
    link cannot be created, and the failure is written out. *)
Example missing_album_dir_logged :
  let r := link_image template_config good_cache summer_album
             (album_dir "2023" summer_album) photo1 (world_of home_fs) in
  r.1 = inr tt ∧ w_out r.2 = [SymlinkErrorLine "photo1.jpg" ENOENT].
Proof. vm_compute. split; reflexivity. Qed.

(** C10 as worded fails for a file that is not a link at the place of the
    link: a regular file is removed and replaced, a directory is kept and
    the image passed over, and in neither case is anything written. *)
Lemma occupied_target_counterexample :
  (link_image template_config good_cache summer_album
     (album_dir "2023" summer_album) photo1 (world_of (occupied_fs (File None)))).1
  = inr tt ∧
  w_out (link_image template_config good_cache summer_album
           (album_dir "2023" summer_album) photo1
           (world_of (occupied_fs (File None)))).2 = [] ∧
  w_fs (link_image template_config good_cache summer_album
          (album_dir "2023" summer_album) photo1
          (world_of (occupied_fs (File None)))).2 !! (summer_dir ++ ["photo1.jpg"])
  = Some (Symlink "../../users/0/Photos/2023/photo1.jpg") ∧
  (link_image template_config good_cache summer_album
     (album_dir "2023" summer_album) photo1 (world_of (occupied_fs Dir))).1
  = inr tt ∧
  w_out (link_image template_config good_cache summer_album
           (album_dir "2023" summer_album) photo1
           (world_of (occupied_fs Dir))).2 = [] ∧
  w_fs (link_image template_config good_cache summer_album
          (album_dir "2023" summer_album) photo1
          (world_of (occupied_fs Dir))).2 !! (summer_dir ++ ["photo1.jpg"])
  = Some Dir.
Proof. vm_compute. repeat split; reflexivity. Qed.

(** ** Strings and paths *)

(** A name that is one component of a path: no slash, not empty, not a
    dot; [plain] names are moreover not the parent directory. *)
Definition slash_free (s : string) : bool :=
  str_forallb (λ c, negb (Ascii.eqb c "/")) s.

Definition component (s : string) : bool :=
  slash_free s && negb (String.eqb s "") && negb (String.eqb s ".").

Definition plain (s : string) : bool :=
  component s && negb (String.eqb s "..").

(** The bytes of a year: the digits and the sign that [str] of an [int]
    prints, and the bytes of the characters beyond ASCII. *)
Definition year_char (c : ascii) : bool :=
  is_digit c || Ascii.eqb c "-" || (128 <=? N_of_ascii c)%N.

Lemma str_forallb_impl (p q : ascii → bool) s :
  (∀ c, p c = true → q c = true) → str_forallb p s = true → str_forallb q s = true.
Proof.
  intros Hpq. induction s as [|c s IH]; simpl; [done|].
  intros [Hc Hs]%andb_true_iff. by rewrite (Hpq c Hc), IH.
Qed.

Lemma year_char_not_slash c : year_char c = true → negb (Ascii.eqb c "/") = true.
Proof. destruct c as [[] [] [] [] [] [] [] []]; done. Qed.

Lemma year_chars_plain s :
  str_forallb year_char s = true → s ≠ "" → plain s = true ∧ s ≠ "users".
Proof.
  intros Hs Hne. destruct s as [|c s]; [done|]. simpl in Hs.
  apply andb_true_iff in Hs as [Hc Hs].
  assert (Hslash : slash_free (String c s) = true).
  { unfold slash_free. simpl. rewrite (year_char_not_slash c Hc). simpl.
    apply (str_forallb_impl year_char); [apply year_char_not_slash | done]. }
  unfold plain, component. rewrite Hslash. simpl.
  destruct c as [[] [] [] [] [] [] [] []]; try done.
Qed.

Lemma pretty_N_char_digit d : is_digit (pretty_N_char d) = true.
Proof. unfold pretty_N_char. by repeat case_match. Qed.

Lemma pretty_N_go_chars x s :
  str_forallb year_char s = true → s ≠ "" →
  str_forallb year_char (pretty_N_go x s) = true ∧ pretty_N_go x s ≠ "".
Proof.
  revert s. induction (N.lt_wf_0 x) as [x _ IH]. intros s Hs Hne.
  destruct (decide (x = 0)%N) as [-> | Hx].
  - by rewrite pretty_N_go_0.
  - rewrite pretty_N_go_step by lia. apply IH.
    + apply N.div_lt; lia.
    + simpl. rewrite Hs. unfold year_char. by rewrite pretty_N_char_digit.
    + done.
Qed.

Lemma pretty_N_chars (x : N) :
  str_forallb year_char (pretty x) = true ∧ pretty x ≠ "".
Proof.
  unfold pretty, pretty_N. destruct (decide (x = 0)%N) as [-> | Hx]; [done|].
  rewrite pretty_N_go_step by lia. apply pretty_N_go_chars; [|done].
  simpl. unfold year_char. by rewrite pretty_N_char_digit.
Qed.

Lemma str_int_chars z : str_forallb year_char (str_int z) = true ∧ str_int z ≠ "".
Proof.
  unfold str_int, pretty, pretty_Z. destruct z as [|p|p]; [done| apply pretty_N_chars |].
  destruct (pretty_N_chars (N.pos p)) as [Hc _]. split; [|done]. done.
Qed.

Lemma str_int_plain z : plain (str_int z) = true.
Proof. destruct (str_int_chars z). by apply year_chars_plain. Qed.

Lemma digit_year_char c : is_digit c = true → year_char c = true.
Proof. unfold year_char. by intros ->. Qed.

Lemma continuation_year_char c x : continuation c = Some x → year_char c = true.
Proof.
  unfold continuation, year_char. case_match eqn:H; [|done]. intros _.
  apply andb_true_iff in H as [-> _]. by rewrite orb_true_r.
Qed.

(** The bytes of a decimal digit are bytes of a year. *)
Lemma decimal_year_chars s cp c rest :
  decode_char s = Some (cp, c, rest) → is_decimal cp = true →
  str_forallb year_char c = true.
Proof.
  unfold decode_char. intros H Hd.
  assert (Hhigh : ∀ b, (b <? 128)%N = false →
            year_char (ascii_of_N b) = true ∨ True) by auto.
  destruct s as [|c0 r0]; [done|].
  destruct (N_of_ascii c0 <? 128)%N eqn:H0.
  { injection H as <- <- <-. rewrite is_decimal_ascii in Hd by done.
    simpl. by rewrite (digit_year_char c0 Hd). }
  assert (Hc0 : year_char c0 = true).
  { unfold year_char. apply N.ltb_ge in H0. apply N.leb_le in H0.
    by rewrite H0, orb_true_r. }
  repeat case_match; simplify_eq; simpl;
    rewrite ?Hc0; simpl;
    repeat match goal with
           | Hx : continuation ?c = Some _ |- _ =>
             rewrite (continuation_year_char c _ Hx); clear Hx
           end; done.
Qed.

Lemma leading_decimals_chars n s digits rest :
  leading_decimals n s = Some (digits, rest) →
  str_forallb year_char digits = true ∧ (n ≠ O → digits ≠ "").
Proof.
  revert s digits. induction n as [|n IH]; intros s digits; simpl.
  { by intros [= <- <-]. }
  destruct (decode_char s) as [[[cp c] r]|] eqn:Hc; [|done].
  destruct (is_decimal cp) eqn:Hd; [|done].
  destruct (leading_decimals n r) as [[g r']|] eqn:Hg; [|done].
  intros [= <- <-]. apply IH in Hg as [Hg _].
  pose proof (decimal_year_chars _ _ _ _ Hc Hd) as Hchars.
  apply decode_char_app in Hc as [_ Hne]. split.
  - clear Hne. induction c as [|x c IHc]; simpl in *; [done|].
    apply andb_true_iff in Hchars as [-> Hchars]. by apply IHc.
  - intros _. by destruct c.
Qed.

(** The year of an album is made of digits (and a sign), so it is a plain
    name and not the name [users]. *)
Lemma get_album_year_plain utcoffset album_timestamp album_name y :
  get_album_year utcoffset album_timestamp album_name = inr y →
  plain y = true ∧ y ≠ "users".
Proof.
  unfold get_album_year. destruct (fromtimestamp _ _) as [e | d]; [done|].
  unfold re_match_4_digits.
  destruct (leading_decimals 4 album_name) as [[digits rest]|] eqn:H4.
  - intros [= <-]. apply leading_decimals_chars in H4 as [Hc Hne].
    apply year_chars_plain; auto.
  - unfold re_match_2_digit. destruct album_name as [|c name].
    { intros [= <-]. destruct (str_int_chars (year d)). by apply year_chars_plain. }
    destruct (Ascii.eqb_spec c "2") as [-> | Hc].
    + destruct (leading_decimals 1 name) as [[digit rest]|] eqn:H1.
      * intros [= <-]. apply leading_decimals_chars in H1 as [Hc _].
        apply year_chars_plain; [|done]. simpl. exact Hc.
      * intros [= <-]. destruct (str_int_chars (year d)). by apply year_chars_plain.
    + assert (Hy : y = str_int (year d) → plain y = true ∧ y ≠ "users").
      { intros ->. destruct (str_int_chars (year d)). by apply year_chars_plain. }
      destruct c as [[] [] [] [] [] [] [] []]; try (intros [= <-]; by apply Hy);
        done.
Qed.

Lemma str_replace_slash_free s : slash_free (str_replace "/" "_" s) = true.
Proof.
  unfold slash_free. induction s as [|c s IH]; simpl; [done|].
  rewrite IH, andb_true_r. by destruct (Ascii.eqb c "/") eqn:Hc; [|rewrite Hc].
Qed.

Lemma str_split_slash_free s : slash_free s = true → str_split "/" s = [s].
Proof.
  unfold slash_free. induction s as [|c s IH]; simpl; [done|].
  intros [Hc Hs]%andb_true_iff. apply negb_true_iff in Hc. rewrite Hc.
  by rewrite (IH Hs).
Qed.

Lemma str_split_app x y :
  slash_free x = true → str_split "/" (x +:+ "/" +:+ y) = x :: str_split "/" y.
Proof.
  unfold slash_free. induction x as [|c x IH]; simpl; [done|].
  intros [Hc Hx]%andb_true_iff. apply negb_true_iff in Hc. rewrite Hc.
  by rewrite (IH Hx).
Qed.

Lemma str_split_join parts :
  parts ≠ [] → Forall (λ x, slash_free x = true) parts →
  str_split "/" (str_join "/" parts) = parts.
Proof.
  induction parts as [|x parts IH]; [done|]. intros _ Hall.
  apply Forall_cons in Hall as [Hx Hall]. destruct parts as [|y parts].
  - simpl. by apply str_split_slash_free.
  - change (str_join "/" (x :: y :: parts))
      with (x +:+ "/" +:+ str_join "/" (y :: parts)).
    rewrite str_split_app by done. f_equal. by apply IH.
Qed.

Lemma str_split_nonempty sep s : str_split sep s ≠ [].
Proof.
  destruct s as [|c s]; simpl; [done|].
  destruct (Ascii.eqb c sep); [done|]. by destruct (str_split sep s).
Qed.

Lemma str_join_split s : str_join "/" (str_split "/" s) = s.
Proof.
  induction s as [|c s IH]; [done|]. simpl.
  pose proof (str_split_nonempty "/" s) as Hne.
  destruct (Ascii.eqb c "/") eqn:Hc.
  - apply Ascii.eqb_eq in Hc as ->.
    destruct (str_split "/" s) as [|w ws]; [done|]. by rewrite <- IH.
  - destruct (str_split "/" s) as [|w ws]; [done|].
    rewrite <- IH. by destruct ws.
Qed.

Lemma starts_with_slash c r :
  match String c r with String "/" _ => true | _ => false end = Ascii.eqb c "/".
Proof. destruct c as [[] [] [] [] [] [] [] []]; done. Qed.

Lemma splitroot_relative c r :
  Ascii.eqb c "/" = false → splitroot (String c r) = ("", String c r).
Proof. destruct c as [[] [] [] [] [] [] [] []]; done. Qed.

Lemma component_inv s :
  component s = true →
  slash_free s = true ∧ keep_part s = true ∧
  ∃ c r, s = String c r ∧ Ascii.eqb c "/" = false.
Proof.
  unfold component, keep_part.
  intros [[Hslash Hne]%andb_true_iff Hdot]%andb_true_iff.
  split; [done|]. split; [by rewrite Hne, Hdot|].
  destruct s as [|c r]; [done|]. exists c, r. split; [done|].
  unfold slash_free in Hslash. simpl in Hslash.
  apply andb_true_iff in Hslash as [Hc _]. by apply negb_true_iff in Hc.
Qed.

Lemma plain_component s : plain s = true → component s = true.
Proof. unfold plain. by intros [? _]%andb_true_iff. Qed.

Lemma path_of_component s : component s = true → path_of s = MkPath "" [s].
Proof.
  intros (Hslash & Hkeep & c & r & -> & Hc)%component_inv.
  unfold path_of. rewrite splitroot_relative by done.
  rewrite str_split_slash_free by done. simpl. by rewrite Hkeep.
Qed.

Lemma truediv_component p s :
  component s = true → p /: s = MkPath (p_root p) (p_parts p ++ [s]).
Proof. intros Hs. unfold truediv. by rewrite path_of_component. Qed.

Lemma path_str_relative x parts :
  path_str (MkPath "" (x :: parts)) = str_join "/" (x :: parts).
Proof. done. Qed.

Lemma str_join_cons_first c r parts :
  ∃ r', str_join "/" (String c r :: parts) = String c r'.
Proof. destruct parts; simpl; eauto. Qed.

Lemma os_path_join x parts :
  Forall (λ s, component s = true) (x :: parts) →
  String.eqb (str_join "/" (x :: parts)) "" = false ∧
  os_path (str_join "/" (x :: parts)) = (false, x :: parts).
Proof.
  intros Hall. pose proof Hall as Hx. apply Forall_cons in Hx as [Hx _].
  apply component_inv in Hx as (_ & _ & c & r & -> & Hc).
  destruct (str_join_cons_first c r parts) as [r' Hr'].
  split; [by rewrite Hr'|]. unfold os_path. f_equal.
  - by rewrite Hr', starts_with_slash.
  - apply str_split_join; [done|].
    eapply Forall_impl; [done|]. intros s Hs. by apply component_inv in Hs as [? _].
Qed.

Lemma resolve_relative fs cwd follow x parts :
  Forall (λ s, component s = true) (x :: parts) →
  resolve fs cwd follow (path_str (MkPath "" (x :: parts)))
  = walk MAXSYMLINKS fs follow cwd (x :: parts).
Proof.
  intros Hall. rewrite path_str_relative. unfold resolve.
  destruct (os_path_join x parts Hall) as [-> ->]. done.
Qed.

(** One step of a walk over a plain name. *)
Lemma walk_cons_plain links fs follow cur c rest :
  plain c = true →
  walk links fs follow cur (c :: rest) =
  match fs !! (cur ++ [c]) with
  | None => match rest with [] => inr (Missing (cur ++ [c])) | _ => inl ENOENT end
  | Some Dir => walk links fs follow (cur ++ [c]) rest
  | Some (File content) =>
    match rest with [] => inr (Found (cur ++ [c]) (File content)) | _ => inl ENOTDIR end
  | Some (Symlink target) =>
    match rest, follow with
    | [], false => inr (Found (cur ++ [c]) (Symlink target))
    | _, _ => enter_link links fs follow cur target rest
    end
  end.
Proof.
  unfold plain, component.
  intros [[[_ He]%andb_true_iff Hd]%andb_true_iff Hdd]%andb_true_iff.
  apply negb_true_iff in He, Hd, Hdd.
  rewrite !walk_unfold. simpl. by rewrite He, Hd, Hdd.
Qed.

Lemma walk_nil links fs follow cur : walk links fs follow cur [] = inr (Found cur Dir).
Proof. by rewrite walk_unfold. Qed.

(** The places of the directories on the way down [parts] from [cur]. *)
Fixpoint prefix_paths (cur : list string) (parts : list string) : list (list string) :=
  match parts with
  | [] => []
  | c :: rest => (cur ++ [c]) :: prefix_paths (cur ++ [c]) rest
  end.

Definition dir_at (fs : filesystem) (q : list string) : Prop := fs !! q = Some Dir.

Definition dir_slot (fs : filesystem) (q : list string) : Prop :=
  fs !! q = None ∨ fs !! q = Some Dir.

Definition make_dirs (cur parts : list string) (fs : filesystem) : filesystem :=
  foldr (λ q acc, <[q := Dir]> acc) fs (prefix_paths cur parts).

Lemma prefix_paths_snoc cur pre c :
  prefix_paths cur (pre ++ [c]) = prefix_paths cur pre ++ [cur ++ pre ++ [c]].
Proof.
  revert cur. induction pre as [|x pre IH]; intros cur; simpl; [done|].
  by rewrite IH, <- !app_assoc.
Qed.

Lemma prefix_paths_length cur parts q :
  q ∈ prefix_paths cur parts →
  (length cur < length q ≤ length cur + length parts)%nat.
Proof.
  revert cur. induction parts as [|c parts IH]; intros cur; simpl.
  - by intros ?%elem_of_nil.
  - intros [-> | Hq%IH]%elem_of_cons; rewrite ?length_app in *; simpl in *; lia.
Qed.

Lemma make_dirs_lookup cur parts fs q :
  make_dirs cur parts fs !! q
  = if bool_decide (q ∈ prefix_paths cur parts) then Some Dir else fs !! q.
Proof.
  unfold make_dirs. induction (prefix_paths cur parts) as [|p ps IH]; cbn [foldr].
  - by rewrite bool_decide_false by apply not_elem_of_nil.
  - destruct (decide (p = q)) as [-> | Hne].
    + rewrite lookup_insert_eq. rewrite bool_decide_true; [done | left].
    + rewrite lookup_insert_ne by done. rewrite IH.
      apply (f_equal (λ b : bool, if b then Some Dir else fs !! q)).
      apply bool_decide_ext. rewrite elem_of_cons. naive_solver.
Qed.

Lemma make_dirs_id cur parts fs :
  Forall (dir_at fs) (prefix_paths cur parts) → make_dirs cur parts fs = fs.
Proof.
  intros Hall. apply map_eq. intros q. rewrite make_dirs_lookup.
  case_bool_decide as Hq; [|done].
  rewrite Forall_forall in Hall. symmetry. by apply Hall.
Qed.

Lemma make_dirs_snoc cur pre c fs :
  make_dirs cur (pre ++ [c]) fs = <[cur ++ pre ++ [c] := Dir]> (make_dirs cur pre fs).
Proof.
  apply map_eq. intros q. rewrite make_dirs_lookup, prefix_paths_snoc.
  destruct (decide (q = cur ++ pre ++ [c])) as [-> | Hne].
  - rewrite lookup_insert_eq. rewrite bool_decide_true; [done|]. set_solver.
  - rewrite lookup_insert_ne by done. rewrite make_dirs_lookup.
    apply (f_equal (λ b : bool, if b then Some Dir else fs !! q)).
    apply bool_decide_ext. set_solver.
Qed.

Lemma make_dirs_dirs cur parts fs : Forall (dir_at (make_dirs cur parts fs)) (prefix_paths cur parts).
Proof.
  apply Forall_forall. intros q Hq. unfold dir_at.
  by rewrite make_dirs_lookup, bool_decide_true.
Qed.

(** Walking down directories that exist. *)
Lemma walk_dirs links fs follow cur pre rest :
  Forall (λ s, plain s = true) pre → Forall (dir_at fs) (prefix_paths cur pre) →
  walk links fs follow cur (pre ++ rest) = walk links fs follow (cur ++ pre) rest.
Proof.
  revert cur. induction pre as [|c pre IH]; intros cur Hplain Hdirs; simpl.
  - by rewrite app_nil_r.
  - apply Forall_cons in Hplain as [Hc Hplain]. simpl in Hdirs.
    apply Forall_cons in Hdirs as [Hd Hdirs].
    rewrite walk_cons_plain by done. unfold dir_at in Hd. rewrite Hd.
    rewrite IH by done. by rewrite <- app_assoc.
Qed.

(** Walking down places that hold directories or nothing. *)
Lemma walk_slots links fs follow cur parts :
  parts ≠ [] → Forall (λ s, plain s = true) parts →
  Forall (dir_slot fs) (prefix_paths cur parts) →
  (walk links fs follow cur parts = inr (Found (cur ++ parts) Dir) ∧
   Forall (dir_at fs) (prefix_paths cur parts)) ∨
  (walk links fs follow cur parts = inr (Missing (cur ++ parts)) ∧
   fs !! (cur ++ parts) = None ∧
   Forall (dir_at fs) (prefix_paths cur (removelast parts))) ∨
  walk links fs follow cur parts = inl ENOENT.
Proof.
  revert cur. induction parts as [|c parts IH]; intros cur Hne Hplain Hslots; [done|].
  apply Forall_cons in Hplain as [Hc Hplain]. simpl in Hslots.
  apply Forall_cons in Hslots as [Hslot Hslots].
  rewrite walk_cons_plain by done. destruct Hslot as [Hnone | Hdir].
  - rewrite Hnone. destruct parts as [|c' parts]; [|by right; right].
    right; left. split; [done|]. split; [done|]. simpl. constructor.
  - rewrite Hdir. destruct parts as [|c' parts].
    + rewrite walk_nil. left. split; [done|]. simpl. by repeat constructor.
    + destruct (IH (cur ++ [c])) as [[Hw Hd] | [(Hw & Hn & Hd) | Hw]]; try done;
        rewrite <- ?app_assoc in *; cbn [app] in *.
      * left. split; [done|]. simpl. by constructor.
      * right; left. split; [done|]. split; [done|].
        change (removelast (c :: c' :: parts)) with (c :: removelast (c' :: parts)).
        simpl. by constructor.
      * by right; right.
Qed.

(** ** [mkdir(parents=True, exist_ok=True)] over directories or nothing *)

Lemma set_fs_id w : set_fs (w_fs w) w = w.
Proof. by destruct w. Qed.

Lemma resolve_relative_parts fs cwd follow parts :
  parts ≠ [] → Forall (λ s, plain s = true) parts →
  resolve fs cwd follow (path_str (MkPath "" parts))
  = walk MAXSYMLINKS fs follow cwd parts.
Proof.
  intros Hne Hplain. destruct parts as [|x parts]; [done|].
  apply resolve_relative. eapply Forall_impl; [done|]. apply plain_component.
Qed.

Lemma walk_all_dirs links fs follow cur parts :
  Forall (λ s, plain s = true) parts → Forall (dir_at fs) (prefix_paths cur parts) →
  walk links fs follow cur parts = inr (Found (cur ++ parts) Dir).
Proof.
  intros Hplain Hdirs. rewrite <- (app_nil_r parts) at 1.
  rewrite walk_dirs by done. apply walk_nil.
Qed.

Lemma os_mkdir_relative parts w :
  parts ≠ [] → Forall (λ s, plain s = true) parts →
  os_mkdir (path_str (MkPath "" parts)) w
  = match walk MAXSYMLINKS (w_fs w) false (w_cwd w) parts with
    | inl e => (inl (OSError e), w)
    | inr (Found _ _) => (inl (OSError EEXIST), w)
    | inr (Missing place) => (inr tt, set_fs (<[place := Dir]> (w_fs w)) w)
    end.
Proof. intros Hne Hplain. unfold os_mkdir. by rewrite resolve_relative_parts. Qed.

Lemma path_is_dir_relative parts w :
  parts ≠ [] → Forall (λ s, plain s = true) parts →
  path_is_dir (MkPath "" parts) w
  = (inr match walk MAXSYMLINKS (w_fs w) true (w_cwd w) parts with
         | inr (Found _ Dir) => true
         | _ => false
         end, w).
Proof.
  intros Hne Hplain. unfold path_is_dir, try_except, mbind, M_bind, os_stat.
  rewrite resolve_relative_parts by done.
  by destruct (walk _ _ _ _ _) as [e | [place [| content | target] | place]].
Qed.

Lemma prefix_paths_not_longer cur pre c : cur ++ pre ++ [c] ∉ prefix_paths cur pre.
Proof.
  intros Hq%prefix_paths_length. rewrite !length_app in Hq. simpl in Hq. lia.
Qed.

(** [mkdir -p] of a relative path of plain names, every place on the way
    holding a directory or nothing: it succeeds, and afterwards every place
    on the way holds a directory. *)
Lemma path_mkdir_parents_slots rparts w :
  Forall (λ s, plain s = true) (rev rparts) →
  Forall (dir_slot (w_fs w)) (prefix_paths (w_cwd w) (rev rparts)) →
  path_mkdir_parents "" rparts w
  = (inr tt, set_fs (make_dirs (w_cwd w) (rev rparts) (w_fs w)) w).
Proof.
  revert w. induction rparts as [|c rp IH]; intros w Hplain Hslots.
  { unfold make_dirs. simpl. rewrite set_fs_id. reflexivity. }
  cbn [rev] in *.
  assert (Hne : rev rp ++ [c] ≠ []) by (by destruct (rev rp)).
  pose proof Hplain as [Hplain_rp Hc]%Forall_app. rewrite Forall_singleton in Hc.
  pose proof Hslots as Hslots'. rewrite prefix_paths_snoc in Hslots'.
  apply Forall_app in Hslots' as [Hslots_rp Hlast]. rewrite Forall_singleton in Hlast.
  cbn [path_mkdir_parents rev]. unfold try_except.
  rewrite os_mkdir_relative by done.
  destruct (walk_slots MAXSYMLINKS (w_fs w) false (w_cwd w) (rev rp ++ [c]) Hne Hplain Hslots)
    as [[Hw Hd] | [(Hw & Hn & Hd) | Hw]]; rewrite Hw.
  - unfold mbind, M_bind. rewrite path_is_dir_relative by done.
    rewrite walk_all_dirs by done. unfold mret, M_ret.
    by rewrite make_dirs_id, set_fs_id.
  - rewrite removelast_last in Hd.
    by rewrite make_dirs_snoc, (make_dirs_id _ (rev rp)).
  - unfold mbind at 1, M_bind at 1. rewrite IH by done.
    set (fs1 := make_dirs (w_cwd w) (rev rp) (w_fs w)).
    assert (Hlast1 : fs1 !! (w_cwd w ++ rev rp ++ [c]) = w_fs w !! (w_cwd w ++ rev rp ++ [c])).
    { unfold fs1. rewrite make_dirs_lookup.
      rewrite bool_decide_false; [done|]. apply prefix_paths_not_longer. }
    assert (Hwalk : ∀ follow,
      walk MAXSYMLINKS fs1 follow (w_cwd w) (rev rp ++ [c])
      = match w_fs w !! (w_cwd w ++ rev rp ++ [c]) with
        | None => inr (Missing (w_cwd w ++ rev rp ++ [c]))
        | Some _ => inr (Found (w_cwd w ++ rev rp ++ [c]) Dir)
        end).
    { intros follow. rewrite walk_dirs; [|done|apply make_dirs_dirs].
      rewrite walk_cons_plain by done. rewrite <- app_assoc, Hlast1.
      destruct Hlast as [-> | ->]; [done|]. by rewrite walk_nil. }
    unfold path_mkdir_exist_ok, try_except. rewrite os_mkdir_relative by done.
    cbn [w_fs w_cwd set_fs]. rewrite Hwalk.
    rewrite make_dirs_snoc. fold fs1.
    destruct Hlast as [Hl | Hl]; rewrite Hl.
    + done.
    + unfold mbind, M_bind. rewrite path_is_dir_relative by done.
      cbn [w_fs w_cwd set_fs]. rewrite Hwalk, Hl. unfold mret, M_ret.
      rewrite insert_id; [done|]. by rewrite Hlast1.
Qed.

(** ** The link tree *)

(** The places of the link tree that hold directories: [albums], what is
    directly in it, and the directories of the albums under each year. *)
Definition tree_ok (cwd : list string) (fs : filesystem) : Prop :=
  dir_slot fs (cwd ++ ["albums"]) ∧
  (∀ x, dir_slot fs (cwd ++ ["albums"; x])) ∧
  (∀ y x, y ≠ "users" → dir_slot fs (cwd ++ ["albums"; y; x])).

Definition owner_link_place (cwd : list string) (owner_id : Z) : list string :=
  cwd ++ ["albums"; "users"; str_int owner_id].

Definition album_place (cwd : list string) (y n : string) : list string :=
  cwd ++ ["albums"; y; n].

Definition item_place (cwd : list string) (y n f : string) : list string :=
  cwd ++ ["albums"; y; n; f].

(** The directory of an album is there. *)
Definition album_made (cwd : list string) (fs : filesystem) (y n : string) : Prop :=
  dir_at fs (cwd ++ ["albums"]) ∧ dir_at fs (cwd ++ ["albums"; y]) ∧
  dir_at fs (album_place cwd y n).

(** The world after lines 111-121, in closed form. *)
Definition owner_step (rootstr : string) (img : image) (w : world) : world :=
  let fs1 := make_dirs (w_cwd w) ["albums"; "users"] (w_fs w) in
  let place := owner_link_place (w_cwd w) (i_owner_user_id img) in
  match fs1 !! place with
  | None =>
    World (<[place := Symlink rootstr]> fs1) (w_cwd w) (w_utcoffset w) (w_out w)
          (w_symlinks w ++ [(place, rootstr)])
  | Some _ =>
    if exists_in (set_fs fs1 w)
                 (MkPath "" ["albums"; "users"; str_int (i_owner_user_id img)])
    then set_fs fs1 w
    else emit [SymlinkErrorLine (i_filename img) EEXIST] (set_fs fs1 w)
  end.

(** The world after lines 135-145, in closed form. *)
Definition item_step (place : list string) (src : string) (w : world) : world :=
  match w_fs w !! place with
  | Some Dir => w
  | _ => World (<[place := Symlink src]> (w_fs w)) (w_cwd w) (w_utcoffset w)
               (w_out w) (w_symlinks w ++ [(place, src)])
  end.

Lemma owner_link_path_parts owner_id :
  path_of "albums" /: "users" /: str_int owner_id
  = MkPath "" ["albums"; "users"; str_int owner_id].
Proof.
  rewrite (truediv_component _ (str_int owner_id));
    [done | apply plain_component, str_int_plain].
Qed.

Lemma album_dir_parts y alb :
  plain y = true → plain (str_replace "/" "_" (a_name alb)) = true →
  album_dir y alb = MkPath "" ["albums"; y; str_replace "/" "_" (a_name alb)].
Proof.
  intros Hy Hn. unfold album_dir.
  by rewrite !truediv_component by by apply plain_component.
Qed.

Lemma tree_ok_users_slots cwd fs :
  tree_ok cwd fs → Forall (dir_slot fs) (prefix_paths cwd ["albums"; "users"]).
Proof.
  intros (Ha & Hx & _). simpl. rewrite <- app_assoc.
  apply Forall_cons; split; [done|]. apply Forall_cons; split; [apply Hx|]. constructor.
Qed.

Lemma tree_ok_album_slots cwd fs y n :
  tree_ok cwd fs → y ≠ "users" →
  Forall (dir_slot fs) (prefix_paths cwd ["albums"; y; n]).
Proof.
  intros (Ha & Hx & Hyx) Hy. simpl. rewrite <- !app_assoc.
  apply Forall_cons; split; [done|]. apply Forall_cons; split; [apply Hx|].
  apply Forall_cons; split; [by apply Hyx|]. constructor.
Qed.

Lemma ensure_owner_link_closed root img w :
  tree_ok (w_cwd w) (w_fs w) →
  ensure_owner_link root img w
  = (inr tt, owner_step (path_str (path_of root)) img w).
Proof.
  intros Htree. unfold ensure_owner_link. rewrite owner_link_path_parts.
  set (sid := str_int (i_owner_user_id img)).
  assert (Hsid : plain sid = true) by apply str_int_plain.
  unfold mbind at 1, M_bind at 1.
  change (path_mkdir (path_parent (MkPath "" ["albums"; "users"; sid])))
    with (path_mkdir_parents "" ["users"; "albums"]).
  rewrite path_mkdir_parents_slots; [|by repeat constructor|by apply tree_ok_users_slots].
  cbn [rev app]. unfold owner_step. fold sid.
  set (fs1 := make_dirs (w_cwd w) ["albums"; "users"] (w_fs w)).
  set (place := owner_link_place (w_cwd w) (i_owner_user_id img)).
  assert (Hparts : Forall (λ s, plain s = true) ["albums"; "users"; sid])
    by by repeat constructor.
  assert (Hwalk : ∀ follow,
    resolve fs1 (w_cwd w) follow (path_str (MkPath "" ["albums"; "users"; sid]))
    = walk MAXSYMLINKS fs1 follow (w_cwd w ++ ["albums"; "users"]) [sid]).
  { intros follow. rewrite resolve_relative_parts by done.
    apply (walk_dirs _ _ _ _ ["albums"; "users"] [sid]); [by repeat constructor|].
    apply make_dirs_dirs. }
  unfold try_except. unfold mbind at 1, M_bind at 1. rewrite path_exists_eq.
  destruct (fs1 !! place) as [n|] eqn:Hplace.
  - destruct (exists_in (set_fs fs1 w) _) eqn:Hex; [done|].
    unfold os_symlink.
    rewrite (proj2 (String.eqb_neq _ _) (path_str_nonempty _ (path_of_wf root))).
    cbn [w_fs w_cwd set_fs]. rewrite Hwalk, walk_cons_plain by done.
    unfold place, owner_link_place in Hplace. fold sid in Hplace.
    rewrite <- app_assoc. cbn [app]. rewrite Hplace.
    destruct n as [| content | target]; [by rewrite walk_nil | done..].
  - assert (Hex : exists_in (set_fs fs1 w) (MkPath "" ["albums"; "users"; sid]) = false).
    { unfold exists_in. cbn [w_fs w_cwd set_fs]. rewrite Hwalk, walk_cons_plain by done.
      unfold place, owner_link_place in Hplace. fold sid in Hplace.
      rewrite <- app_assoc. cbn [app]. by rewrite Hplace. }
    rewrite Hex. unfold os_symlink.
    rewrite (proj2 (String.eqb_neq _ _) (path_str_nonempty _ (path_of_wf root))).
    cbn [w_fs w_cwd set_fs]. rewrite Hwalk, walk_cons_plain by done.
    unfold place, owner_link_place in Hplace. fold sid in Hplace.
    rewrite <- app_assoc. cbn [app]. rewrite Hplace. done.
Qed.

Lemma album_mkdir_closed y alb w :
  tree_ok (w_cwd w) (w_fs w) → plain y = true → y ≠ "users" →
  plain (str_replace "/" "_" (a_name alb)) = true →
  path_mkdir (album_dir y alb) w
  = (inr tt, set_fs (make_dirs (w_cwd w)
                       ["albums"; y; str_replace "/" "_" (a_name alb)] (w_fs w)) w).
Proof.
  intros Htree Hy Hyu Hn. rewrite album_dir_parts by done.
  change (path_mkdir (MkPath "" ["albums"; y; str_replace "/" "_" (a_name alb)]))
    with (path_mkdir_parents "" [str_replace "/" "_" (a_name alb); y; "albums"]).
  rewrite path_mkdir_parents_slots; [done| |by apply tree_ok_album_slots].
  cbn [rev app]. by repeat constructor.
Qed.

Lemma album_made_dirs cwd fs y n :
  album_made cwd fs y n → Forall (dir_at fs) (prefix_paths cwd ["albums"; y; n]).
Proof.
  intros (Ha & Hy & Hn). simpl. rewrite <- !app_assoc.
  apply Forall_cons; split; [done|]. apply Forall_cons; split; [done|].
  apply Forall_cons; split; [done|]. constructor.
Qed.

(** Lines 135-145 for a plain file name, in the directory of the album. *)
Lemma item_blocks_closed img source_path y n w :
  let f := i_filename img in
  album_made (w_cwd w) (w_fs w) y n →
  plain y = true → plain n = true → plain f = true →
  path_str source_path ≠ "" →
  (remove_existing_link (MkPath "" ["albums"; y; n; f]) ;;
   create_item_link img source_path (MkPath "" ["albums"; y; n; f])) w
  = (inr tt, item_step (item_place (w_cwd w) y n f) (path_str source_path) w).
Proof.
  intros f Hmade Hy Hn Hf Hsrc.
  assert (Hparts : Forall (λ s, plain s = true) ["albums"; y; n; f])
    by by repeat constructor.
  assert (Hwalk : ∀ fs' follow,
    Forall (dir_at fs') (prefix_paths (w_cwd w) ["albums"; y; n]) →
    resolve fs' (w_cwd w) follow (path_str (MkPath "" ["albums"; y; n; f]))
    = walk MAXSYMLINKS fs' follow (w_cwd w ++ ["albums"; y; n]) [f]).
  { intros fs' follow Hdirs. rewrite resolve_relative_parts by done.
    apply (walk_dirs _ _ _ _ ["albums"; y; n] [f]); [by repeat constructor | done]. }
  pose proof (album_made_dirs _ _ _ _ Hmade) as Hdirs.
  assert (Hres : resolve (w_fs w) (w_cwd w) false
                   (path_str (MkPath "" ["albums"; y; n; f]))
                 = match w_fs w !! item_place (w_cwd w) y n f with
                   | None => inr (Missing (item_place (w_cwd w) y n f))
                   | Some node => inr (Found (item_place (w_cwd w) y n f) node)
                   end).
  { rewrite Hwalk, walk_cons_plain by done. unfold item_place.
    rewrite <- app_assoc. cbn [app].
    destruct (w_fs w !! _) as [[| content | target]|]; [by rewrite walk_nil | done..]. }
  unfold item_step.
  destruct (w_fs w !! item_place (w_cwd w) y n f) as [[| content | target]|] eqn:Hplace.
  - by apply (keep_directory _ _ _ _ (item_place (w_cwd w) y n f)).
  - by apply (replace_regular_file _ _ _ _ (item_place (w_cwd w) y n f) content).
  - assert (Hdirs' : Forall (dir_at (delete (item_place (w_cwd w) y n f) (w_fs w)))
                       (prefix_paths (w_cwd w) ["albums"; y; n])).
    { apply Forall_forall. intros q Hq. rewrite Forall_forall in Hdirs.
      pose proof (Hdirs q Hq) as Hd. apply prefix_paths_length in Hq.
      unfold dir_at. rewrite lookup_delete_ne; [done|]. intros <-.
      unfold item_place in Hq. rewrite length_app in Hq. simpl in Hq. lia. }
    assert (Hafter : ∀ follow,
      resolve (delete (item_place (w_cwd w) y n f) (w_fs w)) (w_cwd w) follow
        (path_str (MkPath "" ["albums"; y; n; f]))
      = inr (Missing (item_place (w_cwd w) y n f))).
    { intros follow. rewrite Hwalk, walk_cons_plain by done. unfold item_place.
      rewrite <- app_assoc. cbn [app]. by rewrite lookup_delete_eq. }
    unfold mbind, M_bind, remove_existing_link, try_except, path_unlink, os_unlink.
    rewrite Hres. cbn [set_fs].
    unfold create_item_link, try_except. unfold mbind at 1, M_bind at 1.
    rewrite path_exists_eq. unfold exists_in. cbn [w_fs w_cwd]. rewrite Hafter.
    unfold os_symlink. cbn [w_fs w_cwd w_out w_symlinks w_utcoffset]. rewrite Hafter.
    apply String.eqb_neq in Hsrc. rewrite Hsrc.
    cbn [set_fs w_fs w_cwd w_out w_symlinks w_utcoffset].
    by rewrite insert_delete_eq.
  - unfold mbind, M_bind, remove_existing_link, try_except, path_unlink, os_unlink.
    rewrite Hres. unfold mret, M_ret.
    unfold create_item_link, try_except. unfold mbind at 1, M_bind at 1.
    rewrite path_exists_eq. unfold exists_in.
    rewrite Hwalk, walk_cons_plain by done. unfold item_place in *.
    rewrite <- app_assoc. cbn [app]. rewrite Hplace.
    unfold os_symlink. rewrite Hres.
    apply String.eqb_neq in Hsrc. by rewrite Hsrc.
Qed.

(** ** What a run does to the file system, as a list of updates *)

Inductive upd :=
  | MkDir (place : list string)
  | OwnerLink (place : list string) (target : string)
  | ItemLink (place : list string) (target : string).

Definition upd_path (u : upd) : list string :=
  match u with MkDir p | OwnerLink p _ | ItemLink p _ => p end.

(** What an update makes of the node at its place: a directory is made; an
    owner link is created where nothing is; the link of an image replaces
    whatever is not a directory. *)
Definition upd_fun (u : upd) (o : option node) : option node :=
  match u with
  | MkDir _ => Some Dir
  | OwnerLink _ target => match o with None => Some (Symlink target) | _ => o end
  | ItemLink _ target => match o with Some Dir => o | _ => Some (Symlink target) end
  end.

Definition apply_upd (fs : filesystem) (u : upd) : filesystem :=
  partial_alter (upd_fun u) (upd_path u) fs.

Definition apply_upds (us : list upd) (fs : filesystem) : filesystem :=
  foldl apply_upd fs us.

Lemma apply_upd_lookup fs u q :
  apply_upd fs u !! q = if decide (upd_path u = q) then upd_fun u (fs !! q) else fs !! q.
Proof.
  unfold apply_upd. destruct (decide (upd_path u = q)) as [<- | Hne].
  - by rewrite lookup_partial_alter_eq.
  - by rewrite lookup_partial_alter_ne.
Qed.

(** The node at [q] after the updates, from the node before. *)
Fixpoint node_after (us : list upd) (q : list string) (o : option node) : option node :=
  match us with
  | [] => o
  | u :: rest =>
    node_after rest q (if decide (upd_path u = q) then upd_fun u o else o)
  end.

Lemma apply_upds_lookup us fs q :
  apply_upds us fs !! q = node_after us q (fs !! q).
Proof.
  revert fs. induction us as [|u us IH]; intros fs; simpl; [done|].
  unfold apply_upds in *. simpl. by rewrite IH, apply_upd_lookup.
Qed.




(** The updates a run makes: directories at the places of directories,
    owner links at the places of the owners that have a photo root, links
    of images four levels down. *)
Definition allowed (cwd : list string) (cfg : config) (u : upd) : Prop :=
  match u with
  | MkDir p =>
    p = cwd ++ ["albums"] ∨ (∃ x, p = cwd ++ ["albums"; x]) ∨
    (∃ y x, y ≠ "users" ∧ p = cwd ++ ["albums"; y; x])
  | OwnerLink p t =>
    ∃ owner_id root, p = owner_link_place cwd owner_id ∧
      PHOTO_ROOTS cfg !! owner_id = Some root ∧ t = path_str (path_of root)
  | ItemLink p _ => ∃ y n f, p = item_place cwd y n f
  end.

Lemma app_cwd_inj (cwd a b : list string) : cwd ++ a = cwd ++ b → a = b.
Proof. apply app_inv_head. Qed.


Lemma dir_slot_apply cwd cfg fs u q :
  allowed cwd cfg u → dir_slot fs q →
  (q = cwd ++ ["albums"] ∨ (∃ x, q = cwd ++ ["albums"; x]) ∨
   (∃ y x, y ≠ "users" ∧ q = cwd ++ ["albums"; y; x])) →
  dir_slot (apply_upd fs u) q.
Proof.
  intros Hu Hq Hshape. unfold dir_slot. rewrite apply_upd_lookup.
  destruct (decide (upd_path u = q)) as [Hpath | Hne]; [|done].
  destruct u as [p | p t | p t]; simpl in *; subst p.
  - by right.
  - destruct Hu as (i & r & -> & _).
    destruct Hshape as [A | [(x & A) | (y & x & Hy & A)]];
      apply app_cwd_inj in A; by simplify_eq.
  - destruct Hu as (y & n & f & ->).
    destruct Hshape as [A | [(x & A) | (y' & x & Hy & A)]];
      apply app_cwd_inj in A; by simplify_eq.
Qed.

Lemma tree_ok_apply cwd cfg fs u :
  allowed cwd cfg u → tree_ok cwd fs → tree_ok cwd (apply_upd fs u).
Proof.
  intros Hu (Ha & Hx & Hyx). split; [|split].
  - apply (dir_slot_apply cwd cfg); [done..|]. by left.
  - intros x. apply (dir_slot_apply cwd cfg); [done | apply Hx |]. right; left. eauto.
  - intros y x Hy. apply (dir_slot_apply cwd cfg); [done | by apply Hyx |].
    right; right. eauto.
Qed.

Lemma tree_ok_apply_upds cwd cfg us fs :
  Forall (allowed cwd cfg) us → tree_ok cwd fs → tree_ok cwd (apply_upds us fs).
Proof.
  revert fs. induction us as [|u us IH]; intros fs Hall Htree; [done|].
  apply Forall_cons in Hall as [Hu Hall]. unfold apply_upds. simpl.
  apply IH; [done|]. by apply (tree_ok_apply cwd cfg).
Qed.

Lemma dir_at_apply cwd cfg fs u q :
  allowed cwd cfg u → dir_at fs q →
  (q = cwd ++ ["albums"] ∨ (∃ x, q = cwd ++ ["albums"; x]) ∨
   (∃ y x, y ≠ "users" ∧ q = cwd ++ ["albums"; y; x])) →
  dir_at (apply_upd fs u) q.
Proof.
  intros Hu Hq Hshape. unfold dir_at in *. rewrite apply_upd_lookup.
  destruct (decide (upd_path u = q)) as [Hpath | Hne]; [|done].
  destruct u as [p | p t | p t]; simpl in *; subst p.
  - done.
  - destruct Hu as (i & r & -> & _).
    destruct Hshape as [A | [(x & A) | (y & x & Hy & A)]];
      apply app_cwd_inj in A; by simplify_eq.
  - destruct Hu as (y & n & f & ->).
    destruct Hshape as [A | [(x & A) | (y' & x & Hy & A)]];
      apply app_cwd_inj in A; by simplify_eq.
Qed.

Lemma album_made_apply cwd cfg fs u y n :
  y ≠ "users" → allowed cwd cfg u → album_made cwd fs y n →
  album_made cwd (apply_upd fs u) y n.
Proof.
  intros Hy Hu (Ha & Hd & Hn). split; [|split].
  - apply (dir_at_apply cwd cfg); [done..|]. by left.
  - apply (dir_at_apply cwd cfg); [done..|]. right; left. eauto.
  - apply (dir_at_apply cwd cfg); [done..|]. right; right. eauto.
Qed.

Lemma album_made_apply_upds cwd cfg us fs y n :
  y ≠ "users" → Forall (allowed cwd cfg) us → album_made cwd fs y n →
  album_made cwd (apply_upds us fs) y n.
Proof.
  intros Hy. revert fs. induction us as [|u us IH]; intros fs Hall Hmade; [done|].
  apply Forall_cons in Hall as [Hu Hall]. unfold apply_upds. simpl.
  apply IH; [done|]. by apply (album_made_apply cwd cfg).
Qed.

(** The closed forms of the steps, as updates. *)
Lemma insert_dir_apply fs p : <[p := Dir]> fs = apply_upd fs (MkDir p).
Proof. done. Qed.

Definition users_updates (cwd : list string) : list upd :=
  [MkDir (cwd ++ ["albums"; "users"]); MkDir (cwd ++ ["albums"])].

Definition album_updates (cwd : list string) (y n : string) : list upd :=
  [MkDir (cwd ++ ["albums"; y; n]); MkDir (cwd ++ ["albums"; y]);
   MkDir (cwd ++ ["albums"])].

Lemma make_dirs_users cwd fs :
  make_dirs cwd ["albums"; "users"] fs = apply_upds (users_updates cwd) fs.
Proof. unfold make_dirs, apply_upds. simpl. by rewrite <- !app_assoc. Qed.

Lemma make_dirs_album cwd y n fs :
  make_dirs cwd ["albums"; y; n] fs = apply_upds (album_updates cwd y n) fs.
Proof. unfold make_dirs, apply_upds. simpl. by rewrite <- !app_assoc. Qed.

Lemma owner_step_fs rootstr img w :
  w_fs (owner_step rootstr img w)
  = apply_upds (users_updates (w_cwd w)
                  ++ [OwnerLink (owner_link_place (w_cwd w) (i_owner_user_id img)) rootstr])
               (w_fs w).
Proof.
  unfold owner_step. rewrite make_dirs_users.
  unfold apply_upds. rewrite foldl_app.
  set (fs1 := foldl apply_upd (w_fs w) (users_updates (w_cwd w))).
  cbn [foldl].
  apply map_eq. intros q. rewrite apply_upd_lookup. cbn [upd_path upd_fun].
  destruct (fs1 !! owner_link_place (w_cwd w) (i_owner_user_id img)) as [n|] eqn:Hp.
  - destruct (exists_in _ _); cbn [w_fs set_fs emit];
      (destruct (decide _) as [<- | ?]; [by rewrite Hp | done]).
  - cbn [w_fs]. destruct (decide _) as [<- | ?].
    + by rewrite lookup_insert_eq, Hp.
    + by rewrite lookup_insert_ne.
Qed.

Lemma item_step_fs place src w :
  w_fs (item_step place src w) = apply_upd (w_fs w) (ItemLink place src).
Proof.
  unfold item_step. apply map_eq. intros q. rewrite apply_upd_lookup. simpl.
  destruct (w_fs w !! place) as [[| content | target]|] eqn:Hp; simpl;
    (destruct (decide (place = q)) as [<- | ?];
     [by rewrite ?lookup_insert_eq, ?Hp | by rewrite ?lookup_insert_ne]).
Qed.

Lemma owner_step_cwd rootstr img w :
  w_cwd (owner_step rootstr img w) = w_cwd w ∧
  w_utcoffset (owner_step rootstr img w) = w_utcoffset w.
Proof.
  unfold owner_step. destruct (_ !! _); [|done]. by destruct (exists_in _ _).
Qed.

Lemma item_step_cwd place src w :
  w_cwd (item_step place src w) = w_cwd w ∧
  w_utcoffset (item_step place src w) = w_utcoffset w.
Proof. unfold item_step. by destruct (_ !! _) as [[]|]. Qed.

Lemma users_updates_allowed cwd cfg : Forall (allowed cwd cfg) (users_updates cwd).
Proof.
  apply Forall_cons; split; [right; left; by exists "users"|].
  apply Forall_cons; split; [by left | constructor].
Qed.

Lemma album_updates_allowed cwd cfg y n :
  y ≠ "users" → Forall (allowed cwd cfg) (album_updates cwd y n).
Proof.
  intros Hy. apply Forall_cons; split; [right; right; by exists y, n|].
  apply Forall_cons; split; [right; left; by exists y|].
  apply Forall_cons; split; [by left | constructor].
Qed.

(** ** The loop body in closed form *)

Definition safe_name (alb : album) : string := str_replace "/" "_" (a_name alb).

Definition link_image_closed_form (cfg : config) (all_folders : gmap string pyval)
    (alb : album) (y : string) (img : image) (w : world) : (exn + unit) * world :=
  let folder_id := str_int (i_folder_id img) in
  match all_folders !! folder_id with
  | None => (inl (AssertionError (folder_missing_msg folder_id img alb)), w)
  | Some record =>
    match PHOTO_ROOTS cfg !! i_owner_user_id img with
    | None => (inl (KeyError (str_int (i_owner_user_id img))), w)
    | Some root =>
      let w1 := owner_step (path_str (path_of root)) img w in
      match unpack_record record with
      | None => (inl RecordError, w1)
      | Some (folder_name, owner_id) =>
        if bool_decide (is_Some (PHOTO_ROOTS cfg !! owner_id)) then
          if bool_decide (i_owner_user_id img = owner_id) then
            (inr tt, item_step (item_place (w_cwd w) y (safe_name alb) (i_filename img))
                               (path_str (item_source_path folder_name img)) w1)
          else (inl (AssertionError
                       (owner_mismatch_msg (i_owner_user_id img) owner_id img alb)), w1)
        else (inl (AssertionError (no_root_msg owner_id img alb)), w1)
      end
    end
  end.

Lemma album_made_owner_step cwd cfg rootstr img w y n root :
  w_cwd w = cwd → y ≠ "users" →
  PHOTO_ROOTS cfg !! i_owner_user_id img = Some root → rootstr = path_str (path_of root) →
  album_made cwd (w_fs w) y n →
  album_made cwd (w_fs (owner_step rootstr img w)) y n.
Proof.
  intros <- Hy Hroot -> Hmade. rewrite owner_step_fs.
  apply (album_made_apply_upds _ cfg); [done| |done].
  apply Forall_app. split; [apply users_updates_allowed|].
  apply Forall_singleton. simpl. eauto.
Qed.

Lemma link_image_unfold cfg all_folders alb album_path img w :
  link_image cfg all_folders alb album_path img w
  = match all_folders !! str_int (i_folder_id img) with
    | None =>
      (inl (AssertionError (folder_missing_msg (str_int (i_folder_id img)) img alb)), w)
    | Some record =>
      match PHOTO_ROOTS cfg !! i_owner_user_id img with
      | None => (inl (KeyError (str_int (i_owner_user_id img))), w)
      | Some root =>
        match ensure_owner_link root img w with
        | (inl e, w1) => (inl e, w1)
        | (inr _, w1) =>
          match unpack_record record with
          | None => (inl RecordError, w1)
          | Some (folder_name, owner_id) =>
            if bool_decide (is_Some (PHOTO_ROOTS cfg !! owner_id)) then
              if bool_decide (i_owner_user_id img = owner_id) then
                (remove_existing_link (album_path /: i_filename img) ;;
                 create_item_link img (item_source_path folder_name img)
                                  (album_path /: i_filename img)) w1
              else (inl (AssertionError
                           (owner_mismatch_msg (i_owner_user_id img) owner_id img alb)),
                    w1)
            else (inl (AssertionError (no_root_msg owner_id img alb)), w1)
          end
        end
      end
    end.
Proof.
  unfold link_image.
  destruct (all_folders !! str_int (i_folder_id img)) as [record|] eqn:Hrec.
  2: { by rewrite bool_decide_false by (by intros [? ?]). }
  rewrite bool_decide_true by eauto.
  destruct (PHOTO_ROOTS cfg !! i_owner_user_id img) as [root|]; [|done].
  unfold_M. simpl.
  destruct (ensure_owner_link root img w) as [[e|[]] w1]; [done|].
  destruct (unpack_record record) as [[folder_name owner_id]|]; [|done].
  destruct (bool_decide (is_Some (PHOTO_ROOTS cfg !! owner_id))); [|done].
  by destruct (bool_decide (i_owner_user_id img = owner_id)).
Qed.

Lemma link_image_closed cfg all_folders alb y img w :
  tree_ok (w_cwd w) (w_fs w) → album_made (w_cwd w) (w_fs w) y (safe_name alb) →
  plain y = true → y ≠ "users" → plain (safe_name alb) = true →
  plain (i_filename img) = true →
  link_image cfg all_folders alb (album_dir y alb) img w
  = link_image_closed_form cfg all_folders alb y img w.
Proof.
  intros Htree Hmade Hy Hyu Hn Hf. rewrite link_image_unfold.
  unfold link_image_closed_form.
  destruct (all_folders !! str_int (i_folder_id img)) as [record|] eqn:Hrec; [|done].
  destruct (PHOTO_ROOTS cfg !! i_owner_user_id img) as [root|] eqn:Hroot; [|done].
  rewrite ensure_owner_link_closed by done.
  destruct (unpack_record record) as [[folder_name owner_id]|]; [|done].
  destruct (bool_decide (is_Some (PHOTO_ROOTS cfg !! owner_id))); [|done].
  destruct (bool_decide (i_owner_user_id img = owner_id)); [|done].
  rewrite album_dir_parts by done.
  rewrite (truediv_component _ (i_filename img)) by by apply plain_component.
  cbn [p_root p_parts app].
  pose proof (owner_step_cwd (path_str (path_of root)) img w) as [Hcwd _].
  pose proof (item_blocks_closed img (item_source_path folder_name img) y
                (safe_name alb) (owner_step (path_str (path_of root)) img w)) as Hitem.
  cbn zeta in Hitem. rewrite Hcwd in Hitem.
  apply Hitem; try done.
  - by apply (album_made_owner_step _ cfg _ _ _ _ _ root).
  - apply item_source_path_nonempty.
Qed.

(** ** A run as a list of updates *)

(** [m] acts on the file system as a fixed list of allowed updates, and
    ends the same way, from every world with working directory [cwd] and
    time zone [tz] whose file system satisfies [I]. *)
Definition run_as_updates (cwd : list string) (tz : Z → Z) (cfg : config)
    (I : filesystem → Prop) (m : M unit) : Prop :=
  ∃ us r, Forall (allowed cwd cfg) us ∧
    ∀ w, w_cwd w = cwd → w_utcoffset w = tz → I (w_fs w) →
      ∃ w', m w = (r, w') ∧ w_fs w' = apply_upds us (w_fs w) ∧
            w_cwd w' = cwd ∧ w_utcoffset w' = tz.

Lemma apply_upds_app us1 us2 fs :
  apply_upds (us1 ++ us2) fs = apply_upds us2 (apply_upds us1 fs).
Proof. unfold apply_upds. apply foldl_app. Qed.

Lemma for_each_updates {A : Type} (cwd : list string) (tz : Z → Z) (cfg : config)
    (I : filesystem → Prop) (xs : list A) (body : A → M unit) :
  (∀ us fs, Forall (allowed cwd cfg) us → I fs → I (apply_upds us fs)) →
  (∀ x, x ∈ xs → run_as_updates cwd tz cfg I (body x)) →
  run_as_updates cwd tz cfg I (for_each xs body).
Proof.
  intros Hpres. induction xs as [|x xs IH]; intros Hbody.
  - exists [], (inr tt). split; [constructor|]. intros w Hc Ht HI. by exists w.
  - destruct (Hbody x) as (us1 & r1 & Hus1 & H1); [left|].
    destruct IH as (us2 & r2 & Hus2 & H2).
    { intros y Hy. apply Hbody. by right. }
    destruct r1 as [e|[]].
    + exists us1, (inl e). split; [done|]. intros w Hc Ht HI.
      destruct (H1 w Hc Ht HI) as (w' & Hw' & Hfs & Hc' & Ht').
      exists w'. by rewrite for_each_cons, Hw'.
    + exists (us1 ++ us2), r2. split; [by apply Forall_app|]. intros w Hc Ht HI.
      destruct (H1 w Hc Ht HI) as (w' & Hw' & Hfs & Hc' & Ht').
      destruct (H2 w' Hc' Ht') as (w'' & Hw'' & Hfs' & Hc'' & Ht'').
      { rewrite Hfs. by apply Hpres. }
      exists w''. rewrite for_each_cons, Hw', Hw'', apply_upds_app, Hfs', Hfs. done.
Qed.

Lemma link_image_updates cwd tz cfg all_folders alb y img :
  plain y = true → y ≠ "users" → plain (safe_name alb) = true →
  plain (i_filename img) = true →
  run_as_updates cwd tz cfg
    (λ fs, tree_ok cwd fs ∧ album_made cwd fs y (safe_name alb))
    (link_image cfg all_folders alb (album_dir y alb) img).
Proof.
  intros Hy Hyu Hn Hf.
  assert (Hclosed : ∀ w, w_cwd w = cwd → w_utcoffset w = tz →
    tree_ok cwd (w_fs w) ∧ album_made cwd (w_fs w) y (safe_name alb) →
    link_image cfg all_folders alb (album_dir y alb) img w
    = link_image_closed_form cfg all_folders alb y img w).
  { intros w <- _ [Htree Hmade]. by apply link_image_closed. }
  unfold link_image_closed_form in Hclosed.
  destruct (all_folders !! str_int (i_folder_id img)) as [record|].
  2: { eexists [], _. split; [constructor|]. intros w Hc Ht HI.
       exists w. by rewrite Hclosed. }
  destruct (PHOTO_ROOTS cfg !! i_owner_user_id img) as [root|] eqn:Hroot.
  2: { eexists [], _. split; [constructor|]. intros w Hc Ht HI.
       exists w. by rewrite Hclosed. }
  set (us1 := users_updates cwd
                ++ [OwnerLink (owner_link_place cwd (i_owner_user_id img))
                              (path_str (path_of root))]).
  assert (Hus1 : Forall (allowed cwd cfg) us1).
  { apply Forall_app. split; [apply users_updates_allowed|].
    apply Forall_singleton. simpl. eauto. }
  assert (Hown : ∀ w, w_cwd w = cwd → w_utcoffset w = tz →
    w_fs (owner_step (path_str (path_of root)) img w) = apply_upds us1 (w_fs w) ∧
    w_cwd (owner_step (path_str (path_of root)) img w) = cwd ∧
    w_utcoffset (owner_step (path_str (path_of root)) img w) = tz).
  { intros w <- <-. rewrite owner_step_fs.
    by destruct (owner_step_cwd (path_str (path_of root)) img w) as [-> ->]. }
  destruct (unpack_record record) as [[folder_name owner_id]|].
  2: { eexists us1, _. split; [done|]. intros w Hc Ht HI.
       eexists. rewrite Hclosed by done. split; [done|]. by apply Hown. }
  destruct (bool_decide (is_Some (PHOTO_ROOTS cfg !! owner_id))).
  2: { eexists us1, _. split; [done|]. intros w Hc Ht HI.
       eexists. rewrite Hclosed by done. split; [done|]. by apply Hown. }
  destruct (bool_decide (i_owner_user_id img = owner_id)).
  2: { eexists us1, _. split; [done|]. intros w Hc Ht HI.
       eexists. rewrite Hclosed by done. split; [done|]. by apply Hown. }
  exists (us1 ++ [ItemLink (item_place cwd y (safe_name alb) (i_filename img))
                           (path_str (item_source_path folder_name img))]), (inr tt).
  split.
  { apply Forall_app. split; [done|]. apply Forall_singleton. simpl. eauto. }
  intros w Hc Ht HI. eexists. rewrite Hclosed by done. split; [done|].
  destruct (Hown w Hc Ht) as (Hfs & Hc' & Ht').
  rewrite item_step_fs, Hfs, apply_upds_app, Hc.
  by destruct (item_step_cwd (item_place cwd y (safe_name alb) (i_filename img))
                 (path_str (item_source_path folder_name img))
                 (owner_step (path_str (path_of root)) img w)) as [-> ->].
Qed.

(** The names a run meets are plain: the file names of the images, and the
    names of the albums once their slashes are replaced. *)
Definition plain_names (photos : CustomPhotos) : Prop :=
  ∀ alb, alb ∈ list_albums photos →
    plain (safe_name alb) = true ∧
    ∀ img, img ∈ list_item_in_albums photos (a_id alb) → plain (i_filename img) = true.

Lemma link_album_updates cwd tz photos cfg all_folders alb :
  plain (safe_name alb) = true →
  (∀ img, img ∈ list_item_in_albums photos (a_id alb) → plain (i_filename img) = true) →
  run_as_updates cwd tz cfg (tree_ok cwd) (link_album photos cfg all_folders alb).
Proof.
  intros Hn Himgs. unfold link_album.
  destruct (get_album_year tz (a_create_time alb) (a_name alb)) as [e | y] eqn:Hyear.
  { exists [], (inl e). split; [constructor|]. intros w Hc Ht HI. exists w.
    unfold mbind, M_bind. by rewrite Ht, Hyear. }
  destruct (get_album_year_plain _ _ _ _ Hyear) as [Hy Hyu].
  destruct (for_each_updates cwd tz cfg
              (λ fs, tree_ok cwd fs ∧ album_made cwd fs y (safe_name alb))
              (list_item_in_albums photos (a_id alb))
              (link_image cfg all_folders alb (album_dir y alb)))
    as (us2 & r2 & Hus2 & H2).
  { intros us fs Hus [Htree Hmade]. split.
    - by apply (tree_ok_apply_upds cwd cfg).
    - by apply (album_made_apply_upds cwd cfg). }
  { intros img Himg. apply link_image_updates; auto. }
  exists (album_updates cwd y (safe_name alb) ++ us2), r2. split.
  { apply Forall_app. split; [by apply album_updates_allowed | done]. }
  intros w Hc Ht HI. unfold mbind at 1, M_bind at 1. rewrite Ht, Hyear.
  unfold mbind, M_bind. rewrite album_mkdir_closed by (by rewrite ?Hc).
  rewrite Hc, make_dirs_album.
  destruct (H2 (set_fs (apply_upds (album_updates cwd y (safe_name alb)) (w_fs w)) w))
    as (w' & Hw' & Hfs & Hc' & Ht'); [by destruct w | by destruct w | |].
  { cbn [w_fs set_fs]. split.
    - apply (tree_ok_apply_upds cwd cfg); [by apply album_updates_allowed | done].
    - rewrite <- make_dirs_album.
      pose proof (make_dirs_dirs cwd ["albums"; y; safe_name alb] (w_fs w)) as Hd.
      simpl in Hd. rewrite <- !app_assoc in Hd.
      apply Forall_cons in Hd as [H1 Hd]. apply Forall_cons in Hd as [H3 Hd].
      apply Forall_cons in Hd as [H4 _]. by split; [|split]. }
  exists w'. fold (safe_name alb). rewrite Hw'. split; [done|]. by rewrite apply_upds_app.
Qed.

Lemma link_albums_updates cwd tz photos cfg all_folders :
  plain_names photos →
  run_as_updates cwd tz cfg (tree_ok cwd) (link_albums photos cfg all_folders).
Proof.
  intros Hplain. unfold link_albums. apply for_each_updates.
  - intros us fs Hus Htree. by apply (tree_ok_apply_upds cwd cfg).
  - intros alb Halb. destruct (Hplain alb Halb) as [Hn Himgs].
    by apply link_album_updates.
Qed.

(** ** Running link creation twice *)




Lemma mock_plain_names : plain_names mock_photos.
Proof.
  intros alb Halb. apply list_elem_of_singleton in Halb as ->. split; [done|].
  intros img Himg. by apply list_elem_of_singleton in Himg as ->.
Qed.




(** An album whose first image has a file name with a slash in it, the
    second image being the directory that file name goes through. *)
Definition nested_photos : CustomPhotos := {|
  list_folders := λ _, inr [];
  list_teams_folders := λ _, inr [];
  list_albums := [Album 1 "2023 A" 0 0];
  list_item_in_albums := λ _, [Image "a/b.jpg" 2 0; Image "a" 2 0];
  get_userinfo_name := "u";
|}.

Definition store_config : config :=
  {| PHOTO_ROOTS := {[ 0 := "/store" ]}; CACHE_FILE := "c.json" |}.

Definition store_cache : gmap string pyval :=
  {[ "2" := PyList [PyStr "/F"; PyInt 0] ]}.

Definition store_fs : filesystem :=
  list_to_map [ (["home"], Dir); (["home"; "u"], Dir); (["store"], Dir);
                (["store"; "F"], Dir); (["store"; "F"; "a"], Dir) ].

(** C6 as worded fails for such an album: in the first run the link
    [a/b.jpg] cannot be created, the directory [a] of the album not being
    there yet; the first run then makes [a] a link to a directory of the
    photo store, and the second run creates [b.jpg] through it, inside the
    photo store. *)
Lemma second_run_counterexample :
  w_fs (link_albums nested_photos store_config store_cache (world_of store_fs)).2
    !! ["store"; "F"; "a"; "b.jpg"] = None ∧
  w_fs (link_albums nested_photos store_config store_cache
          (link_albums nested_photos store_config store_cache (world_of store_fs)).2).2
    !! ["store"; "F"; "a"; "b.jpg"] = Some (Symlink "../../users/0/F/a/b.jpg").
Proof. split; vm_compute; reflexivity. Qed.

(** * Further properties of the code *)

(** ** The collector, whatever the ids *)

(** X1: for a listing of finite depth, ids unique or not, the collector
    returns given enough fuel; every entry of the mapping it returns is
    the [(name, owner id)] tuple of some folder found from the root, under
    the decimal string of the id of that folder, and every folder found
    from the root has its id among the keys.  (When two folders found
    share an id, one of them gives the entry.) *)
Theorem collect_entries_are_listed (photos : CustomPhotos) (is_shared : bool)
    (rank : Z → nat) (fuel : nat) (root : Z) :
  finite_depth (list_fn_of photos is_shared) rank → (rank root < fuel)%nat →
  ∃ m log,
    collect_folders_recursive fuel photos root is_shared = Some (m, log) ∧
    (∀ k v, m !! k = Some v →
       ∃ f, reachable (list_fn_of photos is_shared) root f ∧
            k = str_int (f_id f) ∧
            v = PyTuple [PyStr (f_name f); PyInt (f_owner_user_id f)]) ∧
    (∀ f, reachable (list_fn_of photos is_shared) root f → str_int (f_id f) ∈ dom m).
Proof.
  intros Hrank Hlt.
  by apply (collect_sound_complete photos is_shared (λ folder_ids, folder_ids) rank).
Qed.

(** A personal tree in which two folders carry the id 5. *)
Definition twin_list_folders (folder_id : Z) : listing :=
  if (folder_id =? 0)%Z then inr [Folder 1 "/A" 0; Folder 2 "/B" 0]
  else if (folder_id =? 1)%Z then inr [Folder 5 "/A/X" 0]
  else if (folder_id =? 2)%Z then inr [Folder 5 "/B/Y" 0]
  else inr [].

Definition twin_photos : CustomPhotos := {|
  list_folders := twin_list_folders;
  list_teams_folders := λ _, inr [];
  list_albums := [];
  list_item_in_albums := λ _, [];
  get_userinfo_name := "test_user";
|}.

Definition twin_rank (folder_id : Z) : nat :=
  if (folder_id =? 0)%Z then 2%nat
  else if (folder_id =? 1)%Z then 1%nat
  else if (folder_id =? 2)%Z then 1%nat else 0%nat.

Lemma twin_finite_depth : finite_depth (list_fn_of twin_photos false) twin_rank.
Proof.
  intros p items f. unfold list_fn_of, twin_rank; simpl. unfold twin_list_folders.
  destruct (p =? 0)%Z eqn:H0; [|destruct (p =? 1)%Z eqn:H1; [|destruct (p =? 2)%Z eqn:H2]];
    intros [= <-] Hf;
    repeat (apply elem_of_cons in Hf as [-> | Hf]; [simpl; lia|]);
    by apply elem_of_nil in Hf.
Qed.

Lemma collect_entries_are_listed_witness :
  ∃ m log,
    collect_folders_recursive 3 twin_photos 0 false = Some (m, log) ∧
    (∀ k v, m !! k = Some v →
       ∃ f, reachable (list_fn_of twin_photos false) 0 f ∧
            k = str_int (f_id f) ∧
            v = PyTuple [PyStr (f_name f); PyInt (f_owner_user_id f)]) ∧
    (∀ f, reachable (list_fn_of twin_photos false) 0 f → str_int (f_id f) ∈ dom m).
Proof.
  apply (collect_entries_are_listed twin_photos false twin_rank 3 0).
  - exact twin_finite_depth.
  - unfold twin_rank. simpl. lia.
Defined.

(** The run of the witness: the folder visited last gives the entry of the
    shared id. *)
Example collect_twin_tree :
  collect_folders_recursive 3 twin_photos 0 false =
  Some ({[ "1" := PyTuple [PyStr "/A"; PyInt 0];
           "2" := PyTuple [PyStr "/B"; PyInt 0];
           "5" := PyTuple [PyStr "/B/Y"; PyInt 0] ]}, []).
Proof. vm_compute. reflexivity. Qed.

Lemma reachable_rank list_fn rank root f :
  finite_depth list_fn rank → reachable list_fn root f →
  (rank (f_id f) < rank root)%nat.
Proof.
  intros Hrank. induction 1 as [items f Hl Hf | g items f Hg IH Hl Hf].
  - by eapply Hrank.
  - pose proof (Hrank _ _ _ Hl Hf). lia.
Qed.

(** X2: the folder the collection starts from is not itself an entry of the
    mapping: for a listing of finite depth, the string of the root id is
    not a key, so an image that lies directly in the root folder has no
    cache entry. *)
Theorem collect_leaves_out_root (photos : CustomPhotos) (is_shared : bool)
    (rank : Z → nat) (fuel : nat) (root : Z) (m : gmap string pyval)
    (log : list string) :
  finite_depth (list_fn_of photos is_shared) rank → (rank root < fuel)%nat →
  collect_folders_recursive fuel photos root is_shared = Some (m, log) →
  m !! str_int root = None.
Proof.
  intros Hrank Hlt Hm.
  destruct (collect_sound_complete photos is_shared (λ folder_ids, folder_ids) rank
              Hrank (λ l, reflexivity l) fuel root Hlt)
    as (m' & log' & Hm' & Hsound & _).
  change (collect_folders_sched (λ folder_ids, folder_ids) fuel photos root is_shared)
    with (collect_folders_recursive fuel photos root is_shared) in Hm'.
  rewrite Hm in Hm'. injection Hm' as <- <-.
  destruct (m !! str_int root) as [v|] eqn:Hk; [|done].
  destruct (Hsound _ _ Hk) as (f & Hf & Hkey & _).
  unfold str_int in Hkey. apply (inj pretty) in Hkey.
  pose proof (reachable_rank _ rank root f Hrank Hf). rewrite <- Hkey in *. lia.
Qed.

Lemma collect_leaves_out_root_witness :
  ∃ m log, collect_folders_recursive 3 mock_photos 0 false = Some (m, log) ∧
           m !! str_int 0 = None.
Proof.
  eexists _, _. split; [vm_compute; reflexivity|].
  apply (collect_leaves_out_root mock_photos false mock_rank 3 0 _ []).
  - exact mock_finite_depth.
  - unfold mock_rank. simpl. lia.
  - vm_compute. reflexivity.
Defined.

(** ** The link to the photo root of an owner *)






(** ** Where the link of an image goes and what it points to *)

Lemma str_join_snoc sep parts x :
  parts ≠ [] → str_join sep (parts ++ [x]) = str_join sep parts +:+ sep +:+ x.
Proof.
  induction parts as [|p parts IH]; [done|]. intros _.
  destruct parts as [|p' parts]; [done|].
  change (str_join sep ((p :: p' :: parts) ++ [x]))
    with (p +:+ sep +:+ str_join sep ((p' :: parts) ++ [x])).
  rewrite IH by done.
  change (str_join sep (p :: p' :: parts)) with (p +:+ sep +:+ str_join sep (p' :: parts)).
  by rewrite !str_app_assoc.
Qed.

(** A relative path in normal form: no empty component and no [.]. *)
Definition normal_relative (s : string) : Prop :=
  Forall (λ c, component c = true) (str_split "/" s).

Lemma path_of_normal_relative s :
  normal_relative s → path_of s = MkPath "" (str_split "/" s).
Proof.
  intros Hs. unfold normal_relative in Hs.
  assert (Hkeep : List.filter keep_part (str_split "/" s) = str_split "/" s).
  { induction Hs as [|c l Hc Hl IH]; [done|]. simpl.
    apply component_inv in Hc as (_ & -> & _). by rewrite IH. }
  destruct s as [|c r]; [by apply Forall_cons in Hs as [? _]|].
  destruct (Ascii.eqb c "/") eqn:Hc.
  { simpl in Hs. rewrite Hc in Hs. by apply Forall_cons in Hs as [? _]. }
  unfold path_of. rewrite splitroot_relative by done. by rewrite Hkeep.
Qed.

(** The parts of [source_path] (line 129). *)
Lemma item_source_path_parts folder_name img :
  normal_relative (str_drop1 folder_name) → component (i_filename img) = true →
  item_source_path folder_name img
  = MkPath "" ([".."; ".."; "users"; str_int (i_owner_user_id img)]
               ++ str_split "/" (str_drop1 folder_name) ++ [i_filename img]).
Proof.
  intros Hname Hf. unfold item_source_path.
  rewrite (truediv_component _ "users") by done.
  rewrite (truediv_component _ (str_int _)) by apply plain_component, str_int_plain.
  unfold truediv at 2. rewrite path_of_normal_relative by done.
  cbn [p_root String.eqb]. by rewrite truediv_component.
Qed.

Lemma walk_dotdot links fs follow cur rest :
  walk links fs follow cur (".." :: rest) = walk links fs follow (removelast cur) rest.
Proof. by rewrite !walk_unfold. Qed.

(** X4: the layout of the link of an image, for an album whose year and
    name (slashes replaced) are plain names, an image whose file name is
    plain and that passes the checks, and a cache entry whose folder name,
    its first character dropped (line 129), is a relative path in normal
    form.  The path of the link is [albums/<year>/<album>/<file name>] and
    its text is [../../users/<owner id>/<that name>/<file name>]; the body
    of the loop is the owner-root step, the unlink of that path and the
    guarded [os.symlink] of that text at that path.  Where the directory
    of the album is there, an [os.symlink] that succeeds puts the link at
    the place [albums/<year>/<album>/<file name>] below the working
    directory, which was free, and changes nothing else.  Opening such a
    link goes back up to [albums], down through the link of the owner,
    and from the target of that link along the folder name without its
    first character to the file name. *)
Theorem item_link_layout (cfg : config) (all_folders : gmap string pyval)
    (alb : album) (y : string) (img : image) (record : pyval)
    (folder_name root : string) :
  plain y = true → y ≠ "users" → plain (safe_name alb) = true →
  plain (i_filename img) = true →
  all_folders !! str_int (i_folder_id img) = Some record →
  unpack_record record = Some (folder_name, i_owner_user_id img) →
  PHOTO_ROOTS cfg !! i_owner_user_id img = Some root →
  normal_relative (str_drop1 folder_name) →
  let link_path := album_dir y alb /: i_filename img in
  let source_path := item_source_path folder_name img in
  let link := "albums/" +:+ y +:+ "/" +:+ safe_name alb +:+ "/" +:+ i_filename img in
  let target := "../../users/" +:+ str_int (i_owner_user_id img) +:+ "/"
                  +:+ str_drop1 folder_name +:+ "/" +:+ i_filename img in
  path_str link_path = link ∧ path_str source_path = target ∧
  (∀ w, link_image cfg all_folders alb (album_dir y alb) img w
        = (ensure_owner_link root img ;;
           remove_existing_link link_path ;;
           create_item_link img source_path link_path) w) ∧
  (∀ w w', album_made (w_cwd w) (w_fs w) y (safe_name alb) →
     os_symlink target link w = (inr tt, w') →
     w_fs w !! item_place (w_cwd w) y (safe_name alb) (i_filename img) = None ∧
     w_fs w' !! item_place (w_cwd w) y (safe_name alb) (i_filename img)
     = Some (Symlink target) ∧
     ∀ q, q ≠ item_place (w_cwd w) y (safe_name alb) (i_filename img) →
          w_fs w' !! q = w_fs w !! q) ∧
  (∀ fs cwd owner_target,
     album_made cwd fs y (safe_name alb) → dir_at fs (cwd ++ ["albums"; "users"]) →
     fs !! item_place cwd y (safe_name alb) (i_filename img) = Some (Symlink target) →
     fs !! owner_link_place cwd (i_owner_user_id img) = Some (Symlink owner_target) →
     owner_target ≠ "" →
     resolve fs cwd true link
     = walk (MAXSYMLINKS - 2) fs true
         (if (os_path owner_target).1 then [] else cwd ++ ["albums"; "users"])
         (str_split "/" owner_target ++ str_split "/" (str_drop1 folder_name)
            ++ [i_filename img])).
Proof.
  intros Hy Hyu Hn Hf Hrec Hunpack Hroot Hname link_path source_path link target.
  set (f := i_filename img) in *. set (n := safe_name alb) in *.
  set (sid := str_int (i_owner_user_id img)) in *.
  set (ns := str_split "/" (str_drop1 folder_name)).
  assert (Hsid : plain sid = true) by apply str_int_plain.
  assert (Hns : ns ≠ []) by apply str_split_nonempty.
  assert (Hsrc : path_str source_path = target).
  { unfold source_path.
    rewrite item_source_path_parts by (done || by apply plain_component).
    fold sid f ns. unfold target. cbn [app].
    rewrite path_str_relative.
    change (str_join "/" (".." :: ".." :: "users" :: sid :: ns ++ [f]))
      with ("../../users/" +:+ str_join "/" (sid :: ns ++ [f])).
    f_equal. destruct ns as [|a ns'] eqn:Hnseq; [done|].
    change (str_join "/" (sid :: (a :: ns') ++ [f]))
      with (sid +:+ "/" +:+ str_join "/" ((a :: ns') ++ [f])).
    rewrite str_join_snoc by done. rewrite <- Hnseq. unfold ns.
    by rewrite str_join_split. }
  assert (Hlp : link_path = MkPath "" ["albums"; y; n; f]).
  { unfold link_path. rewrite album_dir_parts by done.
    by rewrite (truediv_component _ f) by by apply plain_component. }
  assert (Hlinkstr : path_str link_path = link) by by rewrite Hlp.
  assert (Hwalk : ∀ fs cwd follow, album_made cwd fs y n →
    resolve fs cwd follow link = walk MAXSYMLINKS fs follow (cwd ++ ["albums"; y; n]) [f]).
  { intros fs cwd follow Hmade.
    change link with (path_str (MkPath "" ["albums"; y; n; f])).
    rewrite resolve_relative_parts by (done || by repeat constructor).
    apply (walk_dirs _ _ _ _ ["albums"; y; n] [f]);
      [by repeat constructor | by apply album_made_dirs]. }
  assert (Hparts : Forall (λ s, component s = true)
                     (".." :: ".." :: "users" :: sid :: ns ++ [f])).
  { repeat (apply Forall_cons; split; [done || by apply plain_component|]).
    apply Forall_app. split; [done|]. apply Forall_singleton. by apply plain_component. }
  assert (Htarget : target = str_join "/" (".." :: ".." :: "users" :: sid :: ns ++ [f])).
  { rewrite <- Hsrc. unfold source_path.
    by rewrite item_source_path_parts by (done || by apply plain_component). }
  destruct (os_path_join _ _ Hparts) as [Hnonempty Hos]. rewrite <- Htarget in *.
  split; [done|]. split; [done|]. split; [|split].
  - intros w. rewrite (link_image_checked _ _ _ _ _ record folder_name root) by done.
    unfold mbind, M_bind. by destruct (ensure_owner_link root img w) as [[e|[]] w1].
  - intros w w' Hmade. unfold os_symlink. rewrite Hnonempty, Hwalk by done.
    rewrite walk_cons_plain by done. rewrite <- app_assoc. cbn [app].
    unfold item_place.
    destruct (w_fs w !! (w_cwd w ++ ["albums"; y; n; f]))
      as [[| content | old]|] eqn:Hplace; [by rewrite walk_nil | done.. |].
    intros [= <-]. cbn [w_fs]. split; [done|]. split; [by rewrite lookup_insert_eq|].
    intros q Hq. by rewrite lookup_insert_ne.
  - intros fs cwd owner_target Hmade Husers Hlink Howner Hne.
    rewrite Hwalk by done.
    rewrite walk_cons_plain by done. rewrite <- app_assoc. cbn [app].
    unfold item_place in Hlink. rewrite Hlink.
    unfold MAXSYMLINKS. cbn [enter_link]. rewrite Hnonempty, Hos.
    rewrite app_nil_r, !walk_dotdot.
    rewrite removelast_app by done. cbn [removelast].
    rewrite removelast_app by done. cbn [removelast].
    rewrite walk_cons_plain by done. rewrite <- app_assoc. cbn [app].
    unfold dir_at in Husers. rewrite Husers.
    rewrite walk_cons_plain by done. rewrite <- app_assoc. cbn [app].
    unfold owner_link_place in Howner. fold sid in Howner. rewrite Howner.
    apply String.eqb_neq in Hne.
    destruct ns as [|a ns'] eqn:Hnseq; [done|]. cbn [app].
    change (40 - 2)%nat with 38%nat. cbn [enter_link]. rewrite Hne.
    unfold os_path. cbn [fst]. done.
Qed.

Lemma home_tree_ok : tree_ok ["home"; "u"] home_fs.
Proof.
  assert (Hnone : ∀ rest, home_fs !! (["home"; "u"] ++ "albums" :: rest) = None).
  { intros rest. apply not_elem_of_list_to_map. cbn [fmap list_fmap fst app].
    rewrite !elem_of_cons, elem_of_nil. intros H.
    repeat (destruct H as [H | H]; [discriminate|]). done. }
  split; [|split]; intros; left; apply Hnone.
Qed.

(** The world in which the images of the album of the tests are linked:
    the directory of the album is there. *)
Definition summer_world : world :=
  world_of (make_dirs ["home"; "u"] ["albums"; "2023"; "2023 Summer"] home_fs).

Lemma item_link_layout_witness :
  path_str (item_source_path "/Photos/2023" photo1)
  = "../../users/0/Photos/2023/photo1.jpg" ∧
  resolve (w_fs (link_image template_config good_cache summer_album
                   (album_dir "2023" summer_album) photo1 summer_world).2)
          ["home"; "u"] true "albums/2023/2023 Summer/photo1.jpg"
  = inr (Found ["Volumes"; "homes"; "User1"; "Photos"; "Photos"; "2023";
                "photo1.jpg"] (File None)).
Proof.
  destruct (item_link_layout template_config good_cache summer_album "2023" photo1
              (PyList [PyStr "/Photos/2023"; PyInt 0]) "/Photos/2023"
              "/Volumes/homes/User1/Photos")
    as (_ & Htarget & _ & _ & Hopen).
  - reflexivity.
  - discriminate.
  - reflexivity.
  - reflexivity.
  - reflexivity.
  - reflexivity.
  - reflexivity.
  - repeat constructor.
  - split; [exact Htarget|].
    etrans; [apply (Hopen _ ["home"; "u"] "/Volumes/homes/User1/Photos")|].
    + split; [|split]; vm_compute; reflexivity.
    + vm_compute. reflexivity.
    + vm_compute. reflexivity.
    + vm_compute. reflexivity.
    + discriminate.
    + vm_compute. reflexivity.
Defined.

(** ** What a run leaves alone *)

Lemma node_after_untouched us q o :
  Forall (λ u, upd_path u ≠ q) us → node_after us q o = o.
Proof.
  revert o. induction us as [|u us IH]; intros o Hall; [done|].
  apply Forall_cons in Hall as [Hu Hall]. simpl. rewrite decide_False by done.
  by apply IH.
Qed.

Lemma node_after_dir us q : node_after us q (Some Dir) = Some Dir.
Proof.
  induction us as [|u us IH]; [done|]. simpl.
  destruct (decide _); [|done]. by destruct u.
Qed.

Lemma allowed_path cwd cfg u :
  allowed cwd cfg u →
  ∃ rest, upd_path u = cwd ++ "albums" :: rest ∧ (length rest ≤ 3)%nat.
Proof.
  destruct u as [p | p t | p t]; simpl.
  - intros [-> | [(x & ->) | (y & x & _ & ->)]]; eexists; (split; [done | simpl; lia]).
  - intros (i & r & -> & _). eexists. split; [done | simpl; lia].
  - intros (y & n & f & ->). eexists. split; [done | simpl; lia].
Qed.

Lemma node_after_owner_place cwd cfg us owner_id o :
  Forall (allowed cwd cfg) us →
  match o with
  | Some n => node_after us (owner_link_place cwd owner_id) o = Some n
  | None =>
    node_after us (owner_link_place cwd owner_id) o = None ∨
    ∃ root, PHOTO_ROOTS cfg !! owner_id = Some root ∧
            node_after us (owner_link_place cwd owner_id) o
            = Some (Symlink (path_str (path_of root)))
  end.
Proof.
  revert o. induction us as [|u us IH]; intros o Hall.
  { destruct o; [done | by left]. }
  apply Forall_cons in Hall as [Hu Hall]. simpl.
  destruct (decide (upd_path u = owner_link_place cwd owner_id)) as [Hpath | Hne];
    [|by apply IH].
  destruct u as [p | p t | p t]; simpl in *; subst p.
  - destruct Hu as [A | [(x & A) | (y & x & Hy & A)]];
      apply app_cwd_inj in A; by simplify_eq.
  - destruct Hu as (i & r & A & Hr & ->). apply app_cwd_inj in A. injection A as A.
    unfold str_int in A. apply (inj pretty) in A as <-.
    destruct o as [n|].
    + apply (IH (Some n) Hall).
    + right. exists r. split; [done|]. apply (IH (Some _) Hall).
  - destruct Hu as (y & n & f & A). apply app_cwd_inj in A. done.
Qed.

(** An entry that is not at the place of the link of an image is kept by
    the updates of a run. *)
Lemma node_after_present cwd cfg us q n :
  Forall (allowed cwd cfg) us →
  (∀ y a f, q ≠ item_place cwd y a f) →
  ((q = cwd ++ ["albums"] ∨ (∃ x, q = cwd ++ ["albums"; x]) ∨
    (∃ y x, y ≠ "users" ∧ q = cwd ++ ["albums"; y; x])) → n = Dir) →
  node_after us q (Some n) = Some n.
Proof.
  intros Hall Hitem Hshape. induction us as [|u us IH]; [done|].
  apply Forall_cons in Hall as [Hu Hall]. simpl.
  destruct (decide (upd_path u = q)) as [Hpath | Hne]; [|by apply IH].
  destruct u as [p | p t | p t]; simpl in *; subst p.
  - rewrite <- (Hshape Hu). rewrite (Hshape Hu) in *. by apply IH.
  - by apply IH.
  - destruct Hu as (y & a & f & ->). by destruct (Hitem y a f).
Qed.

(** X5: a run of the loop over the albums whose names are plain, on a link
    tree whose directory places hold directories or nothing.  It changes
    nothing but [albums] and what is up to three levels below it; every
    entry it finds is left as it is, but for an entry that is not a
    directory at the place [albums/<year>/<album>/<file>] of the link of
    an image; so every directory stays a directory, and what it finds at
    the place of the link of an owner stays. *)
Theorem run_keeps_what_is_there (photos : CustomPhotos) (cfg : config)
    (all_folders : gmap string pyval) (w w' : world) (r : exn + unit) :
  plain_names photos → tree_ok (w_cwd w) (w_fs w) →
  link_albums photos cfg all_folders w = (r, w') →
  w_cwd w' = w_cwd w ∧
  (∀ q, (∀ rest, q = w_cwd w ++ "albums" :: rest → (3 < length rest)%nat) →
        w_fs w' !! q = w_fs w !! q) ∧
  (∀ q n, w_fs w !! q = Some n →
          (∀ y a f, q ≠ item_place (w_cwd w) y a f) → w_fs w' !! q = Some n) ∧
  (∀ q, w_fs w !! q = Some Dir → w_fs w' !! q = Some Dir) ∧
  (∀ owner_id n, w_fs w !! owner_link_place (w_cwd w) owner_id = Some n →
                 w_fs w' !! owner_link_place (w_cwd w) owner_id = Some n).
Proof.
  intros Hplain Htree Hrun.
  destruct (link_albums_updates (w_cwd w) (w_utcoffset w) photos cfg all_folders Hplain)
    as (us & r' & Hus & Hall).
  destruct (Hall w) as (w'' & Hw'' & Hfs & Hc & _); try done.
  rewrite Hrun in Hw''. injection Hw'' as -> <-.
  split; [done|]. rewrite Hfs. split; [|split; [|split]].
  - intros q Hq. rewrite apply_upds_lookup. apply node_after_untouched.
    eapply Forall_impl; [exact Hus|]. intros u Hu Hpath.
    destruct (allowed_path _ _ _ Hu) as (rest & Hrest & Hlen).
    rewrite Hpath in Hrest. specialize (Hq rest Hrest). lia.
  - intros q n Hq Hitem. rewrite apply_upds_lookup, Hq.
    apply (node_after_present (w_cwd w) cfg); [done..|].
    destruct Htree as (Ha & Hx & Hyx).
    intros [-> | [(x & ->) | (y & x & Hy & ->)]].
    + destruct Ha as [Ha | Ha]; rewrite Ha in Hq; by simplify_eq.
    + destruct (Hx x) as [Hx' | Hx']; rewrite Hx' in Hq; by simplify_eq.
    + destruct (Hyx y x Hy) as [Hx' | Hx']; rewrite Hx' in Hq; by simplify_eq.
  - intros q Hq. rewrite apply_upds_lookup, Hq. apply node_after_dir.
  - intros owner_id n Hn. rewrite apply_upds_lookup, Hn.
    apply (node_after_owner_place (w_cwd w) cfg us owner_id (Some n) Hus).
Qed.

Lemma run_keeps_what_is_there_witness :
  w_fs (link_albums mock_photos template_config good_cache (world_of home_fs)).2
    !! ["Volumes"; "homes"; "User1"; "Photos"; "Photos"; "2023"; "photo1.jpg"]
  = Some (File None).
Proof.
  destruct (link_albums mock_photos template_config good_cache (world_of home_fs))
    as [r w'] eqn:Hrun.
  destruct (run_keeps_what_is_there mock_photos template_config good_cache
              (world_of home_fs) w' r mock_plain_names home_tree_ok Hrun)
    as (_ & Hconfined & _).
  cbn [snd]. rewrite Hconfined; [reflexivity|].
  intros rest Hrest. discriminate Hrest.
Defined.

(** ** The names of the directories of the albums *)

Lemma str_replace_dots s :
  (str_replace "/" "_" s = "" ↔ s = "") ∧
  (str_replace "/" "_" s = "." ↔ s = ".") ∧
  (str_replace "/" "_" s = ".." ↔ s = "..").
Proof.
  assert (Hc : ∀ c, (if Ascii.eqb c "/" then "_"%char else c) = "."%char ↔ c = "."%char).
  { intros c. destruct (Ascii.eqb_spec c "/") as [-> | Hne]; [|done]. split; discriminate. }
  destruct s as [|c [|c2 [|c3 r]]]; simpl; (split; [|split]); split;
    try discriminate; try done.
  - intros [= H]. apply (proj1 (Hc c)) in H. by subst.
  - intros [= ->]. by rewrite (proj2 (Hc _) eq_refl).
  - intros [= H1 H2]. apply (proj1 (Hc c)) in H1. apply (proj1 (Hc c2)) in H2.
    by subst.
  - intros [= -> ->]. done.
Qed.

(** X6: line 99 replaces every slash of the name of an album by an
    underscore, character by character, so the name of the directory of an
    album never has a slash; it is a plain directory name, one level below
    the directory of the year, for every album name but the empty name,
    [.] and [..], which it leaves as they are. *)
Theorem album_directory_name (alb : album) :
  slash_free (safe_name alb) = true ∧
  String.length (safe_name alb) = String.length (a_name alb) ∧
  (plain (safe_name alb) = true ↔
   a_name alb ≠ "" ∧ a_name alb ≠ "." ∧ a_name alb ≠ "..") ∧
  (∀ y, plain y = true → plain (safe_name alb) = true →
        album_dir y alb = MkPath "" ["albums"; y; safe_name alb]) ∧
  (a_name alb = "" ∨ a_name alb = "." →
   ∀ y, plain y = true → album_dir y alb = MkPath "" ["albums"; y]).
Proof.
  unfold safe_name. split; [apply str_replace_slash_free|]. split; [|split; [|split]].
  - induction (a_name alb) as [|c s IH]; simpl; [done | by rewrite IH].
  - destruct (str_replace_dots (a_name alb)) as (He & Hd & Hdd).
    unfold plain, component. rewrite str_replace_slash_free. simpl.
    rewrite !andb_true_iff, !negb_true_iff, !String.eqb_neq.
    rewrite He, Hd, Hdd. tauto.
  - intros y Hy Hn. by apply album_dir_parts.
  - intros Hname y Hy. unfold album_dir.
    rewrite (truediv_component _ y) by by apply plain_component.
    destruct Hname as [-> | ->]; done.
Qed.

(** X15: the year of an album is made of digits (and a sign), so it is a
    plain name and not the name [users]: the directory of the year is one
    level below [albums], and it is never the directory [albums/users] of
    the links of the owners. *)
Theorem album_year_is_plain (utcoffset : Z → Z) (alb : album) (y : string) :
  get_album_year utcoffset (a_create_time alb) (a_name alb) = inr y →
  plain y = true ∧ y ≠ "users" ∧
  path_of "albums" /: y = MkPath "" ["albums"; y] ∧
  ∀ owner_id, path_of "albums" /: y ≠ path_parent (path_of "albums" /: "users"
                                                     /: str_int owner_id).
Proof.
  intros Hyear. destruct (get_album_year_plain _ _ _ _ Hyear) as [Hy Hyu].
  split; [done|]. split; [done|].
  rewrite (truediv_component _ y) by by apply plain_component.
  split; [done|]. intros owner_id. rewrite owner_link_path_parts.
  cbn. intros [= ->]. done.
Qed.

Lemma album_year_is_plain_witness :
  plain "2023" = true ∧ "2023" ≠ "users" ∧
  path_of "albums" /: "2023" = MkPath "" ["albums"; "2023"] ∧
  ∀ owner_id, path_of "albums" /: "2023"
              ≠ path_parent (path_of "albums" /: "users" /: str_int owner_id).
Proof.
  apply (album_year_is_plain (λ _, 0) summer_album "2023").
  vm_compute. reflexivity.
Defined.

(** ** The cache file at the start of a run *)

(** The cache file is not there: a component of its path is missing, or
    the file itself. *)
Definition cache_missing (cfg : config) (w : world) : Prop :=
  resolve (w_fs w) (w_cwd w) true (CACHE_FILE cfg) = inl ENOENT ∨
  ∃ place, resolve (w_fs w) (w_cwd w) true (CACHE_FILE cfg) = inr (Missing place).

Definition cache_not_found_line : out_line :=
  Line "Cache file not found. Please run with --cache-folders first".

(** X7: without a cache file, loading prints the hint to run with
    [--cache-folders] and exits with status 1, and so does
    [create_album_links], before it asks for the albums: nothing is
    created, not even the directory [albums]. *)
Theorem missing_cache_exits (photos : CustomPhotos) (cfg : config) (w : world) :
  cache_missing cfg w →
  load_cached_folders cfg w = (inl (SystemExit 1), emit [cache_not_found_line] w) ∧
  create_album_links photos cfg w
  = (inl (SystemExit 1), emit [cache_not_found_line] w) ∧
  w_fs (create_album_links photos cfg w).2 = w_fs w.
Proof.
  intros Hmiss.
  assert (Hload : load_cached_folders cfg w
                  = (inl (SystemExit 1), emit [cache_not_found_line] w)).
  { unfold load_cached_folders, try_except, mbind, M_bind, read_json_file.
    destruct Hmiss as [-> | [place ->]]; done. }
  assert (Hrun : create_album_links photos cfg w
                 = (inl (SystemExit 1), emit [cache_not_found_line] w)).
  { unfold create_album_links. unfold mbind at 1, M_bind at 1. by rewrite Hload. }
  by rewrite Hrun.
Qed.

Lemma missing_cache_exits_witness :
  create_album_links mock_photos template_config (world_of home_fs)
  = (inl (SystemExit 1), emit [cache_not_found_line] (world_of home_fs)).
Proof.
  apply (missing_cache_exits mock_photos template_config (world_of home_fs)).
  right. exists ["home"; "u"; "folders_cache.json"]. vm_compute. reflexivity.
Defined.

(** X8: only a missing cache file gets the hint.  When the path of the
    cache names a directory, or [open] fails on the way to it for another
    reason than a missing entry (a component that is not a directory, a
    loop of links), the [OSError] of [open] leaves [create_album_links] as
    it is, with nothing printed and nothing created. *)
Theorem unreadable_cache_raises (photos : CustomPhotos) (cfg : config) (w : world) :
  (∀ place, resolve (w_fs w) (w_cwd w) true (CACHE_FILE cfg) = inr (Found place Dir) →
     create_album_links photos cfg w = (inl (OSError EISDIR), w)) ∧
  (∀ e, resolve (w_fs w) (w_cwd w) true (CACHE_FILE cfg) = inl e → e ≠ ENOENT →
     create_album_links photos cfg w = (inl (OSError e), w)).
Proof.
  split.
  - intros place Hres. unfold create_album_links. unfold mbind at 1, M_bind at 1.
    unfold load_cached_folders, try_except, mbind, M_bind, read_json_file.
    by rewrite Hres.
  - intros e Hres He. unfold create_album_links. unfold mbind at 1, M_bind at 1.
    unfold load_cached_folders, try_except, mbind, M_bind, read_json_file.
    rewrite Hres. by destruct e.
Qed.

(** A cache path that is a directory, and one that goes through a regular
    file. *)
Lemma unreadable_cache_raises_witness :
  create_album_links mock_photos template_config
    (world_of (<[["home"; "u"; "folders_cache.json"] := Dir]> home_fs))
  = (inl (OSError EISDIR),
     world_of (<[["home"; "u"; "folders_cache.json"] := Dir]> home_fs)) ∧
  create_album_links mock_photos
    {| PHOTO_ROOTS := ∅; CACHE_FILE := "folders_cache.json/cache.json" |}
    (world_of (<[["home"; "u"; "folders_cache.json"] := File None]> home_fs))
  = (inl (OSError ENOTDIR),
     world_of (<[["home"; "u"; "folders_cache.json"] := File None]> home_fs)).
Proof.
  split.
  - apply (proj1 (unreadable_cache_raises mock_photos template_config _)
             ["home"; "u"; "folders_cache.json"]).
    vm_compute. reflexivity.
  - apply (proj2 (unreadable_cache_raises mock_photos _ _) ENOTDIR); [|done].
    vm_compute. reflexivity.
Defined.

(** ** A failure in the middle of a run *)

Lemma for_each_stops {A : Type} (pre : list A) (x : A) (post : list A)
    (body : A → M unit) (w w1 w2 : world) (e : exn) :
  for_each pre body w = (inr tt, w1) → body x w1 = (inl e, w2) →
  for_each (pre ++ x :: post) body w = (inl e, w2).
Proof.
  revert w. induction pre as [|a pre IH]; intros w Hpre Hx.
  - injection Hpre as <-. cbn [app]. by rewrite for_each_cons, Hx.
  - cbn [app]. rewrite for_each_cons in *.
    destruct (body a w) as [[e'|[]] w']; [done|]. by apply IH.
Qed.

(** X9: an album whose creation time is outside the years 1 to 9999 stops
    the run where it is reached, also when its name starts with a year:
    the error of [fromtimestamp] is raised before the directory of the
    album is made, the albums before it keep their links, and the albums
    after it are not visited. *)
Theorem bad_timestamp_stops_run (photos : CustomPhotos) (cfg : config)
    (all_folders : gmap string pyval) (pre : list album) (alb : album)
    (post : list album) (w w1 : world) :
  list_albums photos = pre ++ alb :: post →
  for_each pre (link_album photos cfg all_folders) w = (inr tt, w1) →
  fromtimestamp (w_utcoffset w1) (a_create_time alb) = inl DateRangeError →
  link_album photos cfg all_folders alb w1 = (inl DateRangeError, w1) ∧
  link_albums photos cfg all_folders w = (inl DateRangeError, w1).
Proof.
  intros Halbums Hpre Hdate.
  assert (Halb : link_album photos cfg all_folders alb w1 = (inl DateRangeError, w1)).
  { unfold link_album. unfold mbind at 1, M_bind at 1.
    unfold get_album_year. by rewrite Hdate. }
  split; [done|]. unfold link_albums. rewrite Halbums.
  by apply (for_each_stops pre alb post _ w w1 w1).
Qed.

(** An album of the year 10000, after the album of the tests. *)
Definition late_photos : CustomPhotos := {|
  list_folders := mock_list_folders;
  list_teams_folders := λ _, inl "API Error";
  list_albums := [summer_album; Album 2 "2024 Winter" 0 253402300800];
  list_item_in_albums := λ _, [photo1];
  get_userinfo_name := "test_user";
|}.

Lemma bad_timestamp_stops_run_witness :
  (link_albums late_photos template_config good_cache (world_of home_fs)).1
  = inl DateRangeError.
Proof.
  destruct (for_each [summer_album] (link_album late_photos template_config good_cache)
              (world_of home_fs)) as [r w1] eqn:Hpre.
  assert (Hr : r = inr tt).
  { apply (f_equal fst) in Hpre. cbn [fst] in Hpre. rewrite <- Hpre.
    vm_compute. reflexivity. }
  subst r.
  assert (Hdate : fromtimestamp (w_utcoffset w1)
                    (a_create_time (Album 2 "2024 Winter" 0 253402300800))
                  = inl DateRangeError).
  { apply (f_equal snd) in Hpre. cbn [snd] in Hpre. rewrite <- Hpre.
    vm_compute. reflexivity. }
  rewrite (proj2 (bad_timestamp_stops_run late_photos template_config good_cache
                    [summer_album] (Album 2 "2024 Winter" 0 253402300800) []
                    (world_of home_fs) w1 eq_refl Hpre Hdate)).
  reflexivity.
Defined.

(** ** From the cache run to the link run *)

(** The listings of the clients, personal and shared, have finite depth
    below the root, and the fuel covers them. *)
Definition clients_ok (rank : CustomPhotos → bool → Z → nat) (fuel : nat)
    (photos_clients : list CustomPhotos) : Prop :=
  ∀ photos is_shared, photos ∈ photos_clients →
    finite_depth (list_fn_of photos is_shared) (rank photos is_shared) ∧
    (rank photos is_shared 0%Z < fuel)%nat.

(** A folder found from the root of one of the clients, personal or
    shared. *)
Definition found_by (photos_clients : list CustomPhotos) (f : folder) : Prop :=
  ∃ photos is_shared, photos ∈ photos_clients ∧
    reachable (list_fn_of photos is_shared) 0 f.

Lemma load_after_dump cfg all_folders w w1 :
  dump_folders cfg all_folders w = (inr tt, w1) →
  load_cached_folders cfg w1 = (inr (listified <$> all_folders), w1).
Proof.
  intros Hsave. unfold dump_folders in Hsave. unfold mbind, M_bind in Hsave.
  simpl in Hsave.
  destruct (write_json_file _ _ _) as [[e|[]] w'] eqn:Hwrite; [done|].
  apply read_after_write in Hwrite. injection Hsave as <-.
  unfold load_cached_folders, try_except, mbind, M_bind.
  unfold read_json_file in *. simpl in *.
  destruct (resolve _ _ _ _) as [e | [place [| [doc|] | target] | place]]; try done.
  injection Hwrite as ->. simpl. unfold mret, M_ret. do 2 f_equal.
  rewrite <- map_fmap_compose. done.
Qed.

Lemma collect_all_entries rank fuel photos_clients :
  clients_ok rank fuel photos_clients →
  (∀ photos, photos ∈ photos_clients → ∃ items, list_folders photos 0 = inr items) →
  ∀ acc w, ∃ m w',
    collect_all fuel photos_clients acc w = Some (inr m, w') ∧
    w_fs w' = w_fs w ∧ w_cwd w' = w_cwd w ∧
    (∀ k v, m !! k = Some v →
       acc !! k = Some v ∨
       ∃ f, found_by photos_clients f ∧ k = str_int (f_id f) ∧ v = folder_entry f) ∧
    dom acc ⊆ dom m ∧
    (∀ f, found_by photos_clients f → str_int (f_id f) ∈ dom m).
Proof.
  induction photos_clients as [|photos rest IH]; intros Hok Hroot acc w.
  { exists acc, w. repeat split; try done; [by left|].
    intros f (p & s & Hp & _). by apply elem_of_nil in Hp. }
  destruct (Hroot photos) as [items Hitems]; [left|].
  destruct (Hok photos false) as [Hrank Hlt]; [left|].
  destruct (Hok photos true) as [Hrank' Hlt']; [left|].
  destruct (collect_sound_complete photos false (λ ids, ids) _ Hrank
              (λ l, reflexivity l) fuel 0 Hlt) as (m1 & log1 & Hm1 & Hs1 & Hc1).
  destruct (collect_sound_complete photos true (λ ids, ids) _ Hrank'
              (λ l, reflexivity l) fuel 0 Hlt') as (m2 & log2 & Hm2 & Hs2 & Hc2).
  cbn [collect_all]. rewrite Hitems. unfold collect_folders_recursive.
  rewrite Hm1. cbn [mbind option_bind]. rewrite Hm2. cbn [mbind option_bind].
  assert (Hok' : clients_ok rank fuel rest).
  { intros p s Hp. apply Hok. by right. }
  assert (Hroot' : ∀ p, p ∈ rest → ∃ items, list_folders p 0 = inr items).
  { intros p Hp. apply Hroot. by right. }
  match goal with |- context [collect_all fuel rest ?a ?v] =>
    destruct (IH Hok' Hroot' a v)
      as (m & w' & Hm & Hfs & Hcwd & Hsound & Hdom & Hcomplete)
  end.
  exists m, w'. split; [done|]. split; [done|]. split; [done|].
  unfold dict_update in *. split; [|split].
  - intros k v Hk. destruct (Hsound k v Hk) as [Hacc | (f & Hf & ? & ?)].
    + apply lookup_union_Some_raw in Hacc as [H2 | [_ Hacc]].
      { right. destruct (Hs2 k v H2) as (f & Hf & ? & ?).
        exists f. split; [|done]. exists photos, true. split; [left | done]. }
      apply lookup_union_Some_raw in Hacc as [H1 | [_ Hacc]]; [|by left].
      right. destruct (Hs1 k v H1) as (f & Hf & ? & ?).
      exists f. split; [|done]. exists photos, false. split; [left | done].
    + right. exists f. split; [|done].
      destruct Hf as (p & s & Hp & Hf). exists p, s. split; [by right | done].
  - etrans; [|exact Hdom]. rewrite !dom_union. set_solver.
  - intros f (p & s & Hp & Hf). apply elem_of_cons in Hp as [-> | Hp].
    + apply Hdom. rewrite !dom_union. destruct s.
      * apply Hc2 in Hf. set_solver.
      * apply Hc1 in Hf. set_solver.
    + apply Hcomplete. by exists p, s.
Qed.

(** X10: the cache run and the link run fit together.  When the root
    listing of every client succeeds and the listings have finite depth,
    [cache_folders] returns; when it has written the cache, the link run
    loads from it a mapping with an entry for every folder found from the
    root of any client, personal or shared, and every entry is the list
    [[name, owner id]] of such a folder under the decimal string of its
    id: the check of line 106 passes for the images of these folders and
    line 126 unpacks their entries. *)
Theorem cache_then_load (rank : CustomPhotos → bool → Z → nat) (fuel : nat)
    (photos_clients : list CustomPhotos) (cfg : config) (w : world) :
  clients_ok rank fuel photos_clients →
  (∀ photos, photos ∈ photos_clients → ∃ items, list_folders photos 0 = inr items) →
  ∃ r w1, cache_folders fuel photos_clients cfg w = Some (r, w1) ∧
    (r = inr tt →
     ∃ all_folders, load_cached_folders cfg w1 = (inr all_folders, w1) ∧
       (∀ k v, all_folders !! k = Some v →
          ∃ f, found_by photos_clients f ∧ k = str_int (f_id f) ∧
               v = PyList [PyStr (f_name f); PyInt (f_owner_user_id f)]) ∧
       (∀ f, found_by photos_clients f →
          ∃ folder_name owner_id,
            (all_folders !! str_int (f_id f)) ≫= unpack_record
            = Some (folder_name, owner_id))).
Proof.
  intros Hok Hroot.
  destruct (collect_all_entries rank fuel photos_clients Hok Hroot ∅ w)
    as (m & w' & Hm & _ & _ & Hsound & _ & Hcomplete).
  unfold cache_folders. rewrite Hm. cbn [mbind option_bind].
  destruct (dump_folders cfg m w') as [r w1] eqn:Hdump. exists r, w1.
  split; [done|]. intros ->.
  pose proof (load_after_dump cfg m w' w1 Hdump) as Hload.
  exists (listified <$> m). split; [done|].
  assert (Hentries : ∀ k v, (listified <$> m) !! k = Some v →
            ∃ f, found_by photos_clients f ∧ k = str_int (f_id f) ∧
                 v = PyList [PyStr (f_name f); PyInt (f_owner_user_id f)]).
  { intros k v Hk. rewrite lookup_fmap in Hk.
    destruct (m !! k) as [v0|] eqn:Hk0; [|done]. injection Hk as <-.
    destruct (Hsound k v0 Hk0) as [Hacc | (f & Hf & -> & ->)]; [done|].
    by exists f. }
  split; [done|]. intros f Hf.
  pose proof (Hcomplete f Hf) as Hin. rewrite <- (dom_fmap_L listified) in Hin.
  apply elem_of_dom in Hin as [v Hv].
  destruct (Hentries _ _ Hv) as (f' & _ & _ & ->). rewrite Hv. simpl. eauto.
Qed.

Lemma mock_clients_ok : clients_ok (λ _ _, mock_rank) 3 [mock_photos].
Proof.
  intros photos is_shared Hp. apply list_elem_of_singleton in Hp as ->.
  split; [|unfold mock_rank; simpl; lia].
  destruct is_shared; [|exact mock_finite_depth].
  intros p items f Hl. discriminate.
Qed.

Lemma cache_then_load_witness :
  ∃ r w1, cache_folders 3 [mock_photos] template_config (world_of home_fs)
          = Some (r, w1) ∧
    (r = inr tt →
     ∃ all_folders, load_cached_folders template_config w1 = (inr all_folders, w1) ∧
       (∀ k v, all_folders !! k = Some v →
          ∃ f, found_by [mock_photos] f ∧ k = str_int (f_id f) ∧
               v = PyList [PyStr (f_name f); PyInt (f_owner_user_id f)]) ∧
       (∀ f, found_by [mock_photos] f →
          ∃ folder_name owner_id,
            (all_folders !! str_int (f_id f)) ≫= unpack_record
            = Some (folder_name, owner_id))).
Proof.
  apply (cache_then_load (λ _ _, mock_rank) 3 [mock_photos] template_config
           (world_of home_fs)).
  - exact mock_clients_ok.
  - intros photos Hp. apply list_elem_of_singleton in Hp as ->. eexists. reflexivity.
Defined.

(** X11: the first listing of the root (line 56) is outside any [try].
    When it fails for one client, [cache_folders] raises the error of the
    listing: the folders collected for the clients before it are dropped,
    the cache file is not written and the file system is as it was. *)
Theorem failed_root_listing_drops_cache (rank : CustomPhotos → bool → Z → nat)
    (fuel : nat) (pre : list CustomPhotos) (photos : CustomPhotos)
    (rest : list CustomPhotos) (cfg : config) (w : world) (error : string) :
  clients_ok rank fuel pre →
  (∀ p, p ∈ pre → ∃ items, list_folders p 0 = inr items) →
  list_folders photos 0 = inl error →
  ∃ w', cache_folders fuel (pre ++ photos :: rest) cfg w
        = Some (inl (RemoteError error), w') ∧
        w_fs w' = w_fs w.
Proof.
  intros Hok Hroot Herr. unfold cache_folders.
  assert (Hall : ∀ acc w0, ∃ w',
            collect_all fuel (pre ++ photos :: rest) acc w0
            = Some (inl (RemoteError error), w') ∧ w_fs w' = w_fs w0).
  { induction pre as [|p pre IH]; intros acc w0.
    - cbn [app collect_all]. rewrite Herr. by eexists.
    - destruct (Hroot p) as [items Hitems]; [left|].
      destruct (Hok p false) as [Hrank Hlt]; [left|].
      destruct (Hok p true) as [Hrank' Hlt']; [left|].
      destruct (collect_sound_complete p false (λ ids, ids) _ Hrank
                  (λ l, reflexivity l) fuel 0 Hlt) as (m1 & log1 & Hm1 & _).
      destruct (collect_sound_complete p true (λ ids, ids) _ Hrank'
                  (λ l, reflexivity l) fuel 0 Hlt') as (m2 & log2 & Hm2 & _).
      cbn [app collect_all]. rewrite Hitems. unfold collect_folders_recursive.
      rewrite Hm1. cbn [mbind option_bind]. rewrite Hm2. cbn [mbind option_bind].
      match goal with |- context [collect_all fuel _ ?a ?v] =>
        destruct (IH (λ q s Hq, Hok q s (list_elem_of_further _ _ _ Hq))
                     (λ q Hq, Hroot q (list_elem_of_further _ _ _ Hq)) a v)
          as (w' & Hw' & Hfs)
      end.
      exists w'. split; [done|]. by rewrite Hfs. }
  destruct (Hall ∅ w) as (w' & -> & Hfs). by exists w'.
Qed.

(** A client whose root listing fails. *)
Definition broken_photos : CustomPhotos := {|
  list_folders := λ _, inl "API Error";
  list_teams_folders := λ _, inl "API Error";
  list_albums := [];
  list_item_in_albums := λ _, [];
  get_userinfo_name := "other_user";
|}.

Lemma failed_root_listing_drops_cache_witness :
  ∃ w', cache_folders 3 ([mock_photos] ++ broken_photos :: []) template_config
          (world_of home_fs)
        = Some (inl (RemoteError "API Error"), w') ∧
        w_fs w' = w_fs (world_of home_fs).
Proof.
  apply (failed_root_listing_drops_cache (λ _ _, mock_rank) 3 [mock_photos]
           broken_photos [] template_config (world_of home_fs) "API Error").
  - exact mock_clients_ok.
  - intros photos Hp. apply list_elem_of_singleton in Hp as ->. eexists. reflexivity.
  - reflexivity.
Defined.

(** The cache run of the witness does write the cache, and the link run
    that follows it links the photo of the album of the tests. *)
Example cache_run_then_link_run :
  match cache_folders 3 [mock_photos] template_config (world_of home_fs) with
  | Some (inr _, w1) =>
    (create_album_links mock_photos template_config w1).1 = inr tt ∧
    w_fs (create_album_links mock_photos template_config w1).2
      !! ["home"; "u"; "albums"; "2023"; "2023 Summer"; "photo1.jpg"]
    = Some (Symlink "../../users/0/Photos/2023/photo1.jpg")
  | _ => False
  end.
Proof. vm_compute. split; reflexivity. Qed.

(** ** A run in which every check passes *)

(** Every album has a creation time that converts, and every image of
    every album has a cache entry that unpacks to a folder name and the
    owner of the image, who has a photo root. *)
Definition checks_pass (photos : CustomPhotos) (cfg : config)
    (all_folders : gmap string pyval) (tz : Z → Z) : Prop :=
  ∀ alb, alb ∈ list_albums photos →
    (∃ album_date, fromtimestamp tz (a_create_time alb) = inr album_date) ∧
    ∀ img, img ∈ list_item_in_albums photos (a_id alb) →
      ∃ record folder_name root,
        all_folders !! str_int (i_folder_id img) = Some record ∧
        unpack_record record = Some (folder_name, i_owner_user_id img) ∧
        PHOTO_ROOTS cfg !! i_owner_user_id img = Some root.

Lemma link_image_ok cfg all_folders alb y img record folder_name root w :
  tree_ok (w_cwd w) (w_fs w) → album_made (w_cwd w) (w_fs w) y (safe_name alb) →
  plain y = true → y ≠ "users" → plain (safe_name alb) = true →
  plain (i_filename img) = true →
  all_folders !! str_int (i_folder_id img) = Some record →
  unpack_record record = Some (folder_name, i_owner_user_id img) →
  PHOTO_ROOTS cfg !! i_owner_user_id img = Some root →
  ∃ w', link_image cfg all_folders alb (album_dir y alb) img w = (inr tt, w') ∧
        w_cwd w' = w_cwd w ∧ w_utcoffset w' = w_utcoffset w ∧
        tree_ok (w_cwd w) (w_fs w') ∧ album_made (w_cwd w) (w_fs w') y (safe_name alb).
Proof.
  intros Htree Hmade Hy Hyu Hn Hf Hrec Hunpack Hroot.
  rewrite link_image_closed by done. unfold link_image_closed_form.
  rewrite Hrec, Hroot, Hunpack. rewrite !bool_decide_true by eauto.
  eexists. split; [done|].
  set (w1 := owner_step (path_str (path_of root)) img w).
  destruct (owner_step_cwd (path_str (path_of root)) img w) as [Hc1 Ht1].
  fold w1 in Hc1, Ht1.
  destruct (item_step_cwd (item_place (w_cwd w) y (safe_name alb) (i_filename img))
              (path_str (item_source_path folder_name img)) w1) as [Hc2 Ht2].
  split; [by rewrite Hc2|]. split; [by rewrite Ht2|].
  assert (Hus : Forall (allowed (w_cwd w) cfg)
                  (users_updates (w_cwd w)
                     ++ [OwnerLink (owner_link_place (w_cwd w) (i_owner_user_id img))
                                   (path_str (path_of root))])).
  { apply Forall_app. split; [apply users_updates_allowed|].
    apply Forall_singleton. simpl. eauto. }
  assert (Hitem : allowed (w_cwd w) cfg
                    (ItemLink (item_place (w_cwd w) y (safe_name alb) (i_filename img))
                              (path_str (item_source_path folder_name img))))
    by (simpl; eauto).
  rewrite item_step_fs. unfold w1. rewrite owner_step_fs. split.
  - apply (tree_ok_apply _ cfg); [done|]. by apply (tree_ok_apply_upds _ cfg).
  - apply (album_made_apply _ cfg); [done..|]. by apply (album_made_apply_upds _ cfg).
Qed.

Lemma get_album_year_returns utcoffset album_timestamp album_name album_date :
  fromtimestamp utcoffset album_timestamp = inr album_date →
  ∃ y, get_album_year utcoffset album_timestamp album_name = inr y.
Proof.
  intros Hdate. unfold get_album_year. rewrite Hdate.
  destruct (re_match_4_digits album_name); [eauto|].
  destruct (re_match_2_digit album_name); eauto.
Qed.

Lemma link_albums_ok photos cfg all_folders cwd tz :
  plain_names photos → checks_pass photos cfg all_folders tz →
  ∀ w, w_cwd w = cwd → w_utcoffset w = tz → tree_ok cwd (w_fs w) →
  ∃ w', link_albums photos cfg all_folders w = (inr tt, w') ∧
        w_cwd w' = cwd ∧ w_utcoffset w' = tz ∧ tree_ok cwd (w_fs w').
Proof.
  intros Hplain Hchecks. unfold link_albums.
  assert (Halbum : ∀ alb, alb ∈ list_albums photos →
    ∀ w, w_cwd w = cwd → w_utcoffset w = tz → tree_ok cwd (w_fs w) →
    ∃ w', link_album photos cfg all_folders alb w = (inr tt, w') ∧
          w_cwd w' = cwd ∧ w_utcoffset w' = tz ∧ tree_ok cwd (w_fs w')).
  { intros alb Halb w Hc Ht Htree.
    destruct (Hplain alb Halb) as [Hn Hfiles].
    destruct (Hchecks alb Halb) as [[album_date Hdate] Himgs].
    destruct (get_album_year_returns tz _ (a_name alb) _ Hdate) as [y Hyear].
    destruct (get_album_year_plain _ _ _ _ Hyear) as [Hy Hyu].
    unfold link_album. unfold mbind at 1, M_bind at 1. rewrite Ht, Hyear.
    unfold mbind, M_bind. rewrite album_mkdir_closed by (by rewrite ?Hc).
    rewrite Hc, make_dirs_album. fold (safe_name alb).
    set (w0 := set_fs (apply_upds (album_updates cwd y (safe_name alb)) (w_fs w)) w).
    assert (Hinv : w_cwd w0 = cwd ∧ w_utcoffset w0 = tz ∧ tree_ok cwd (w_fs w0) ∧
                   album_made cwd (w_fs w0) y (safe_name alb)).
    { unfold w0. cbn [w_cwd w_utcoffset w_fs set_fs]. repeat split; try done.
      - apply (tree_ok_apply_upds cwd cfg); [by apply album_updates_allowed | done].
      - apply (tree_ok_apply_upds cwd cfg); [by apply album_updates_allowed | done].
      - apply (tree_ok_apply_upds cwd cfg); [by apply album_updates_allowed | done].
      - rewrite <- make_dirs_album.
        pose proof (make_dirs_dirs cwd ["albums"; y; safe_name alb] (w_fs w)) as Hd.
        simpl in Hd. rewrite <- !app_assoc in Hd.
        by apply Forall_cons in Hd as [H1 _].
      - rewrite <- make_dirs_album.
        pose proof (make_dirs_dirs cwd ["albums"; y; safe_name alb] (w_fs w)) as Hd.
        simpl in Hd. rewrite <- !app_assoc in Hd.
        apply Forall_cons in Hd as [_ Hd]. by apply Forall_cons in Hd as [H2 _].
      - rewrite <- make_dirs_album.
        pose proof (make_dirs_dirs cwd ["albums"; y; safe_name alb] (w_fs w)) as Hd.
        simpl in Hd. rewrite <- !app_assoc in Hd.
        apply Forall_cons in Hd as [_ Hd]. apply Forall_cons in Hd as [_ Hd].
        by apply Forall_cons in Hd as [H3 _]. }
    clearbody w0. revert w0 Hinv.
    induction (list_item_in_albums photos (a_id alb)) as [|img imgs IH];
      intros w0 (Hc0 & Ht0 & Htree0 & Hmade0).
    { by exists w0. }
    destruct (Himgs img) as (record & folder_name & root & Hrec & Hunpack & Hroot);
      [left|].
    destruct (link_image_ok cfg all_folders alb y img record folder_name root w0)
      as (w1 & Hw1 & Hc1 & Ht1 & Htree1 & Hmade1);
      try (by rewrite ?Hc0); [apply Hfiles; left|].
    rewrite for_each_cons, Hw1. rewrite Hc0 in *. apply IH.
    - intros img' Himg'. apply Hfiles. by right.
    - intros img' Himg'. apply Himgs. by right.
    - by rewrite Hc1, Ht1, Ht0. }
  induction (list_albums photos) as [|alb albs IH]; intros w Hc Ht Htree.
  { by exists w. }
  destruct (Halbum alb) with w as (w1 & Hw1 & Hc1 & Ht1 & Htree1); [left|done..|].
  rewrite for_each_cons, Hw1. apply IH; [|done..].
  intros alb' Halb'. apply Halbum. by right.
Qed.

Lemma load_cached_folders_world cfg w all_folders w1 :
  load_cached_folders cfg w = (inr all_folders, w1) → w1 = w.
Proof.
  unfold load_cached_folders, try_except, mbind, M_bind, read_json_file.
  destruct (resolve _ _ _ _) as [[] | [place [| [doc|] | target] | place]];
    simpl; intros [= _ <-]; done.
Qed.

Definition completed_line : out_line :=
  Line (newline +:+ "✓ Album linking completed").

(** The names the calls are given are names a file system takes: no photo
    root, file name or folder name has a NUL byte, and the name of the
    directory of an album has none and is at most [NAME_MAX] bytes long. *)
Definition names_accepted (photos : CustomPhotos) (cfg : config)
    (all_folders : gmap string pyval) : Prop :=
  (∀ owner_id root, PHOTO_ROOTS cfg !! owner_id = Some root → nul_free root = true) ∧
  ∀ alb, alb ∈ list_albums photos →
    nul_free (safe_name alb) = true ∧ (String.length (safe_name alb) ≤ 255)%nat ∧
    ∀ img, img ∈ list_item_in_albums photos (a_id alb) →
      nul_free (i_filename img) = true ∧
      ∀ record folder_name owner_id,
        all_folders !! str_int (i_folder_id img) = Some record →
        unpack_record record = Some (folder_name, owner_id) →
        nul_free folder_name = true.

(** X16: the run completes when every check passes.  With a cache that
    loads, album names (slashes replaced) and file names that are plain,
    names that a file system takes, a link tree whose directory places
    hold directories or nothing, creation times that convert, and for
    every image a cache entry of its folder that unpacks to a name and to
    the owner of the image, who has a photo root: on a file system that
    refuses no call for a reason other than the state of the tree,
    [create_album_links] raises nothing and the last line it prints is the
    line of completion. *)
Theorem run_completes (photos : CustomPhotos) (cfg : config)
    (all_folders : gmap string pyval) (w w1 : world) :
  load_cached_folders cfg w = (inr all_folders, w1) →
  plain_names photos → names_accepted photos cfg all_folders →
  checks_pass photos cfg all_folders (w_utcoffset w) →
  tree_ok (w_cwd w) (w_fs w) →
  ∃ w', create_album_links photos cfg w = (inr tt, w') ∧
        last (w_out w') = Some completed_line ∧
        tree_ok (w_cwd w) (w_fs w').
Proof.
  intros Hload Hplain _ Hchecks Htree.
  pose proof (load_cached_folders_world _ _ _ _ Hload) as ->.
  unfold create_album_links. unfold mbind at 1, M_bind at 1. rewrite Hload.
  unfold mbind at 1, M_bind at 1. unfold print at 1.
  set (w0 := World _ _ _ _ _).
  destruct (link_albums_ok photos cfg all_folders (w_cwd w) (w_utcoffset w)
              Hplain Hchecks w0) as (w' & Hw' & Hc & Ht & Htree'); [done..|].
  unfold mbind at 1, M_bind at 1. rewrite Hw'. unfold print.
  eexists. split; [done|]. cbn [w_out w_fs]. split; [|done].
  by rewrite last_snoc.
Qed.

Lemma for_each_inr {A : Type} (xs : list A) (body : A → M unit) (w w' : world) :
  for_each xs body w = (inr tt, w') →
  ∀ x, x ∈ xs → ∃ wa wb, body x wa = (inr tt, wb).
Proof.
  revert w. induction xs as [|a xs IH]; intros w Hrun x Hx.
  { by apply elem_of_nil in Hx. }
  rewrite for_each_cons in Hrun.
  destruct (body a w) as [[e|[]] w1] eqn:Ha; [done|].
  apply elem_of_cons in Hx as [-> | Hx]; [eauto|]. by apply (IH w1).
Qed.

(** X17: the run completes only if every check passes.  When the loop
    over the albums returns without an exception, whatever the file system
    and the names are, every image of every album has a cache entry of its
    folder that unpacks to a folder name and to the owner of the image, and
    that owner has a photo root: one image that fails a check, in any
    album, makes the whole run raise. *)
Theorem completed_run_passed_checks (photos : CustomPhotos) (cfg : config)
    (all_folders : gmap string pyval) (w w' : world) :
  link_albums photos cfg all_folders w = (inr tt, w') →
  ∀ alb img, alb ∈ list_albums photos →
    img ∈ list_item_in_albums photos (a_id alb) →
    ∃ record folder_name root,
      all_folders !! str_int (i_folder_id img) = Some record ∧
      unpack_record record = Some (folder_name, i_owner_user_id img) ∧
      PHOTO_ROOTS cfg !! i_owner_user_id img = Some root.
Proof.
  intros Hrun alb img Halb Himg. unfold link_albums in Hrun.
  destruct (for_each_inr _ _ _ _ Hrun alb Halb) as (wa & wb & Halbum).
  unfold link_album in Halbum. unfold mbind at 1, M_bind at 1 in Halbum.
  destruct (get_album_year (w_utcoffset wa) (a_create_time alb) (a_name alb))
    as [e | y] eqn:Hyear; [done|].
  unfold mbind, M_bind in Halbum.
  destruct (path_mkdir (album_dir y alb) wa) as [[e|[]] w0]; [done|].
  destruct (for_each_inr _ _ _ _ Halbum img Himg) as (w1 & w2 & Hlink).
  rewrite link_image_unfold in Hlink.
  destruct (all_folders !! str_int (i_folder_id img)) as [record|]; [|done].
  destruct (PHOTO_ROOTS cfg !! i_owner_user_id img) as [root|] eqn:Hroot; [|done].
  destruct (ensure_owner_link root img w1) as [[e|[]] w3]; [done|].
  destruct (unpack_record record) as [[folder_name owner_id]|] eqn:Hunpack; [|done].
  destruct (bool_decide (is_Some (PHOTO_ROOTS cfg !! owner_id))); [|done].
  destruct (bool_decide (i_owner_user_id img = owner_id)) eqn:Hown; [|done].
  apply bool_decide_eq_true in Hown as <-. by exists record, folder_name, root.
Qed.

(** The world of the tests with a cache file in it. *)
Definition cached_world : world :=
  world_of (<[["home"; "u"; "folders_cache.json"]
              := File (Some (json_of_py <$> good_cache))]> home_fs).

Lemma cached_tree_ok : tree_ok (w_cwd cached_world) (w_fs cached_world).
Proof.
  destruct home_tree_ok as (Ha & Hx & Hyx).
  unfold tree_ok, dir_slot, cached_world, world_of in *. cbn [w_cwd w_fs app] in *.
  split; [|split]; intros; (rewrite lookup_insert_ne by discriminate); auto.
Qed.

Lemma mock_checks_pass : checks_pass mock_photos template_config good_cache (λ _, 0).
Proof.
  intros alb Halb. apply list_elem_of_singleton in Halb as ->. split.
  - eexists. vm_compute. reflexivity.
  - intros img Himg. apply list_elem_of_singleton in Himg as ->.
    by exists (PyList [PyStr "/Photos/2023"; PyInt 0]), "/Photos/2023",
              "/Volumes/homes/User1/Photos".
Qed.

Lemma mock_names_accepted : names_accepted mock_photos template_config good_cache.
Proof.
  split.
  - intros owner_id root Hroot. unfold template_config in Hroot.
    cbn [PHOTO_ROOTS] in Hroot.
    apply lookup_insert_Some in Hroot as [[_ <-] | [_ Hroot]]; [done|].
    apply lookup_singleton_Some in Hroot as [_ <-]. done.
  - intros alb Halb. apply list_elem_of_singleton in Halb as ->.
    split; [done|]. split; [simpl; lia|].
    intros img Himg. apply list_elem_of_singleton in Himg as ->. split; [done|].
    intros record folder_name owner_id Hrec Hunpack. unfold good_cache in Hrec.
    apply lookup_singleton_Some in Hrec as [_ <-]. by injection Hunpack as <- _.
Qed.

Lemma run_completes_witness :
  ∃ w', create_album_links mock_photos template_config cached_world = (inr tt, w') ∧
        last (w_out w') = Some completed_line ∧
        tree_ok (w_cwd cached_world) (w_fs w').
Proof.
  destruct (load_cached_folders template_config cached_world) as [r w1] eqn:Hload.
  assert (Hr : r = inr good_cache).
  { apply (f_equal fst) in Hload. cbn [fst] in Hload. rewrite <- Hload.
    vm_compute. reflexivity. }
  subst r.
  exact (run_completes mock_photos template_config good_cache cached_world w1
           Hload mock_plain_names mock_names_accepted mock_checks_pass
           cached_tree_ok).
Defined.

Lemma completed_run_passed_checks_witness :
  ∃ record folder_name root,
    good_cache !! str_int (i_folder_id photo1) = Some record ∧
    unpack_record record = Some (folder_name, i_owner_user_id photo1) ∧
    PHOTO_ROOTS template_config !! i_owner_user_id photo1 = Some root.
Proof.
  destruct (link_albums mock_photos template_config good_cache (world_of home_fs))
    as [r w'] eqn:Hrun.
  assert (Hr : r = inr tt).
  { apply (f_equal fst) in Hrun. cbn [fst] in Hrun. rewrite <- Hrun.
    vm_compute. reflexivity. }
  subst r.
  apply (completed_run_passed_checks mock_photos template_config good_cache
           (world_of home_fs) w' Hrun summer_album photo1); by left.
Defined.
